(** * MPD streaming pipeline: decoder loop, recorder output, grouped counts

    A shallow embedding of three sources of the Music Player Daemon:

    - [src/ogg_decode.c]: the Ogg Vorbis decoder loop that fills the
      shared chunk buffer and answers the player's stop and seek flags;
    - [src/output/plugins/RecorderOutputPlugin.cxx]: the output that
      encodes PCM and writes the encoder's bytes to a file;
    - [src/db/Count.cxx]: song counts and play times grouped by a tag.

    Each source is a module of its own.  External collaborators
    (libvorbisfile, the encoder plugin, the operating system) are
    interfaces or explicit state. *)

From Stdlib Require Import ZArith Bool Strings.Byte.
From stdpp Require Import gmap strings list fin_maps pretty sorting.

#[local] Open Scope Z_scope.

(** The old C struct and the C++ struct carry the same three numbers. *)
Record AudioFormat := mkAudioFormat {
  bits : Z;
  channels : Z;
  sampleRate : Z;
}.

(** [memcpy(dst + off, src, n)] on byte lists.  Reading past [src] or
    writing past [dst] is undefined in C; here the copy is cut short. *)
Definition memcpy (dst : list byte) (off : Z) (src : list byte) (n : Z)
  : list byte :=
  take (Z.to_nat off) dst ++ take (Z.to_nat n) src
    ++ drop (Z.to_nat (off + n)) dst.

(* ===================================================================== *)
(** * The Ogg Vorbis decoder loop ([ogg_decode.c]) *)
(* ===================================================================== *)

Module OggDecode.

(** libvorbisfile and the input stream, as far as [ogg_decode] uses them.
    [time] stands for the C [float]/[double] values (seconds); they are only
    carried around, never computed with.  A call that fills a struct through a
    pointer returns the new struct next to its integer result. *)
Class Vorbisfile := {
  time : Type;
  InputStream : Type;
  OggVorbis_File : Type;
  openInputStreamFromFile : string -> Z * InputStream;
  ov_open_callbacks : InputStream -> Z * OggVorbis_File;
  (** [vi->channels] and [vi->rate] of [ov_info(&vf,-1)] *)
  ov_info : OggVorbis_File -> Z * Z;
  ov_time_total : OggVorbis_File -> time;
  (** [ov_read vf length]: the return value, the bytes stored at the
      destination, and the decoder after the call *)
  ov_read : OggVorbis_File -> Z -> Z * list byte * OggVorbis_File;
  ov_time_seek_page : OggVorbis_File -> time -> OggVorbis_File;
  ov_time_tell : OggVorbis_File -> time;
  ov_bitrate_instant : OggVorbis_File -> Z;
  ov_clear : OggVorbis_File -> OggVorbis_File;
}.

(** Modelled from the spec: the decoder states.  The header that declares
    [DECODE_STATE_*] is not among the sources; [ogg_decode.c] names
    [DECODE_STATE_DECODE] and [DECODE_STATE_STOP], the specification lists
    START, DECODE, STOP and ERROR. *)
Inductive DecodeState :=
| DECODE_STATE_START
| DECODE_STATE_DECODE
| DECODE_STATE_STOP
| DECODE_STATE_ERROR.

#[export] Instance DecodeState_eq_dec : EqDecision DecodeState.
Proof. solve_decision. Defined.

(** Program points of [ogg_decode].  The player runs at the same time and
    writes [begin], [wrap], [stop], [seek] and [seekWhere]; a step of the
    decoder reads or writes at most one of them once (with [begin] goes
    [end], which only the decoder writes), so that the player can act
    between any two accesses. *)
Inductive label :=
| Lwhile   (* 127: while(!eof) *)
| Lseek    (* 128: if(dc->seek) *)
| Ldrop    (* 129: cb->end = cb->begin *)
| Lunwrap  (* 130-131: cb->wrap = 0; chunkpos = 0 *)
| Lrepos   (* 132: ov_time_seek_page(&vf,dc->seekWhere) *)
| Lack     (* 133: dc->seek = 0 *)
| Lread    (* 135-141: ret = ov_read(...); eof or chunkpos += ret *)
| Lfull    (* 142: if(chunkpos>=CHUNK_SIZE || eof) *)
| Lwait    (* 143: while(cb->begin==cb->end *)
| Lwrap    (* 143:   && cb->wrap *)
| Lnostop  (* 144:   && !dc->stop *)
| Lnoseek  (* 144:   && !dc->seek) *)
| Lsleep   (* 146: my_usleep(10000) *)
| Lstop    (* 148: if(dc->stop) break *)
| Lcont    (* 149: else if(dc->seek) continue *)
| Lpush    (* 151-164: copy the chunk, advance end, set wrap *)
| Lclear   (* 168-170: ov_clear(&vf); if(dc->seek) dc->seek = 0 *)
| Lstate   (* 172-176: dc->state = DECODE_STATE_STOP, dc->stop = 0 *)
| Lreturn. (* 179: return 0 *)

#[export] Instance label_eq_dec : EqDecision label.
Proof. solve_decision. Defined.

(** [CHUNK_SIZE] is a macro and [buffered_chunks] a global of headers that
    are not among the sources. *)
Class Sizes := {
  CHUNK_SIZE : Z;
  buffered_chunks : Z;
}.

(** ** The callbacks handed to libvorbisfile (lines 63-83) *)

(** The input stream of [inputStream.h], which is not among the sources,
    as the four callbacks use it.  [readFromInputStream] returns its
    result, the bytes it stored at [ptr] and the stream after the call;
    [error] and [offset] are the fields [inStream->error] and
    [inStream->offset].  [size_t_bits] is the width of [size_t]. *)
Class InputStreams {V : Vorbisfile} := {
  size_t_bits : N;
  readFromInputStream : InputStream -> Z -> Z -> Z * list byte * InputStream;
  seekInputStream : InputStream -> Z -> Z -> Z * InputStream;
  closeInputStream : InputStream -> Z;
  error : InputStream -> Z;
  offset : InputStream -> Z;
}.

Section Callbacks.
Context {V : Vorbisfile} {I : InputStreams}.

(** The conversion to [size_t], an unsigned type. *)
Definition to_size_t (z : Z) : Z := z mod 2 ^ Z.of_N size_t_bits.

(** [ogg_read_cb]: the value returned, the bytes stored at [ptr], the
    stream and [errno] after the call.  The result of
    [readFromInputStream] is stored in [size_t ret] before it is tested. *)
Definition ogg_read_cb (size nmemb : Z) (inStream : InputStream) (errno : Z)
  : Z * list byte * InputStream * Z :=
  let '(r, data, s) := readFromInputStream inStream size nmemb in
  let ret := to_size_t r in
  (ret, data, s, if ret <? 0 then error s else errno).

Definition ogg_seek_cb (inStream : InputStream) (off whence : Z)
  : Z * InputStream :=
  seekInputStream inStream off whence.

Definition ogg_close_cb (inStream : InputStream) : Z :=
  closeInputStream inStream.

Definition ogg_tell_cb (inStream : InputStream) : Z := offset inStream.

End Callbacks.

Section Decoder.
Context {V : Vorbisfile} {K : Sizes}.

(** [Buffer]: the chunk ring shared with the player.  The flag [wrap] is a
    C integer used as a truth value. *)
Record Buffer := mkBuffer {
  chunks : list byte;
  chunkSize : list Z;
  bitRate : list Z;
  times : list time;
  begin : Z;
  end_ : Z;
  wrap : bool;
  totalTime : time;
}.

(** [DecoderControl]: the flags and the state shared with the player. *)
Record DecoderControl := mkDecoderControl {
  state : DecodeState;
  stop : bool;
  seek : bool;
  seekWhere : time;
  start : bool;
  file : string;
}.

(** What the loop does that cannot be read off the final state. *)
Inductive Event :=
| EvSeek (t : time)          (* ov_time_seek_page(&vf, t) *)
| EvRead (ret : Z)           (* ov_read returned ret *)
| EvSleep                    (* my_usleep(10000) *)
| EvPush (slot size : Z)     (* a chunk of [size] bytes stored in [slot] *)
| EvClear.                   (* ov_clear(&vf) *)

(** The locals of [ogg_decode] together with what its pointers reach. *)
Record config := mkConfig {
  pc : label;
  cb : Buffer;
  af : AudioFormat;
  dc : DecoderControl;
  vf : OggVorbis_File;
  eof : bool;
  chunk : list byte;
  chunkpos : Z;
  cur_bitRate : Z;           (* the local [bitRate] *)
  trace : list Event;
}.

(** [cb->begin==cb->end && cb->wrap] *)
Definition is_full (b : Buffer) : bool := (begin b =? end_ b) && wrap b.

(** [cb->begin==cb->end && !cb->wrap] *)
Definition is_empty (b : Buffer) : bool := (begin b =? end_ b) && negb (wrap b).

(** ** Field updates *)

Definition goto (l : label) (c : config) : config :=
  mkConfig l (cb c) (af c) (dc c) (vf c) (eof c) (chunk c) (chunkpos c)
    (cur_bitRate c) (trace c).

Definition emit (e : Event) (c : config) : config :=
  mkConfig (pc c) (cb c) (af c) (dc c) (vf c) (eof c) (chunk c) (chunkpos c)
    (cur_bitRate c) (trace c ++ [e]).

(** Line 129: [cb->end = cb->begin] *)
Definition drop_buffered (b : Buffer) : Buffer :=
  mkBuffer (chunks b) (chunkSize b) (bitRate b) (times b) (begin b)
    (begin b) (wrap b) (totalTime b).

(** Line 130: [cb->wrap = 0] *)
Definition unwrap (b : Buffer) : Buffer :=
  mkBuffer (chunks b) (chunkSize b) (bitRate b) (times b) (begin b)
    (end_ b) false (totalTime b).

Definition clear_seek (d : DecoderControl) : DecoderControl :=
  mkDecoderControl (state d) (stop d) false (seekWhere d) (start d) (file d).

(** Lines 151-164, on the buffer: the bytes, the size, the time and the bit
    rate go to slot [end]; then [end] moves on and starts again at 0, setting
    [wrap], when it reaches [buffered_chunks]. *)
Definition store_chunk (data : list byte) (size : Z) (t : time) (rate : Z)
    (b : Buffer) : Buffer :=
  let slot := Z.to_nat (end_ b) in
  let e := end_ b + 1 in
  mkBuffer (memcpy (chunks b) (end_ b * CHUNK_SIZE) data size)
    (<[slot := size]> (chunkSize b))
    (<[slot := rate]> (bitRate b))
    (<[slot := t]> (times b))
    (begin b)
    (if e >=? buffered_chunks then 0 else e)
    (if e >=? buffered_chunks then true else wrap b)
    (totalTime b).

(** Lines 156-158: [if((test = ov_bitrate_instant(&vf))>0) bitRate = test/1000;] *)
Definition next_bitRate (v : OggVorbis_File) (old : Z) : Z :=
  let test := ov_bitrate_instant v in
  if test >? 0 then test ÷ 1000 else old.

(** Lines 172-176: both branches of [if(dc->stop)] store
    [DECODE_STATE_STOP], and [stop] ends up cleared. *)
Definition finish (d : DecoderControl) : DecoderControl :=
  mkDecoderControl DECODE_STATE_STOP false (seek d) (seekWhere d) (start d)
    (file d).

(** ** One step of the loop *)

Definition step (c : config) : config :=
  match pc c with
  | Lwhile =>
      if eof c then goto Lclear c else goto Lseek c
  | Lseek =>
      if seek (dc c) then goto Ldrop c else goto Lread c
  | Ldrop =>
      mkConfig Lunwrap (drop_buffered (cb c)) (af c) (dc c) (vf c) (eof c)
        (chunk c) (chunkpos c) (cur_bitRate c) (trace c)
  | Lunwrap =>
      mkConfig Lrepos (unwrap (cb c)) (af c) (dc c) (vf c) (eof c)
        (chunk c) 0 (cur_bitRate c) (trace c)
  | Lrepos =>
      mkConfig Lack (cb c) (af c) (dc c)
        (ov_time_seek_page (vf c) (seekWhere (dc c)))
        (eof c) (chunk c) (chunkpos c) (cur_bitRate c)
        (trace c ++ [EvSeek (seekWhere (dc c))])
  | Lack =>
      mkConfig Lread (cb c) (af c) (clear_seek (dc c)) (vf c) (eof c)
        (chunk c) (chunkpos c) (cur_bitRate c) (trace c)
  | Lread =>
      let '(ret, data, v) := ov_read (vf c) (CHUNK_SIZE - chunkpos c) in
      if ret <=? 0 then
        mkConfig Lfull (cb c) (af c) (dc c) v true (chunk c) (chunkpos c)
          (cur_bitRate c) (trace c ++ [EvRead ret])
      else
        mkConfig Lfull (cb c) (af c) (dc c) v (eof c)
          (memcpy (chunk c) (chunkpos c) data ret) (chunkpos c + ret)
          (cur_bitRate c) (trace c ++ [EvRead ret])
  | Lfull =>
      if (chunkpos c >=? CHUNK_SIZE) || eof c then goto Lwait c
      else goto Lwhile c
  | Lwait =>
      if begin (cb c) =? end_ (cb c) then goto Lwrap c else goto Lstop c
  | Lwrap =>
      if wrap (cb c) then goto Lnostop c else goto Lstop c
  | Lnostop =>
      if negb (stop (dc c)) then goto Lnoseek c else goto Lstop c
  | Lnoseek =>
      if negb (seek (dc c)) then goto Lsleep c else goto Lstop c
  | Lsleep => goto Lwait (emit EvSleep c)
  | Lstop =>
      if stop (dc c) then goto Lclear c else goto Lcont c
  | Lcont =>
      if seek (dc c) then goto Lwhile c else goto Lpush c
  | Lpush =>
      let rate := next_bitRate (vf c) (cur_bitRate c) in
      mkConfig Lwhile
        (store_chunk (chunk c) (chunkpos c) (ov_time_tell (vf c)) rate (cb c))
        (af c) (dc c) (vf c) (eof c) (chunk c) 0 rate
        (trace c ++ [EvPush (end_ (cb c)) (chunkpos c)])
  | Lclear =>
      mkConfig Lstate (cb c) (af c) (clear_seek (dc c)) (ov_clear (vf c))
        (eof c) (chunk c) (chunkpos c) (cur_bitRate c)
        (trace c ++ [EvClear])
  | Lstate =>
      mkConfig Lreturn (cb c) (af c) (finish (dc c)) (vf c)
        (eof c) (chunk c) (chunkpos c) (cur_bitRate c) (trace c)
  | Lreturn => c
  end.

(** ** Entering the function (lines 96-116) *)

Inductive Entry :=
| Returned (ret : Z) (b : Buffer) (a : AudioFormat) (d : DecoderControl)
    (msg : string)
| Decoding (c : config).

(** The line feed that ends the two messages handed to [ERROR]. *)
Definition LF : string := String (Ascii.ascii_of_nat 10) EmptyString.

(** The scratch array [chunk] starts with indeterminate contents; zero
    bytes stand for them. *)
Definition ogg_decode_enter (b : Buffer) (a : AudioFormat)
    (d : DecoderControl) : Entry :=
  let '(r, inStream) := openInputStreamFromFile (file d) in
  if r <? 0 then Returned (-1) b a d ("failed to open ogg" +:+ LF)
  else
    let '(r', v) := ov_open_callbacks inStream in
    if r' <? 0 then
      (* closeInputStream(&inStream) acts on the local stream only *)
      Returned (-1) b a d
        ("Input does not appear to be an Ogg bit stream." +:+ LF)
    else
      let '(ch, rate) := ov_info v in
      Decoding
        (mkConfig Lwhile
           (mkBuffer (chunks b) (chunkSize b) (bitRate b) (times b) (begin b)
              (end_ b) (wrap b) (ov_time_total v))
           (mkAudioFormat 16 ch rate)
           (mkDecoderControl DECODE_STATE_DECODE (stop d) (seek d)
              (seekWhere d) false (file d))
           v false (replicate (Z.to_nat CHUNK_SIZE) x00) 0 0 []).

(** [steps n c]: the loop running alone for [n] steps. *)
Definition steps (n : nat) (c : config) : config := Nat.iter n step c.

(** [ogg_decode] with no player around, cut off after [fuel] steps of
    the loop: the value returned and what the three pointers reach. *)
Definition ogg_decode (fuel : nat) (b : Buffer) (a : AudioFormat)
    (d : DecoderControl)
  : option (Z * Buffer * AudioFormat * DecoderControl) :=
  match ogg_decode_enter b a d with
  | Returned r b' a' d' _ => Some (r, b', a', d')
  | Decoding c =>
      let c' := steps fuel c in
      if decide (pc c' = Lreturn) then Some (0, cb c', af c', dc c')
      else None
  end.

(** ** The player's side *)

(** Modelled from the spec: the player, whose code is not among the
    sources.  It writes the stop and seek requests and the seek target, and
    as the consumer it moves [begin] and clears [wrap]; everything else in
    the two shared structs is the decoder's. *)
Record Player := mkPlayer {
  p_begin : Z;
  p_wrap : bool;
  p_stop : bool;
  p_seek : bool;
  p_seekWhere : time;
}.

(** The player stores its fields. *)
Definition interfere (p : Player) (c : config) : config :=
  mkConfig (pc c)
    (mkBuffer (chunks (cb c)) (chunkSize (cb c)) (bitRate (cb c))
       (times (cb c)) (p_begin p) (end_ (cb c)) (p_wrap p)
       (totalTime (cb c)))
    (af c)
    (mkDecoderControl (state (dc c)) (p_stop p) (p_seek p) (p_seekWhere p)
       (start (dc c)) (file (dc c)))
    (vf c) (eof c) (chunk c) (chunkpos c) (cur_bitRate c) (trace c).

(** The player that does nothing stores what is there. *)
Definition idle (c : config) : Player :=
  mkPlayer (begin (cb c)) (wrap (cb c)) (stop (dc c)) (seek (dc c))
    (seekWhere (dc c)).

(** Modelled from the spec: what the player may do between two steps of the
    decoder.  It raises the request flags and never lowers them ("Player
    sets stop/seek/seek_target; Decoder loop clears seek once honored");
    and as the consumer it frees slots, so a buffer that is not full does
    not become full. *)
Record permitted (c : config) (p : Player) : Prop := mkPermitted {
  keeps_stop : stop (dc c) = true -> p_stop p = true;
  keeps_seek : seek (dc c) = true -> p_seek p = true;
  frees_only :
    is_full (cb (interfere p c)) = true -> is_full (cb c) = true;
}.

(** Modelled from the spec: the player during the seek handshake.  While
    its seek request is pending it keeps the target and leaves the buffer
    alone ("caller must guarantee no concurrent push/pop is in flight"). *)
Record handshake (c : config) (p : Player) : Prop := mkHandshake {
  hs_permitted : permitted c p;
  hs_target : seek (dc c) = true -> p_seekWhere p = seekWhere (dc c);
  hs_begin : seek (dc c) = true -> p_begin p = begin (cb c);
  hs_wrap : seek (dc c) = true -> p_wrap p = wrap (cb c);
}.

(** Modelled from the spec: a player that raises no request, and that
    takes nothing from an empty buffer ("TryPop fails (empty) when
    begin==end && !wrap"). *)
Record calm (c : config) (p : Player) : Prop := mkCalm {
  calm_permitted : permitted c p;
  calm_stop : p_stop p = stop (dc c);
  calm_seek : p_seek p = seek (dc c);
  calm_begin : is_empty (cb c) = true -> p_begin p = begin (cb c);
  calm_wrap : is_empty (cb c) = true -> p_wrap p = wrap (cb c);
}.

(** [exec R n c c']: [n] steps of the decoder, the player acting within
    [R] before each of them. *)
Inductive exec (R : config -> Player -> Prop) : nat -> config -> config -> Prop :=
| exec_O c : exec R 0 c c
| exec_S n c p c' :
    R c p -> exec R n (step (interfere p c)) c' -> exec R (S n) c c'.

(** Everything the two sides can reach from [c0]. *)
Inductive reachable (c0 : config) : config -> Prop :=
| reach_refl : reachable c0 c0
| reach_step c : reachable c0 c -> reachable c0 (step c)
| reach_player c p :
    reachable c0 c -> permitted c p -> reachable c0 (interfere p c).

(** The decoder's part of [c'] is that of [c]: what only the decoder
    writes, and its locals. *)
Record settled (c c' : config) : Prop := mkSettled {
  st_pc : pc c' = pc c;
  st_trace : trace c' = trace c;
  st_vf : vf c' = vf c;
  st_state : state (dc c') = state (dc c);
  st_end : end_ (cb c') = end_ (cb c);
  st_chunks : chunks (cb c') = chunks (cb c);
  st_chunkSize : chunkSize (cb c') = chunkSize (cb c);
  st_chunkpos : chunkpos c' = chunkpos c;
}.

(** ** The tests before the push *)

(** What the tests on the way to the push have established. *)
Definition push_safe (c : config) : Prop :=
  match pc c with
  | Lstop =>
      is_full (cb c) = true -> stop (dc c) = true \/ seek (dc c) = true
  | Lcont => is_full (cb c) = true -> seek (dc c) = true
  | Lpush => is_full (cb c) = false
  | _ => True
  end.

(** ** The way from the end of the stream to the return *)

(** The push of the scratch chunk of [c0], as the storage shows it. *)
Definition last_chunk_stored (c0 c : config) : Prop :=
  chunks (cb c) =
    memcpy (chunks (cb c0)) (end_ (cb c0) * CHUNK_SIZE) (chunk c0)
      (chunkpos c0) /\
  chunkSize (cb c) =
    <[Z.to_nat (end_ (cb c0)) := chunkpos c0]> (chunkSize (cb c0)).

(** Where the loop can be after the read at [c0] has returned [ret], which
    is not positive, while no request is pending: waiting for a slot with
    the scratch chunk untouched, or past the push of that chunk. *)
Definition flushing (c0 : config) (ret : Z) (c : config) : Prop :=
  stop (dc c) = false /\ seek (dc c) = false /\ eof c = true /\
  match pc c with
  | Lfull | Lwait | Lwrap | Lnostop | Lnoseek | Lsleep | Lstop | Lcont
  | Lpush =>
      chunk c = chunk c0 /\ chunkpos c = chunkpos c0 /\
      end_ (cb c) = end_ (cb c0) /\ chunks (cb c) = chunks (cb c0) /\
      chunkSize (cb c) = chunkSize (cb c0) /\
      exists k, trace c = trace c0 ++ EvRead ret :: replicate k EvSleep
  | Lwhile | Lclear =>
      last_chunk_stored c0 c /\
      exists k,
        trace c =
        trace c0 ++ EvRead ret :: replicate k EvSleep ++
          [EvPush (end_ (cb c0)) (chunkpos c0)]
  | Lstate | Lreturn =>
      last_chunk_stored c0 c /\
      (pc c = Lreturn -> state (dc c) = DECODE_STATE_STOP) /\
      exists k,
        trace c =
        trace c0 ++ EvRead ret :: replicate k EvSleep ++
          [EvPush (end_ (cb c0)) (chunkpos c0); EvClear]
  | _ => False
  end.

(** ** Bounds *)

(** What libvorbisfile promises of [ov_read(vf, buffer, length, ...)]: it
    stores at most [length] bytes, and a positive return value is their
    number. *)
Definition ov_read_fits : Prop :=
  forall v n,
    0 < n ->
    (ov_read v n).1.1 <= n /\
    (0 < (ov_read v n).1.1 ->
     Z.of_nat (length (ov_read v n).1.2) = (ov_read v n).1.1).

(** The index into the scratch chunk at each point of the loop. *)
Definition scratch_ok (c : config) : Prop :=
  0 <= chunkpos c <= CHUNK_SIZE /\
  length (chunk c) = Z.to_nat CHUNK_SIZE /\
  match pc c with
  | Lwhile | Lseek => chunkpos c < CHUNK_SIZE \/ seek (dc c) = true
  | Lrepos | Lack | Lread => chunkpos c < CHUNK_SIZE
  | Lwait | Lwrap | Lnostop | Lnoseek | Lsleep | Lstop | Lcont | Lpush =>
      eof c = true \/ chunkpos c = CHUNK_SIZE
  | _ => True
  end.

(** The buffer as it is allocated: [buffered_chunks] slots of
    [CHUNK_SIZE] bytes, and one size, bit rate and time for each. *)
Record allocated (b : Buffer) : Prop := mkAllocated {
  al_chunks : length (chunks b) = Z.to_nat (buffered_chunks * CHUNK_SIZE);
  al_chunkSize : length (chunkSize b) = Z.to_nat buffered_chunks;
  al_bitRate : length (bitRate b) = Z.to_nat buffered_chunks;
  al_times : length (times b) = Z.to_nat buffered_chunks;
}.

(** A push into a slot of the ring, of no more than a chunk. *)
Definition push_in_ring (e : Event) : Prop :=
  match e with
  | EvPush slot size => 0 <= slot < buffered_chunks /\ 0 <= size <= CHUNK_SIZE
  | _ => True
  end.

(** The ring in shape: both cursors within it, the arrays at their sizes,
    and every push so far within it. *)
Record ring_ok (c : config) : Prop := mkRingOk {
  ro_begin : 0 <= begin (cb c) < buffered_chunks;
  ro_end : 0 <= end_ (cb c) < buffered_chunks;
  ro_allocated : allocated (cb c);
  ro_trace : Forall push_in_ring (trace c);
}.

(** Modelled from the spec: a player within [permitted] whose cursor
    [begin] stays in the ring ("the circular index"). *)
Record orderly (c : config) (p : Player) : Prop := mkOrderly {
  ord_permitted : permitted c p;
  ord_begin :
    0 <= begin (cb c) < buffered_chunks -> 0 <= p_begin p < buffered_chunks;
}.

(** The bytes of slot [j], as the player reads them at
    [cb->chunks + j*CHUNK_SIZE]. *)
Definition slot_bytes (b : Buffer) (j : Z) : list byte :=
  take (Z.to_nat CHUNK_SIZE) (drop (Z.to_nat (j * CHUNK_SIZE)) (chunks b)).

(** The slot of the last push since the last seek, [prev] before the
    events. *)
Fixpoint last_push (prev : option Z) (tr : list Event) : option Z :=
  match tr with
  | [] => prev
  | EvPush slot _ :: tr' => last_push (Some slot) tr'
  | EvSeek _ :: tr' => last_push None tr'
  | _ :: tr' => last_push prev tr'
  end.

(** Every push goes to the slot after that of the push before it, unless
    a seek has come between. *)
Fixpoint in_order (prev : option Z) (tr : list Event) : Prop :=
  match tr with
  | [] => True
  | EvPush slot _ :: tr' =>
      match prev with
      | Some p => slot = (p + 1) mod buffered_chunks
      | None => True
      end /\ in_order (Some slot) tr'
  | EvSeek _ :: tr' => in_order None tr'
  | _ :: tr' => in_order prev tr'
  end.

(** Where [end] is: behind the last push. *)
Definition end_follows (c : config) : Prop :=
  in_order None (trace c) /\
  match pc c with
  | Lunwrap | Lrepos => True
  | _ =>
      match last_push None (trace c) with
      | Some p => end_ (cb c) = (p + 1) mod buffered_chunks
      | None => True
      end
  end.

(** What the loop has established on its way out, with no player
    around. *)
Definition leaving (c : config) : Prop :=
  match pc c with
  | Lstate => seek (dc c) = false
  | Lreturn =>
      seek (dc c) = false /\ stop (dc c) = false /\
      state (dc c) = DECODE_STATE_STOP
  | _ => True
  end.

(** What no step of the loop writes. *)
Record kept (c c' : config) : Prop := mkKept {
  kept_af : af c' = af c;
  kept_begin : begin (cb c') = begin (cb c);
  kept_totalTime : totalTime (cb c') = totalTime (cb c);
  kept_seekWhere : seekWhere (dc c') = seekWhere (dc c);
  kept_start : start (dc c') = start (dc c);
  kept_file : file (dc c') = file (dc c);
}.

End Decoder.

(** ** A small decoder to run the loop on *)

(** A toy stream is the list of results that [ov_read] will return, and a
    position that seeking sets. *)
Record ToyFile := mkToyFile {
  toy_reads : list Z;
  toy_pos : Z;
}.

Definition toy_vorbis : Vorbisfile := {|
  time := Z;
  InputStream := string;
  OggVorbis_File := ToyFile;
  openInputStreamFromFile f :=
    (if decide (f = "missing.ogg") then -1 else 0, f);
  ov_open_callbacks s :=
    (if decide (s = "noise.ogg") then -1 else 0, mkToyFile [4; 4; -3] 0);
  ov_info _ := (2, 44100);
  ov_time_total _ := 10;
  ov_read v n :=
    match toy_reads v with
    | [] => (0, [], v)
    | r :: rs =>
        (Z.min r n, replicate (Z.to_nat (Z.min r n)) x2a,
         mkToyFile rs (toy_pos v + 1))
    end;
  ov_time_seek_page v t := mkToyFile (toy_reads v) t;
  ov_time_tell v := toy_pos v;
  ov_bitrate_instant _ := 128000;
  ov_clear _ := mkToyFile [] 0;
|}.

(** Four chunks of eight bytes. *)
Definition toy_sizes : Sizes := {| CHUNK_SIZE := 8; buffered_chunks := 4 |}.

Section Samples.
#[local] Existing Instance toy_vorbis.
#[local] Existing Instance toy_sizes.

(** The player has taken two chunks, the decoder has stored three. *)
Definition sample_cb : Buffer :=
  mkBuffer (replicate 32 x00) (replicate 4 0) (replicate 4 0)
    (replicate 4 0) 2 3 false 10.

(** The decoder is a whole round ahead of the player: no slot is free. *)
Definition full_cb : Buffer :=
  mkBuffer (replicate 32 x00) (replicate 4 8) (replicate 4 0)
    (replicate 4 0) 2 2 true 10.

Definition sample_dc (stop_ seek_ : bool) : DecoderControl :=
  mkDecoderControl DECODE_STATE_DECODE stop_ seek_ 7 false "song.ogg".

(** At label [l] over the buffer [b], with [n] bytes in the scratch chunk
    and the reads [rs] still to come. *)
Definition sample_at (b : Buffer) (l : label) (stop_ seek_ : bool) (n : Z)
    (rs : list Z) : config :=
  mkConfig l b (mkAudioFormat 16 2 44100) (sample_dc stop_ seek_)
    (mkToyFile rs 0) false (replicate 8 x00) n 0 [].

Definition sample := sample_at sample_cb.

(** The player takes the chunk at slot 2 of the full buffer. *)
Definition takes_one : Player := mkPlayer 3 true false false 7.

(** The decoder control before [ogg_decode] is entered for file [f]. *)
Definition unopened (f : string) : DecoderControl :=
  mkDecoderControl DECODE_STATE_START false false 0 true f.

End Samples.

(** ** Basic facts *)

Section DecoderFacts.
Context {V : Vorbisfile} {K : Sizes}.

Lemma interfere_idle (c : config) : interfere (idle c) c = c.
Proof. by destruct c as [l [] a [] v e ch cp r tr]. Qed.

Lemma permitted_idle (c : config) : permitted c (idle c).
Proof. split; rewrite ?interfere_idle; auto. Qed.

Lemma handshake_idle (c : config) : handshake c (idle c).
Proof. split; [apply permitted_idle | done..]. Qed.

Lemma calm_idle (c : config) : calm c (idle c).
Proof. split; [apply permitted_idle | done..]. Qed.

Lemma exec_S_inv R n (c c' : config) :
  exec R (S n) c c' ->
  exists p, R c p /\ exec R n (step (interfere p c)) c'.
Proof. inversion 1; subst; eauto. Qed.

Lemma exec_idle R n (c : config) :
  (forall c, R c (idle c)) -> exec R n c (steps n c).
Proof.
  intros HR. revert c. induction n as [|n IH]; intros c.
  - constructor.
  - apply exec_S with (p := idle c); [apply HR |].
    rewrite interfere_idle. unfold steps in *. rewrite Nat.iter_succ_r.
    apply IH.
Qed.

(** The player stays idle for [n] steps and then acts. *)
Lemma exec_idle_then R n (c : config) (p : Player) :
  (forall c, R c (idle c)) -> R (steps n c) p ->
  exec R (S n) c (step (interfere p (steps n c))).
Proof.
  intros HR. revert c. induction n as [|n IH]; intros c Hp.
  - apply exec_S with (p := p); [done | constructor].
  - apply exec_S with (p := idle c); [apply HR |].
    rewrite interfere_idle. unfold steps in *.
    rewrite Nat.iter_succ_r in *. by apply IH.
Qed.

Lemma steps_O (c : config) : steps 0 c = c.
Proof. done. Qed.

Lemma steps_S n (c : config) : steps (S n) c = step (steps n c).
Proof. done. Qed.

Lemma reachable_steps n (c0 : config) : reachable c0 (steps n c0).
Proof.
  induction n as [|n IH]; [constructor |].
  unfold steps in *. simpl. by constructor.
Qed.

(** Once [ogg_decode] has returned, the decoder's part of the
    configuration stays; the player may go on writing its fields. *)
Lemma exec_returned R n (c c' : config) :
  pc c = Lreturn -> exec R n c c' -> settled c c'.
Proof.
  intros Hpc Hexec. induction Hexec as [c|n c p c' _ _ IH]; [done |].
  assert (step (interfere p c) = interfere p c) as Hstep.
  { unfold step. simpl. by rewrite Hpc. }
  rewrite Hstep in IH. destruct IH as [? ? ? ? ? ? ? ?]; [done |].
  by split.
Qed.

(** The cursors after a push, when [end] was a valid slot. *)
Lemma store_chunk_end data size t rate (b : Buffer) :
  0 <= end_ b < buffered_chunks ->
  end_ (store_chunk data size t rate b) = (end_ b + 1) mod buffered_chunks.
Proof.
  intros Hend. unfold store_chunk; simpl.
  destruct (Z.geb_spec (end_ b + 1) buffered_chunks) as [Hge|Hlt].
  - assert (end_ b + 1 = buffered_chunks) as -> by lia.
    by rewrite Z_mod_same_full.
  - rewrite Z.mod_small; lia.
Qed.

(** C1 (as amended): a push moves [end] on by one modulo
    [buffered_chunks] and leaves [begin] alone; it stores 1 in [wrap]
    exactly when the incremented [end] has reached [buffered_chunks] and
    starts again at slot 0, whatever [begin] is, and leaves [wrap] as it was
    otherwise. *)
Theorem push_moves_end (c : config) :
  pc c = Lpush ->
  0 <= end_ (cb c) < buffered_chunks ->
  end_ (cb (step c)) = (end_ (cb c) + 1) mod buffered_chunks /\
  begin (cb (step c)) = begin (cb c) /\
  wrap (cb (step c)) = (end_ (cb (step c)) =? 0) || wrap (cb c) /\
  trace (step c) = trace c ++ [EvPush (end_ (cb c)) (chunkpos c)].
Proof.
  intros Hpc Hend. unfold step. rewrite Hpc. cbn [cb trace].
  split; [by apply store_chunk_end |]. split; [done |]. split; [| done].
  unfold store_chunk; cbn [wrap end_].
  destruct (Z.geb_spec (end_ (cb c) + 1) buffered_chunks) as [Hge|Hlt]; [done |].
  destruct (Z.eqb_spec (end_ (cb c) + 1) 0); [lia | done].
Qed.

(** ** Walking through an execution *)

Ltac use_refl :=
  repeat match goal with
  | H : ?a = ?a -> _ |- _ => specialize (H eq_refl)
  | H : _ /\ _ |- _ => destruct H
  end.

Ltac unfold_step :=
  unfold is_full, is_empty, interfere, step, goto, emit in *; simpl in *;
  rewrite ?Z.eqb_refl in *; simpl in *; use_refl; simplify_eq/=.

(** The player acts within [permitted], then the decoder takes a step. *)
Ltac player H :=
  let p := fresh "p" in
  let Hp := fresh "Hp" in
  apply exec_S_inv in H as (p & Hp & H);
  destruct p as [? ? ? ? ?]; destruct Hp as [? ? ?]; unfold_step.

(** The same for a player within [handshake]. *)
Ltac handshake_player H :=
  let p := fresh "p" in
  let Hp := fresh "Hp" in
  apply exec_S_inv in H as (p & Hp & H);
  destruct p as [? ? ? ? ?]; destruct Hp as [[? ? ?] ? ? ?]; unfold_step.

(** The same for a player within [calm]. *)
Ltac calm_player H :=
  let p := fresh "p" in
  let Hp := fresh "Hp" in
  apply exec_S_inv in H as (p & Hp & H);
  destruct p as [? ? ? ? ?]; destruct Hp as [[? ? ?] ? ? ? ?]; unfold_step.

(** The function has returned; what is left of the execution changes
    nothing of the decoder's. *)
Ltac returned H :=
  apply exec_returned in H; [| reflexivity];
  destruct H as [? ? ? ? ? ? ? ?]; simpl in *.

(** The decoder never writes [begin]. *)
Lemma step_begin (c : config) : begin (cb (step c)) = begin (cb c).
Proof.
  unfold step. destruct (pc c); simpl; try done;
    repeat case_match; done.
Qed.

(** No step stores [DECODE_STATE_ERROR]. *)
Lemma step_state (c : config) :
  state (dc (step c)) = state (dc c) \/
  state (dc (step c)) = DECODE_STATE_STOP.
Proof.
  unfold step. destruct (pc c); simpl; auto; repeat case_match; auto.
Qed.

(** Only the push writes the chunk storage. *)
Lemma step_storage (c : config) :
  pc c <> Lpush ->
  chunks (cb (step c)) = chunks (cb c) /\
  chunkSize (cb (step c)) = chunkSize (cb c) /\
  times (cb (step c)) = times (cb c) /\
  bitRate (cb (step c)) = bitRate (cb c).
Proof.
  intros Hpc. unfold step. destruct (pc c); simpl; try done;
    repeat case_match; done.
Qed.

(** C2 (as amended): when the test at the head of the loop finds the seek
    flag set, the loop empties the buffer by moving [end] to [begin] and
    clearing [wrap] (it never writes [begin], which is not set to 0), drops
    the partial chunk ([chunkpos = 0]), repositions the codec at
    [seekWhere], and clears the seek flag last: after the fourth step the
    codec is repositioned and the flag is still set. *)
Theorem seek_observed (c : config) :
  pc c = Lseek -> seek (dc c) = true ->
  (forall c', exec handshake 5 c c' ->
     pc c' = Lread /\ chunkpos c' = 0 /\
     begin (cb c') = begin (cb c) /\
     end_ (cb c') = begin (cb c) /\ wrap (cb c') = false /\
     vf c' = ov_time_seek_page (vf c) (seekWhere (dc c)) /\
     trace c' = trace c ++ [EvSeek (seekWhere (dc c))] /\
     seek (dc c') = false) /\
  (forall c4, exec handshake 4 c c4 ->
     pc c4 = Lack /\ seek (dc c4) = true /\
     vf c4 = ov_time_seek_page (vf c) (seekWhere (dc c))) /\
  (forall c0 : config, begin (cb (step c0)) = begin (cb c0)).
Proof.
  intros Hpc Hseek.
  destruct c as [l [] a [] v e ch cp r tr]; simpl in *; subst.
  split; [| split; [| apply step_begin]].
  - intros c' H. do 5 handshake_player H. by inversion H.
  - intros c4 H. do 4 handshake_player H. by inversion H.
Qed.


(** ** The push waits for a free slot *)
Lemma push_safe_step (c : config) : push_safe c -> push_safe (step c).
Proof.
  unfold push_safe, step, is_full.
  destruct c as [l b a d v e ch cp r tr]; simpl.
  destruct l; simpl; try done.
  - by destruct e.
  - by destruct (seek d).
  - by destruct (ov_read v (CHUNK_SIZE - cp)) as [[ret data] v'],
      (ret <=? 0).
  - by destruct ((cp >=? CHUNK_SIZE) || e).
  - destruct (begin b =? end_ b) eqn:Heq; simpl; rewrite ?Heq; done.
  - destruct (wrap b) eqn:Hw; simpl; rewrite ?Hw, ?andb_false_r; done.
  - destruct (stop d) eqn:Hstop; simpl; rewrite ?Hstop; auto.
  - destruct (seek d) eqn:Hseek; simpl; rewrite ?Hseek; auto.
  - destruct (stop d) eqn:Hstop; simpl; [done |].
    intros H Hfull. destruct (H Hfull); congruence.
  - destruct (seek d) eqn:Hseek; simpl; [done |].
    intros H. destruct ((begin b =? end_ b) && wrap b); [by discriminate H | done].
Qed.

Lemma push_safe_player (c : config) (p : Player) :
  push_safe c -> permitted c p -> push_safe (interfere p c).
Proof.
  intros Hsafe [Hstop Hseek Hfull]. unfold push_safe in *.
  destruct c as [l b a d v e ch cp r tr]; simpl in *.
  destruct l; simpl in *; try done.
  - intros H. destruct (Hsafe (Hfull H)); auto.
  - intros H. auto.
  - destruct (is_full (mkBuffer _ _ _ _ _ _ _ _)); [| done].
    rewrite Hfull in Hsafe; done.
Qed.

Lemma reachable_push_safe (c0 c : config) :
  push_safe c0 -> reachable c0 c -> push_safe c.
Proof.
  intros H0. induction 1 as [|c _ IH|c p _ IH Hp].
  - done.
  - by apply push_safe_step.
  - by apply push_safe_player.
Qed.

(** C4: the loop never stores a chunk while the buffer is full.  In every
    state that the decoder and the player can reach from the head of the
    loop, the push finds the buffer not full, and no other step writes the
    chunk storage; while the buffer is full and neither flag is set, the
    loop goes through its four tests to the sleep and comes back to the
    first test with the buffer as it was. *)
Theorem never_writes_while_full :
  (forall c0 c : config,
     pc c0 = Lwhile -> reachable c0 c -> pc c = Lpush ->
     is_full (cb c) = false) /\
  (forall c : config,
     pc c <> Lpush ->
     chunks (cb (step c)) = chunks (cb c) /\
     chunkSize (cb (step c)) = chunkSize (cb c) /\
     times (cb (step c)) = times (cb c) /\
     bitRate (cb (step c)) = bitRate (cb c)) /\
  (forall c : config,
     pc c = Lwait -> is_full (cb c) = true ->
     stop (dc c) = false -> seek (dc c) = false ->
     steps 4 c = goto Lsleep c /\
     steps 5 c = goto Lwait (emit EvSleep c)).
Proof.
  split; [| split].
  - intros c0 c Hpc0 Hreach Hpc.
    assert (push_safe c) as Hsafe.
    { apply (reachable_push_safe c0); [| done].
      unfold push_safe. by rewrite Hpc0. }
    unfold push_safe in Hsafe. by rewrite Hpc in Hsafe.
  - apply step_storage.
  - intros c Hpc Hfull Hstop Hseek.
    unfold is_full in Hfull. apply andb_true_iff in Hfull as [Heq Hwrap].
    assert (step c = goto Lwrap c) as H1.
    { unfold step. by rewrite Hpc, Heq. }
    assert (step (goto Lwrap c) = goto Lnostop c) as H2.
    { unfold step. simpl. by rewrite Hwrap. }
    assert (step (goto Lnostop c) = goto Lnoseek c) as H3.
    { unfold step. simpl. by rewrite Hstop. }
    assert (step (goto Lnoseek c) = goto Lsleep c) as H4.
    { unfold step. simpl. by rewrite Hseek. }
    assert (steps 4 c = goto Lsleep c) as Hsleep.
    { by rewrite !steps_S, steps_O, H1, H2, H3, H4. }
    split; [done |]. by rewrite steps_S, Hsleep.
Qed.

(** ** The end of the stream *)

(** With a free slot at hand the loop does not sleep: ten steps take it
    from the read to the return, whatever the calm player does. *)
Lemma last_chunk_pushed (c c' : config) :
  pc c = Lread ->
  (ov_read (vf c) (CHUNK_SIZE - chunkpos c)).1.1 <= 0 ->
  stop (dc c) = false -> seek (dc c) = false ->
  is_full (cb c) = false ->
  exec calm 10 c c' ->
  pc c' = Lreturn /\ state (dc c') = DECODE_STATE_STOP /\
  trace c' =
    trace c ++ [EvRead (ov_read (vf c) (CHUNK_SIZE - chunkpos c)).1.1;
                EvPush (end_ (cb c)) (chunkpos c); EvClear] /\
  chunkSize (cb c') =
    <[Z.to_nat (end_ (cb c)) := chunkpos c]> (chunkSize (cb c)) /\
  chunks (cb c') =
    memcpy (chunks (cb c)) (end_ (cb c) * CHUNK_SIZE) (chunk c) (chunkpos c).
Proof.
  intros Hpc Hret Hstop Hseek Hfull H.
  destruct c as [l [] a [] v e ch cp r tr]; simpl in *; subst.
  destruct (ov_read v (CHUNK_SIZE - cp)) as [[ret data] v'] eqn:Hread.
  simpl in Hret. apply Z.leb_le in Hret.
  calm_player H. rewrite Hread, Hret in H.
  calm_player H. rewrite orb_true_r in H.
  calm_player H.
  match type of H with context [if ?b then _ else _] =>
    destruct b eqn:Heq
  end.
  - (* begin==end was read: the buffer is empty, and stays so *)
    apply Z.eqb_eq in Heq. subst. rewrite ?Z.eqb_refl in *. simpl in *.
    match type of H with context [mkBuffer _ _ _ _ _ _ ?w _] =>
      assert (w = false) as -> by (destruct w; intuition congruence)
    end.
    do 7 calm_player H. returned H.
    rewrite <- !app_assoc in *. done.
  - do 7 calm_player H. returned H.
    rewrite <- !app_assoc in *. done.
Qed.

(** A calm player and a step of the decoder keep the loop on that way. *)
Lemma flushing_step (c0 : config) (ret : Z) (c : config) (p : Player) :
  flushing c0 ret c -> calm c p -> flushing c0 ret (step (interfere p c)).
Proof.
  intros (Hstop & Hseek & Heof & Hc) [_ Hs Hk _ _].
  destruct c as [l [] a [] v e ch cp r tr], p as [pb pw ps pk pt].
  unfold flushing, last_chunk_stored, step, interfere in *. simpl in *. subst.
  destruct l; simpl in *; try done; rewrite ?orb_true_r;
    try (by repeat case_match).
  - (* the sleep *)
    destruct Hc as (? & ? & ? & ? & ? & k & ->).
    do 8 (split; [done |]). exists (S k).
    rewrite <- app_assoc. simpl. do 2 f_equal.
    symmetry. apply replicate_cons_app.
  - (* the push *)
    destruct Hc as (-> & -> & -> & -> & -> & k & ->).
    do 4 (split; [done |]). exists k.
    by rewrite <- !app_assoc.
  - (* ov_clear *)
    destruct Hc as (? & k & ->).
    do 5 (split; [done |]). exists k.
    rewrite <- !app_assoc. simpl. by rewrite <- !app_assoc.
  - (* the state *)
    destruct Hc as (? & _ & k & ->). by eauto 10.
Qed.

Lemma flushing_exec (c0 : config) (ret : Z) n (c c' : config) :
  flushing c0 ret c -> exec calm n c c' -> flushing c0 ret c'.
Proof.
  intros Hc Hexec. induction Hexec as [c|n c p c' Hp _ IH]; [done |].
  apply IH. by apply flushing_step.
Qed.

(** After the read that ends the stream, with no request pending, the
    loop is on that way for as long as the player is calm. *)
Lemma failed_read_flushing n (c c' : config) :
  pc c = Lread ->
  (ov_read (vf c) (CHUNK_SIZE - chunkpos c)).1.1 <= 0 ->
  stop (dc c) = false -> seek (dc c) = false ->
  exec calm (S n) c c' ->
  flushing c (ov_read (vf c) (CHUNK_SIZE - chunkpos c)).1.1 c'.
Proof.
  intros Hpc Hret Hstop Hseek Hexec.
  apply exec_S_inv in Hexec as (p & Hp & Hexec).
  assert (flushing c (ov_read (vf c) (CHUNK_SIZE - chunkpos c)).1.1
            (step (interfere p c))) as Hfl.
  { destruct Hp as [_ Hs Hk _ _].
    destruct c as [l [] a [] v e ch cp r tr], p as [pb pw ps pk pt].
    unfold flushing, step, interfere. simpl in *. subst.
    destruct (ov_read v (CHUNK_SIZE - cp)) as [[ret data] v'] eqn:Hread.
    simpl in *. apply Z.leb_le in Hret. rewrite Hret. simpl.
    do 8 (split; [done |]). by exists 0%nat. }
  by apply (flushing_exec _ _ _ _ _ Hfl Hexec).
Qed.

(** Whenever the function returns after the stream has ended with no
    request pending, the scratch chunk has been pushed, after some number
    of sleeps, and the state is STOP. *)
Lemma last_chunk_pushed_on_return n (c c' : config) :
  pc c = Lread ->
  (ov_read (vf c) (CHUNK_SIZE - chunkpos c)).1.1 <= 0 ->
  stop (dc c) = false -> seek (dc c) = false ->
  exec calm n c c' -> pc c' = Lreturn ->
  state (dc c') = DECODE_STATE_STOP /\
  last_chunk_stored c c' /\
  exists k,
    trace c' =
    trace c ++ EvRead (ov_read (vf c) (CHUNK_SIZE - chunkpos c)).1.1 ::
      replicate k EvSleep ++ [EvPush (end_ (cb c)) (chunkpos c); EvClear].
Proof.
  intros Hpc Hret Hstop Hseek Hexec Hpc'.
  destruct Hexec as [c|n c p c' Hp Hexec]; [congruence |].
  assert (flushing c (ov_read (vf c) (CHUNK_SIZE - chunkpos c)).1.1
            (step (interfere p c))) as Hfl.
  { destruct Hp as [_ Hs Hk _ _].
    destruct c as [l [] a [] v e ch cp r tr], p as [pb pw ps pk pt].
    unfold flushing, step, interfere. simpl in *. subst.
    destruct (ov_read v (CHUNK_SIZE - cp)) as [[ret data] v'] eqn:Hread.
    simpl in *. apply Z.leb_le in Hret. rewrite Hret. simpl.
    do 8 (split; [done |]). by exists 0%nat. }
  pose proof (flushing_exec _ _ _ _ _ Hfl Hexec) as (_ & _ & _ & Hc').
  rewrite Hpc' in Hc'. destruct Hc' as (Hstored & Hstate & Htrace).
  auto.
Qed.



(** ** Failures of the codec *)

(** With a slot free when the wait for it begins, the loop does not
    sleep: at most eight steps take it from there to the return, whatever
    the calm player does, and the scratch chunk is pushed on the way. *)
Lemma free_slot_pushed (c c' : config) :
  pc c = Lwait -> eof c = true ->
  stop (dc c) = false -> seek (dc c) = false ->
  is_full (cb c) = false ->
  exec calm 8 c c' ->
  pc c' = Lreturn /\ state (dc c') = DECODE_STATE_STOP /\
  trace c' = trace c ++ [EvPush (end_ (cb c)) (chunkpos c); EvClear] /\
  last_chunk_stored c c'.
Proof.
  intros Hpc Heof Hstop Hseek Hfull H.
  destruct c as [l [] a [] v e ch cp r tr]; simpl in *; subst.
  unfold last_chunk_stored.
  calm_player H.
  match type of H with context [if ?b then _ else _] =>
    destruct b eqn:Heq
  end.
  - (* begin==end was read: the buffer is empty, and stays so *)
    apply Z.eqb_eq in Heq. subst. rewrite ?Z.eqb_refl in *. simpl in *.
    match type of H with context [mkBuffer _ _ _ _ _ _ ?w _] =>
      assert (w = false) as -> by (destruct w; intuition congruence)
    end.
    do 7 calm_player H. returned H.
    rewrite <- !app_assoc in *. done.
  - do 7 calm_player H. returned H.
    rewrite <- !app_assoc in *. done.
Qed.

(** C6 (as amended): [ogg_decode] never stores ERROR in the decoder state.
    When the source cannot be opened or is not an Ogg bit stream, it logs,
    returns -1 and leaves the buffer and the decoder control as they were,
    so no chunk is pushed.  A failing [ov_read] (negative return) is taken
    for the end of the stream: with no request pending the scratch chunk is
    still pushed, and the state becomes STOP.  Every execution that returns
    has done so; with a free slot at the failing read the function returns
    within ten steps; and when the buffer is full at first, the function
    returns within eight steps of the first test of the wait that finds a
    slot free. *)
Theorem codec_failure :
  (forall b a d,
     (openInputStreamFromFile (file d)).1 < 0 ->
     ogg_decode_enter b a d =
       Returned (-1) b a d ("failed to open ogg" +:+ LF)) /\
  (forall b a d,
     0 <= (openInputStreamFromFile (file d)).1 ->
     (ov_open_callbacks (openInputStreamFromFile (file d)).2).1 < 0 ->
     ogg_decode_enter b a d =
       Returned (-1) b a d
         ("Input does not appear to be an Ogg bit stream." +:+ LF)) /\
  (forall c : config,
     state (dc (step c)) = DECODE_STATE_ERROR ->
     state (dc c) = DECODE_STATE_ERROR) /\
  (forall n (c c' : config),
     pc c = Lread ->
     (ov_read (vf c) (CHUNK_SIZE - chunkpos c)).1.1 < 0 ->
     stop (dc c) = false -> seek (dc c) = false ->
     exec calm n c c' -> pc c' = Lreturn ->
     state (dc c') = DECODE_STATE_STOP /\
     last_chunk_stored c c' /\
     exists k,
       trace c' =
       trace c ++ EvRead (ov_read (vf c) (CHUNK_SIZE - chunkpos c)).1.1 ::
         replicate k EvSleep ++ [EvPush (end_ (cb c)) (chunkpos c); EvClear]) /\
  (forall c c' : config,
     pc c = Lread ->
     (ov_read (vf c) (CHUNK_SIZE - chunkpos c)).1.1 < 0 ->
     stop (dc c) = false -> seek (dc c) = false ->
     is_full (cb c) = false ->
     exec calm 10 c c' ->
     pc c' = Lreturn /\ state (dc c') = DECODE_STATE_STOP /\
     last_chunk_stored c c' /\
     trace c' =
       trace c ++ [EvRead (ov_read (vf c) (CHUNK_SIZE - chunkpos c)).1.1;
                   EvPush (end_ (cb c)) (chunkpos c); EvClear]) /\
  (forall n (c c1 c' : config),
     pc c = Lread ->
     (ov_read (vf c) (CHUNK_SIZE - chunkpos c)).1.1 < 0 ->
     stop (dc c) = false -> seek (dc c) = false ->
     exec calm n c c1 -> pc c1 = Lwait -> is_full (cb c1) = false ->
     exec calm 8 c1 c' ->
     pc c' = Lreturn /\ state (dc c') = DECODE_STATE_STOP /\
     last_chunk_stored c c' /\
     trace c' = trace c1 ++ [EvPush (end_ (cb c)) (chunkpos c); EvClear]).
Proof.
  split; [| split; [| split; [| split; [| split]]]].
  - intros b a d Hopen. unfold ogg_decode_enter.
    destruct (openInputStreamFromFile (file d)) as [r s]; simpl in *.
    by destruct (Z.ltb_spec r 0); [| lia].
  - intros b a d Hopen Hogg. unfold ogg_decode_enter.
    destruct (openInputStreamFromFile (file d)) as [r s]; simpl in *.
    destruct (Z.ltb_spec r 0); [lia |].
    destruct (ov_open_callbacks s) as [r' v]; simpl in *.
    by destruct (Z.ltb_spec r' 0); [| lia].
  - intros c Herr. destruct (step_state c) as [Hs|Hs]; congruence.
  - intros n c c' Hpc Hret Hstop Hseek H Hpc'.
    apply (last_chunk_pushed_on_return n); [done | lia | done..].
  - intros c c' Hpc Hret Hstop Hseek Hfull H.
    destruct (last_chunk_pushed c c') as (? & ? & ? & ? & ?);
      [done | lia | done..|].
    by repeat split.
  - intros n c c1 c' Hpc Hret Hstop Hseek H Hpc1 Hfull H'.
    destruct n as [|n]; [inversion H; subst; congruence |].
    destruct (failed_read_flushing n c c1) as (Hs1 & Hk1 & He1 & Hc1);
      [done | lia | done..|].
    rewrite Hpc1 in Hc1.
    destruct Hc1 as (Hch & Hcp & Hend & Hchunks & Hsizes & _).
    destruct (free_slot_pushed c1 c') as (? & ? & Htr & Hst1 & Hst2);
      [done..|].
    rewrite Hend, Hcp in Htr.
    repeat split; try done.
    + by rewrite Hst1, Hend, Hch, Hcp, Hchunks.
    + by rewrite Hst2, Hend, Hcp, Hsizes.
Qed.

(** ** Bounds of the scratch chunk *)

Lemma memcpy_length (dst src : list byte) off n :
  0 <= off -> 0 <= n -> (Z.to_nat n <= length src)%nat ->
  (Z.to_nat (off + n) <= length dst)%nat ->
  length (memcpy dst off src n) = length dst.
Proof.
  intros. unfold memcpy. rewrite !length_app, !length_take, length_drop. lia.
Qed.

Lemma orderly_idle (c : config) : orderly c (idle c).
Proof. split; [apply permitted_idle | done]. Qed.

Lemma scratch_ok_step (c : config) :
  ov_read_fits -> 0 < CHUNK_SIZE -> scratch_ok c -> scratch_ok (step c).
Proof.
  intros Hfits Hpos (Hcp & Hlen & Hpc).
  destruct c as [l b a d v e ch cp r tr]. unfold scratch_ok, step in *.
  simpl in *.
  destruct l; simpl in *;
    try (by repeat case_match; simpl; intuition (try lia; try congruence)).
  - (* the read *)
    assert (0 < CHUNK_SIZE - cp) as Hn by lia.
    specialize (Hfits v (CHUNK_SIZE - cp) Hn).
    destruct (ov_read v (CHUNK_SIZE - cp)) as [[ret data] v']. simpl in *.
    destruct Hfits as [Hret Hdata].
    destruct (Z.leb_spec ret 0); simpl; [auto |].
    split; [lia |]. split; [| done].
    rewrite memcpy_length; lia.
  - (* the test of the chunk *)
    destruct (Z.geb_spec cp CHUNK_SIZE); simpl.
    + split; [done |]. split; [done |]. right. lia.
    + destruct e; simpl; intuition lia.
Qed.

Lemma scratch_ok_player (c : config) (p : Player) :
  scratch_ok c -> permitted c p -> scratch_ok (interfere p c).
Proof.
  intros (Hcp & Hlen & Hpc) [_ Hseek _].
  destruct c as [l b a d v e ch cp r tr]. unfold scratch_ok in *. simpl in *.
  do 2 (split; [done |]). destruct l; simpl in *; intuition.
Qed.

Lemma reachable_scratch_ok (c0 c : config) :
  ov_read_fits -> 0 < CHUNK_SIZE ->
  scratch_ok c0 -> reachable c0 c -> scratch_ok c.
Proof.
  intros Hfits Hpos H0. induction 1 as [|c _ IH|c p _ IH Hp].
  - done.
  - by apply scratch_ok_step.
  - by apply scratch_ok_player.
Qed.

(** The scratch chunk is in order when the loop is entered. *)
Lemma enter_scratch_ok b a d (c0 : config) :
  0 < CHUNK_SIZE ->
  ogg_decode_enter b a d = Decoding c0 -> scratch_ok c0.
Proof.
  intros Hpos. unfold ogg_decode_enter.
  destruct (openInputStreamFromFile (file d)) as [r s].
  destruct (r <? 0); [done |].
  destruct (ov_open_callbacks s) as [r' v].
  destruct (r' <? 0); [done |].
  destruct (ov_info v) as [ch rate]. intros [= <-].
  unfold scratch_ok. simpl. rewrite length_replicate.
  repeat split; try lia.
Qed.

(** X1: from the entry of [ogg_decode], whatever the permitted player does,
    the index [chunkpos] stays between 0 and [CHUNK_SIZE], the scratch chunk
    keeps its size, and [ov_read] is asked for at least one byte and for no
    more than are left in the scratch chunk: the scratch chunk is never
    overrun.  [ov_read] is taken to store no more than the length it is
    given. *)
Theorem scratch_chunk_in_bounds b a d (c0 c : config) :
  ov_read_fits -> 0 < CHUNK_SIZE ->
  ogg_decode_enter b a d = Decoding c0 -> reachable c0 c ->
  0 <= chunkpos c <= CHUNK_SIZE /\
  length (chunk c) = Z.to_nat CHUNK_SIZE /\
  (pc c = Lread -> 0 < CHUNK_SIZE - chunkpos c <= CHUNK_SIZE).
Proof.
  intros Hfits Hpos Henter Hreach.
  destruct (reachable_scratch_ok c0 c) as (Hcp & Hlen & Hpc);
    [done | done | by apply (enter_scratch_ok b a d) | done |].
  do 2 (split; [done |]). intros Hread. rewrite Hread in Hpc. lia.
Qed.

(** X2: every chunk pushed before the end of the stream is full: at the
    push, unless [eof] is set, [chunkpos] is [CHUNK_SIZE]. *)
Theorem chunks_before_the_end_are_full b a d (c0 c : config) :
  ov_read_fits -> 0 < CHUNK_SIZE ->
  ogg_decode_enter b a d = Decoding c0 -> reachable c0 c ->
  pc c = Lpush -> eof c = false ->
  chunkpos c = CHUNK_SIZE /\
  trace (step c) = trace c ++ [EvPush (end_ (cb c)) CHUNK_SIZE].
Proof.
  intros Hfits Hpos Henter Hreach Hpush Heof.
  destruct (reachable_scratch_ok c0 c) as (Hcp & Hlen & Hpc);
    [done | done | by apply (enter_scratch_ok b a d) | done |].
  rewrite Hpush in Hpc. destruct Hpc as [? | Hfull]; [congruence |].
  split; [done |]. unfold step. rewrite Hpush. simpl. by rewrite Hfull.
Qed.

(** ** The ring *)

Lemma slot_offset (e size : Z) :
  0 <= e < buffered_chunks -> 0 <= size <= CHUNK_SIZE ->
  (Z.to_nat (e * CHUNK_SIZE + size) <= Z.to_nat (buffered_chunks * CHUNK_SIZE))%nat.
Proof. intros He Hsize. apply Z2Nat.inj_le; nia. Qed.

Lemma store_chunk_allocated data size t rate (b : Buffer) :
  0 <= end_ b < buffered_chunks -> 0 <= size <= CHUNK_SIZE ->
  (Z.to_nat size <= length data)%nat ->
  allocated b -> allocated (store_chunk data size t rate b).
Proof.
  intros Hend Hsize Hdata [Hc Hs Hb Ht].
  split; unfold store_chunk; simpl; rewrite ?length_insert; try done.
  rewrite memcpy_length; [done | nia | lia | done |].
  rewrite Hc. by apply slot_offset.
Qed.

(** The loop keeps the ring in shape, as long as the scratch chunk is. *)
Lemma ring_ok_step (c : config) :
  scratch_ok c -> ring_ok c -> ring_ok (step c).
Proof.
  intros (Hcp & Hlen & _) [Hb He Ha Ht].
  destruct c as [l b a d v e ch cp r tr]. unfold step. simpl in *.
  destruct l; simpl; try (by repeat case_match; split);
    try (by repeat case_match; split; simpl; try done;
         apply Forall_app; split; [done | by repeat constructor]).
  - (* cb->end = cb->begin *)
    split; simpl; try done. by destruct Ha.
  - (* cb->wrap = 0 *)
    split; simpl; try done. by destruct Ha.
  - (* the read *)
    destruct (ov_read v (CHUNK_SIZE - cp)) as [[ret data] v'].
    destruct (ret <=? 0); split; simpl; try done;
      (apply Forall_app; split; [done | by repeat constructor]).
  - (* the push *)
    split; simpl.
    + done.
    + destruct (Z.geb_spec (end_ b + 1) buffered_chunks); lia.
    + apply store_chunk_allocated; [done | done | lia | done].
    + apply Forall_app. split; [done |]. apply Forall_singleton. simpl. lia.
Qed.

Lemma ring_ok_player (c : config) (p : Player) :
  ring_ok c -> orderly c p -> ring_ok (interfere p c).
Proof.
  intros [Hb He [Hc Hs Hr Ht] Htr] [_ Hp]. split; simpl; auto. by split.
Qed.

(** X3: with a player that keeps [begin] within the ring, [end] stays
    within the ring, the arrays of the buffer keep their sizes, and every
    push goes to a slot below [buffered_chunks] with a size of at most
    [CHUNK_SIZE]. *)
Theorem pushes_stay_in_the_ring b a d (c0 : config) n (c : config) :
  ov_read_fits -> 0 < CHUNK_SIZE ->
  allocated b ->
  0 <= begin b < buffered_chunks -> 0 <= end_ b < buffered_chunks ->
  ogg_decode_enter b a d = Decoding c0 ->
  exec orderly n c0 c ->
  0 <= end_ (cb c) < buffered_chunks /\
  allocated (cb c) /\
  Forall push_in_ring (trace c).
Proof.
  intros Hfits Hpos Ha Hb He Henter Hexec.
  assert (scratch_ok c0 /\ ring_ok c0) as H0.
  { split; [by apply (enter_scratch_ok b a d) |].
    revert Henter. unfold ogg_decode_enter.
    destruct (openInputStreamFromFile (file d)) as [r s].
    destruct (r <? 0); [done |].
    destruct (ov_open_callbacks s) as [r' v].
    destruct (r' <? 0); [done |].
    destruct (ov_info v) as [ch rate]. intros [= <-].
    destruct Ha. by split. }
  assert (scratch_ok c /\ ring_ok c) as [_ [? ? ? ?]]; [| done].
  clear Henter. induction Hexec as [c|n c p c' Hp _ IH]; [done |].
  destruct H0 as [Hs Hr]. apply IH. split.
  - apply scratch_ok_step; [done | done |].
    apply scratch_ok_player; [done | by destruct Hp].
  - apply ring_ok_step.
    + apply scratch_ok_player; [done | by destruct Hp].
    + by apply ring_ok_player.
Qed.

(** ** What a push stores *)

Lemma memcpy_lookup (dst src : list byte) off n (i : nat) :
  0 <= off -> 0 <= n -> (Z.to_nat n <= length src)%nat ->
  (Z.to_nat (off + n) <= length dst)%nat ->
  memcpy dst off src n !! i =
    if decide (Z.to_nat off <= i < Z.to_nat off + Z.to_nat n)%nat
    then src !! (i - Z.to_nat off)%nat else dst !! i.
Proof.
  intros Hoff Hn Hsrc Hdst. unfold memcpy.
  assert (length (take (Z.to_nat off) dst) = Z.to_nat off) as Hl1.
  { rewrite length_take. lia. }
  assert (length (take (Z.to_nat n) src) = Z.to_nat n) as Hl2.
  { rewrite length_take. lia. }
  destruct (decide (i < Z.to_nat off)%nat) as [Hlt|Hge].
  - rewrite lookup_app_l by lia. rewrite lookup_take_lt by done.
    by rewrite decide_False by lia.
  - rewrite lookup_app_r by lia. rewrite Hl1.
    destruct (decide (i < Z.to_nat off + Z.to_nat n)%nat) as [Hin|Hout].
    + rewrite lookup_app_l by lia. rewrite lookup_take_lt by lia.
      by rewrite decide_True by lia.
    + rewrite lookup_app_r by lia. rewrite Hl2, lookup_drop.
      rewrite decide_False by lia. f_equal. lia.
Qed.

(** X4: a push fills the slot at [end] and no other.  Read back from the
    slot, the first [chunkpos] bytes are those of the scratch chunk; the
    size, the time and the bit rate of the slot are those of the push; every
    other slot keeps its bytes, its size, its time and its bit rate. *)
Theorem push_fills_one_slot (c : config) :
  pc c = Lpush -> 0 < CHUNK_SIZE ->
  0 <= end_ (cb c) < buffered_chunks -> allocated (cb c) ->
  0 <= chunkpos c <= CHUNK_SIZE -> length (chunk c) = Z.to_nat CHUNK_SIZE ->
  take (Z.to_nat (chunkpos c)) (slot_bytes (cb (step c)) (end_ (cb c))) =
    take (Z.to_nat (chunkpos c)) (chunk c) /\
  chunkSize (cb (step c)) !! Z.to_nat (end_ (cb c)) = Some (chunkpos c) /\
  times (cb (step c)) !! Z.to_nat (end_ (cb c)) = Some (ov_time_tell (vf c)) /\
  bitRate (cb (step c)) !! Z.to_nat (end_ (cb c)) =
    Some (next_bitRate (vf c) (cur_bitRate c)) /\
  (forall j, 0 <= j < buffered_chunks -> j <> end_ (cb c) ->
     slot_bytes (cb (step c)) j = slot_bytes (cb c) j /\
     chunkSize (cb (step c)) !! Z.to_nat j = chunkSize (cb c) !! Z.to_nat j /\
     times (cb (step c)) !! Z.to_nat j = times (cb c) !! Z.to_nat j /\
     bitRate (cb (step c)) !! Z.to_nat j = bitRate (cb c) !! Z.to_nat j).
Proof.
  intros Hpc Hpos Hend [Hc Hs Hb Ht] Hcp Hlen.
  unfold step. rewrite Hpc. unfold slot_bytes, store_chunk. simpl.
  pose proof (slot_offset (end_ (cb c)) (chunkpos c) Hend Hcp) as Hoff.
  assert (forall i,
    memcpy (chunks (cb c)) (end_ (cb c) * CHUNK_SIZE) (chunk c) (chunkpos c)
      !! i =
    if decide (Z.to_nat (end_ (cb c) * CHUNK_SIZE) <= i <
               Z.to_nat (end_ (cb c) * CHUNK_SIZE) + Z.to_nat (chunkpos c))%nat
    then chunk c !! (i - Z.to_nat (end_ (cb c) * CHUNK_SIZE))%nat
    else chunks (cb c) !! i) as Hlook.
  { intros i. apply memcpy_lookup; [nia | lia | lia |]. by rewrite Hc. }
  split; [| split; [| split; [| split]]].
  - apply list_eq. intros i.
    destruct (decide (i < Z.to_nat (chunkpos c))%nat);
      [| by rewrite !lookup_take_ge by lia].
    rewrite !lookup_take_lt by lia. rewrite lookup_drop, Hlook.
    rewrite decide_True by lia. f_equal. lia.
  - apply list_lookup_insert_eq. lia.
  - apply list_lookup_insert_eq. lia.
  - apply list_lookup_insert_eq. lia.
  - intros j Hj Hne.
    assert (Z.to_nat (end_ (cb c)) <> Z.to_nat j) as Hne' by lia.
    rewrite !list_lookup_insert_ne by done. split; [| done].
    apply list_eq. intros i.
    destruct (decide (i < Z.to_nat CHUNK_SIZE)%nat);
      [| by rewrite !lookup_take_ge by lia].
    rewrite !lookup_take_lt by lia.
    rewrite !lookup_drop, Hlook. rewrite decide_False; [done |].
    assert (j < end_ (cb c) \/ end_ (cb c) < j) as [Hlt|Hgt] by lia.
    + assert (Z.to_nat (j * CHUNK_SIZE) + Z.to_nat CHUNK_SIZE <=
              Z.to_nat (end_ (cb c) * CHUNK_SIZE))%nat; [| lia].
      rewrite <- Z2Nat.inj_add by nia. apply Z2Nat.inj_le; nia.
    + assert (Z.to_nat (end_ (cb c) * CHUNK_SIZE) + Z.to_nat CHUNK_SIZE <=
              Z.to_nat (j * CHUNK_SIZE))%nat; [| lia].
      rewrite <- Z2Nat.inj_add by nia. apply Z2Nat.inj_le; nia.
Qed.

(** ** The order of the pushes *)

Lemma last_push_app prev tr e :
  last_push prev (tr ++ [e]) =
  match e with
  | EvPush slot _ => Some slot
  | EvSeek _ => None
  | _ => last_push prev tr
  end.
Proof.
  revert prev. induction tr as [|e' tr IH]; intros prev; simpl.
  - by destruct e.
  - destruct e'; simpl; rewrite IH; done.
Qed.

Lemma in_order_app prev tr e :
  in_order prev (tr ++ [e]) <->
  in_order prev tr /\
  match e with
  | EvPush slot _ =>
      match last_push prev tr with
      | Some p => slot = (p + 1) mod buffered_chunks
      | None => True
      end
  | _ => True
  end.
Proof.
  revert prev. induction tr as [|e' tr IH]; intros prev; simpl.
  - destruct e; simpl; tauto.
  - destruct e'; simpl; rewrite IH; tauto.
Qed.

Lemma end_follows_step (c : config) :
  0 <= end_ (cb c) < buffered_chunks -> end_follows c -> end_follows (step c).
Proof.
  intros Hend [Hord Hlast].
  destruct c as [l b a d v e ch cp r tr].
  unfold end_follows, step, goto, emit in *. simpl in *.
  destruct l; simpl in *;
    try (by repeat (match goal with
                    | |- context [if ?b then _ else _] => destruct b
                    end; simpl);
            rewrite ?in_order_app, ?last_push_app).
  - (* the read *)
    destruct (ov_read v (CHUNK_SIZE - cp)) as [[ret data] v'].
    destruct (ret <=? 0); simpl; by rewrite in_order_app, last_push_app.
  - (* the push *)
    rewrite in_order_app, last_push_app. split; [split; [done |] |].
    + destruct (last_push None tr); done.
    + destruct (Z.geb_spec (end_ b + 1) buffered_chunks).
      * assert (end_ b + 1 = buffered_chunks) as -> by lia.
        by rewrite Z_mod_same_full.
      * rewrite Z.mod_small; lia.
Qed.

Lemma end_follows_player (c : config) (p : Player) :
  end_follows c -> end_follows (interfere p c).
Proof. by destruct c. Qed.

(** X5: the pushes go round the ring in order: every push goes to the
    slot after that of the push before it, modulo [buffered_chunks], unless
    a seek has come between; and at a push [end] is the slot after that of
    the last push. *)
Theorem pushes_in_ring_order b a d (c0 : config) n (c : config) :
  ov_read_fits -> 0 < CHUNK_SIZE ->
  allocated b ->
  0 <= begin b < buffered_chunks -> 0 <= end_ b < buffered_chunks ->
  ogg_decode_enter b a d = Decoding c0 ->
  exec orderly n c0 c ->
  in_order None (trace c) /\
  (pc c = Lpush ->
   forall p, last_push None (trace c) = Some p ->
     end_ (cb c) = (p + 1) mod buffered_chunks).
Proof.
  intros Hfits Hpos Ha Hb He Henter Hexec.
  assert (scratch_ok c0 /\ ring_ok c0 /\ end_follows c0) as H0.
  { split; [by apply (enter_scratch_ok b a d) |].
    revert Henter. unfold ogg_decode_enter.
    destruct (openInputStreamFromFile (file d)) as [r s].
    destruct (r <? 0); [done |].
    destruct (ov_open_callbacks s) as [r' v].
    destruct (r' <? 0); [done |].
    destruct (ov_info v) as [ch rate]. intros [= <-].
    destruct Ha. split; [by split | by split]. }
  assert (scratch_ok c /\ ring_ok c /\ end_follows c) as (_ & _ & Hord & Hlast).
  { clear Henter. induction Hexec as [c|n c p c' Hp _ IH]; [done |].
    destruct H0 as (Hs & Hr & Hf). apply IH.
    assert (scratch_ok (interfere p c)) as Hs'.
    { apply scratch_ok_player; [done | by destruct Hp]. }
    assert (ring_ok (interfere p c)) as Hr' by (by apply ring_ok_player).
    split; [by apply scratch_ok_step |]. split; [by apply ring_ok_step |].
    apply end_follows_step; [by destruct Hr' | by apply end_follows_player]. }
  split; [done |]. intros Hpc p Hp. by rewrite Hpc, Hp in Hlast.
Qed.

(** ** Requests at the chunk boundary *)

(** A whole walk: the player acts, the decoder steps, and a test whose
    outcome is open is taken both ways, until the function has returned. *)
Ltac walk H :=
  first
  [ returned H
  | player H;
    try match type of H with
        | context [if ?b then _ else _] => destruct b eqn:?
        end;
    walk H ].

(** X6: a seek found at the chunk boundary (line 149) throws the finished
    chunk away: the loop goes back to its head, empties the buffer,
    repositions the codec and reads again into an empty scratch chunk;
    nothing is stored in the buffer. *)
Theorem seek_at_chunk_boundary (c c' : config) :
  pc c = Lcont -> seek (dc c) = true -> eof c = false ->
  exec handshake 7 c c' ->
  pc c' = Lread /\ chunkpos c' = 0 /\
  end_ (cb c') = begin (cb c) /\ wrap (cb c') = false /\
  vf c' = ov_time_seek_page (vf c) (seekWhere (dc c)) /\
  trace c' = trace c ++ [EvSeek (seekWhere (dc c))] /\
  chunks (cb c') = chunks (cb c) /\
  chunkSize (cb c') = chunkSize (cb c) /\
  seek (dc c') = false.
Proof.
  intros Hpc Hseek Heof H.
  destruct c as [l [] a [] v e ch cp r tr]; simpl in *; subst.
  do 7 handshake_player H. by inversion H.
Qed.

(** X7: a seek that is pending when the stream ends is dropped: the loop
    is left at [continue] and [while(!eof)], the codec is not repositioned,
    the scratch chunk is not pushed, and the function returns in state
    STOP. *)
Theorem seek_at_end_of_stream (c c' : config) :
  pc c = Lread ->
  (ov_read (vf c) (CHUNK_SIZE - chunkpos c)).1.1 <= 0 ->
  seek (dc c) = true ->
  exec permitted 11 c c' ->
  pc c' = Lreturn /\ state (dc c') = DECODE_STATE_STOP /\
  trace c' =
    trace c ++ [EvRead (ov_read (vf c) (CHUNK_SIZE - chunkpos c)).1.1;
                EvClear] /\
  vf c' = ov_clear (ov_read (vf c) (CHUNK_SIZE - chunkpos c)).2 /\
  end_ (cb c') = end_ (cb c) /\
  chunkSize (cb c') = chunkSize (cb c) /\
  chunks (cb c') = chunks (cb c).
Proof.
  intros Hpc Hret Hseek H.
  destruct c as [l [] a [] v e ch cp r tr]; simpl in *; subst.
  destruct (ov_read v (CHUNK_SIZE - cp)) as [[ret data] v'] eqn:Hread.
  simpl in Hret. apply Z.leb_le in Hret.
  player H. rewrite Hread, Hret in H.
  player H. rewrite orb_true_r in H.
  walk H; rewrite <- ?app_assoc in *; done.
Qed.

(** X8: the stop flag is looked at when a chunk is finished and not
    before.  With stop pending at the chunk boundary the function returns
    without a push, whatever the seek flag is; with stop pending and a chunk
    that the read has not filled, the loop goes on to its next turn. *)
Theorem stop_waits_for_the_chunk :
  (forall c c' : config,
     pc c = Lwait -> stop (dc c) = true ->
     exec permitted 6 c c' ->
     pc c' = Lreturn /\ state (dc c') = DECODE_STATE_STOP /\
     trace c' = trace c ++ [EvClear] /\
     end_ (cb c') = end_ (cb c) /\ chunks (cb c') = chunks (cb c) /\
     chunkSize (cb c') = chunkSize (cb c)) /\
  (forall c c' : config,
     pc c = Lread -> stop (dc c) = true -> eof c = false ->
     0 < (ov_read (vf c) (CHUNK_SIZE - chunkpos c)).1.1 ->
     chunkpos c + (ov_read (vf c) (CHUNK_SIZE - chunkpos c)).1.1 < CHUNK_SIZE ->
     exec permitted 3 c c' ->
     pc c' = Lseek /\ stop (dc c') = true /\
     chunkpos c' = chunkpos c + (ov_read (vf c) (CHUNK_SIZE - chunkpos c)).1.1 /\
     trace c' =
       trace c ++ [EvRead (ov_read (vf c) (CHUNK_SIZE - chunkpos c)).1.1]).
Proof.
  split.
  - intros c c' Hpc Hstop H.
    destruct c as [l [] a [] v e ch cp r tr]; simpl in *; subst.
    walk H; done.
  - intros c c' Hpc Hstop Heof Hret Hpart H.
    destruct c as [l [] a [] v e ch cp r tr]; simpl in *; subst.
    destruct (ov_read v (CHUNK_SIZE - cp)) as [[ret data] v'] eqn:Hread.
    simpl in *.
    assert ((ret <=? 0) = false) as Hpos by (apply Z.leb_gt; lia).
    assert ((cp + ret >=? CHUNK_SIZE) = false) as Hlt by lia.
    player H. rewrite Hread, Hpos in H.
    player H. rewrite Hlt in H. simpl in H.
    player H. by inversion H.
Qed.

(** ** The function on its own *)

Lemma step_kept (c : config) : kept c (step c).
Proof.
  unfold step. destruct (pc c); simpl; try done;
    repeat case_match; done.
Qed.

Lemma steps_kept n (c : config) : kept c (steps n c).
Proof.
  induction n as [|n IH]; [done |].
  rewrite steps_S. destruct IH, (step_kept (steps n c)).
  split; congruence.
Qed.

Lemma leaving_step (c : config) : leaving c -> leaving (step c).
Proof.
  unfold leaving, step. destruct (pc c); simpl; try done;
    repeat case_match; simpl; try done.
  intros (? & ? & ?). done.
Qed.

Lemma leaving_steps n (c : config) : leaving c -> leaving (steps n c).
Proof.
  intros H. induction n as [|n IH]; [done |].
  rewrite steps_S. by apply leaving_step.
Qed.

(** What [ogg_decode_enter] hands to the loop. *)
Lemma enter_decoding b a d (c0 : config) :
  ogg_decode_enter b a d = Decoding c0 ->
  pc c0 = Lwhile /\
  cb c0 = mkBuffer (chunks b) (chunkSize b) (bitRate b) (times b) (begin b)
            (end_ b) (wrap b) (ov_time_total (vf c0)) /\
  af c0 = mkAudioFormat 16 (ov_info (vf c0)).1 (ov_info (vf c0)).2 /\
  dc c0 = mkDecoderControl DECODE_STATE_DECODE (stop d) (seek d) (seekWhere d)
            false (file d) /\
  eof c0 = false /\ chunk c0 = replicate (Z.to_nat CHUNK_SIZE) x00 /\
  chunkpos c0 = 0 /\ trace c0 = [].
Proof.
  unfold ogg_decode_enter.
  destruct (openInputStreamFromFile (file d)) as [r s].
  destruct (r <? 0); [done |].
  destruct (ov_open_callbacks s) as [r' v].
  destruct (r' <? 0); [done |].
  destruct (ov_info v) as [ch rate] eqn:Hinfo. intros [= <-]. simpl.
  by rewrite Hinfo.
Qed.

(** X9: what [ogg_decode] hands back when it returns, no player around.
    Either -1, with the buffer, the format and the control untouched, the
    source not opened; or 0, with the state STOP, the flags stop, seek and
    start cleared, 16 bits and the channels and the rate of the stream in
    the format, the total time of the stream in the buffer, and [begin]
    where it was. *)
Theorem ogg_decode_result fuel b a d r b' a' d' :
  ogg_decode fuel b a d = Some (r, b', a', d') ->
  (r = -1 /\ b' = b /\ a' = a /\ d' = d /\
   exists msg, ogg_decode_enter b a d = Returned (-1) b a d msg) \/
  (r = 0 /\
   d' = mkDecoderControl DECODE_STATE_STOP false false (seekWhere d) false
          (file d) /\
   begin b' = begin b /\
   exists c0, ogg_decode_enter b a d = Decoding c0 /\
     a' = mkAudioFormat 16 (ov_info (vf c0)).1 (ov_info (vf c0)).2 /\
     totalTime b' = ov_time_total (vf c0)).
Proof.
  unfold ogg_decode.
  destruct (ogg_decode_enter b a d) as [r0 b0 a0 d0 msg|c0] eqn:Henter.
  - intros [= <- <- <- <-]. left.
    revert Henter. unfold ogg_decode_enter.
    destruct (openInputStreamFromFile (file d)) as [r0' s].
    destruct (r0' <? 0); [intros [= <- <- <- <- <-]; by eauto 10 |].
    destruct (ov_open_callbacks s) as [r' v].
    destruct (r' <? 0); [intros [= <- <- <- <- <-]; by eauto 10 |].
    by destruct (ov_info v).
  - destruct (decide (pc (steps fuel c0) = Lreturn)) as [Hret|]; [| done].
    intros [= <- <- <- <-]. right. split; [done |].
    destruct (enter_decoding b a d c0 Henter)
      as (Hpc & Hcb & Haf & Hdc & _).
    assert (leaving (steps fuel c0)) as Hl.
    { apply leaving_steps. unfold leaving. by rewrite Hpc. }
    unfold leaving in Hl. rewrite Hret in Hl. destruct Hl as (Hk & Hs & Hst).
    destruct (steps_kept fuel c0) as [Haf' Hb Htt Hsw Hstart Hfile].
    rewrite Hdc in Hsw, Hstart, Hfile. rewrite Hcb in Hb, Htt.
    simpl in *.
    split; [| split; [done |]].
    + destruct (dc (steps fuel c0)); simpl in *. congruence.
    + exists c0. split; [done |]. split; congruence.
Qed.

End DecoderFacts.

(** ** The read callback *)

Section CallbackFacts.
Context {V : Vorbisfile} {I : InputStreams}.

(** X10: [ogg_read_cb] never stores the error of the stream in [errno]:
    the result of [readFromInputStream] is held in a [size_t], which is
    never below 0, so that the test [ret<0] fails; the value returned is
    that result as a [size_t]. *)
Theorem ogg_read_cb_keeps_errno (size nmemb : Z) (s : InputStream) (errno : Z) :
  (ogg_read_cb size nmemb s errno).2 = errno /\
  0 <= (ogg_read_cb size nmemb s errno).1.1.1 < 2 ^ Z.of_N size_t_bits /\
  (ogg_read_cb size nmemb s errno).1.1.1 =
    to_size_t (readFromInputStream s size nmemb).1.1.
Proof.
  unfold ogg_read_cb.
  destruct (readFromInputStream s size nmemb) as [[r data] s']. simpl.
  assert (0 <= to_size_t r < 2 ^ Z.of_N size_t_bits) as Hrange.
  { unfold to_size_t. apply Z.mod_pos_bound. apply Z.pow_pos_nonneg; lia. }
  destruct (Z.ltb_spec (to_size_t r) 0); [lia | done].
Qed.

End CallbackFacts.


(** ** The loop on the toy decoder *)

Section Runs.
#[local] Existing Instance toy_vorbis.
#[local] Existing Instance toy_sizes.

(** The whole function on the toy stream: a full chunk from two reads goes
    to slot 3, then the read error ends the stream with an empty last chunk
    in slot 0. *)
Example ogg_decode_toy :
  ogg_decode 40 sample_cb (mkAudioFormat 0 0 0) (unopened "song.ogg") =
  Some (0,
        mkBuffer (replicate 24 x00 ++ replicate 8 x2a)
          [0; 0; 0; 8] [128; 0; 0; 128] [3; 0; 0; 2] 2 1 true 10,
        mkAudioFormat 16 2 44100,
        mkDecoderControl DECODE_STATE_STOP false false 0 false "song.ogg").
Proof. reflexivity. Qed.

(** On the full buffer the decoder sleeps; the player takes a chunk, which
    it is permitted to do; the decoder then stores its chunk in the slot
    that is free, and the buffer is full again. *)
Example sleeps_until_a_slot_is_free :
  steps 5 (sample_at full_cb Lwait false false 8 []) =
    goto Lwait (emit EvSleep (sample_at full_cb Lwait false false 8 [])) /\
  permitted (steps 5 (sample_at full_cb Lwait false false 8 [])) takes_one /\
  trace (steps 4 (interfere takes_one
                    (steps 5 (sample_at full_cb Lwait false false 8 [])))) =
    [EvSleep; EvPush 2 8] /\
  is_full (cb (steps 4 (interfere takes_one
                          (steps 5 (sample_at full_cb Lwait false false 8 [])))))
    = true.
Proof.
  split; [reflexivity |]. split; [| by split].
  split; simpl; done.
Qed.

(** [end] is at the last slot, [begin] at slot 2: the push starts again at
    slot 0 and sets [wrap]. *)
Lemma push_moves_end_witness :
  end_ (cb (step (sample Lpush false false 5 []))) = (3 + 1) mod 4 /\
  begin (cb (step (sample Lpush false false 5 []))) = 2 /\
  wrap (cb (step (sample Lpush false false 5 []))) =
    (end_ (cb (step (sample Lpush false false 5 []))) =? 0) || false /\
  trace (step (sample Lpush false false 5 [])) = [] ++ [EvPush 3 5].
Proof.
  assert (0 <= end_ (cb (sample Lpush false false 5 [])) < buffered_chunks)
    as Hend by (simpl; lia).
  exact (push_moves_end (sample Lpush false false 5 []) eq_refl Hend).
Defined.

(** C1, as stated, fails: this push sets [wrap] although the new [end], 0,
    is not [begin], 2. *)
Lemma push_sets_wrap_away_from_begin :
  pc (sample Lpush false false 5 []) = Lpush /\
  wrap (cb (sample Lpush false false 5 [])) = false /\
  wrap (cb (step (sample Lpush false false 5 []))) = true /\
  end_ (cb (step (sample Lpush false false 5 []))) = 0 /\
  begin (cb (step (sample Lpush false false 5 []))) = 2.
Proof. repeat split. Qed.

Lemma seek_observed_witness :
  pc (steps 5 (sample Lseek false true 5 [4])) = Lread /\
  chunkpos (steps 5 (sample Lseek false true 5 [4])) = 0 /\
  begin (cb (steps 5 (sample Lseek false true 5 [4]))) = 2 /\
  end_ (cb (steps 5 (sample Lseek false true 5 [4]))) = 2 /\
  wrap (cb (steps 5 (sample Lseek false true 5 [4]))) = false /\
  vf (steps 5 (sample Lseek false true 5 [4])) =
    ov_time_seek_page (mkToyFile [4] 0) 7 /\
  trace (steps 5 (sample Lseek false true 5 [4])) = [] ++ [EvSeek 7] /\
  seek (dc (steps 5 (sample Lseek false true 5 [4]))) = false.
Proof.
  exact (proj1 (seek_observed (sample Lseek false true 5 [4])
                  eq_refl eq_refl) _
           (exec_idle handshake 5 _ handshake_idle)).
Defined.

(** C2, as stated, fails: after the seek is honoured both cursors are at
    slot 2, where [begin] was, not at slot 0. *)
Lemma seek_leaves_begin_in_place :
  pc (sample Lseek false true 5 [4]) = Lseek /\
  seek (dc (sample Lseek false true 5 [4])) = true /\
  seek (dc (steps 5 (sample Lseek false true 5 [4]))) = false /\
  begin (cb (steps 5 (sample Lseek false true 5 [4]))) = 2 /\
  end_ (cb (steps 5 (sample Lseek false true 5 [4]))) = 2 /\
  wrap (cb (steps 5 (sample Lseek false true 5 [4]))) = false.
Proof. repeat split. Qed.



(** From the head of the loop the toy decoder reaches the push in seven
    steps, and slot 3 is free; only the push changes the storage; on the
    full buffer the loop sleeps and tests again. *)
Lemma never_writes_while_full_witness :
  is_full (cb (steps 7 (sample Lwhile false false 8 []))) = false /\
  (chunks (cb (step (sample Lwait false false 8 []))) = replicate 32 x00 /\
   chunkSize (cb (step (sample Lwait false false 8 []))) = replicate 4 0 /\
   times (cb (step (sample Lwait false false 8 []))) = replicate 4 0 /\
   bitRate (cb (step (sample Lwait false false 8 []))) = replicate 4 0) /\
  (steps 4 (sample_at full_cb Lwait false false 8 []) =
     goto Lsleep (sample_at full_cb Lwait false false 8 []) /\
   steps 5 (sample_at full_cb Lwait false false 8 []) =
     goto Lwait (emit EvSleep (sample_at full_cb Lwait false false 8 []))).
Proof.
  assert (pc (sample Lwait false false 8 []) <> Lpush) as Hpc by discriminate.
  exact (conj
    (proj1 never_writes_while_full (sample Lwhile false false 8 []) _
       eq_refl (reachable_steps 7 _) eq_refl)
    (conj
      (proj1 (proj2 never_writes_while_full) _ Hpc)
      (proj2 (proj2 never_writes_while_full)
         (sample_at full_cb Lwait false false 8 [])
         eq_refl eq_refl eq_refl eq_refl))).
Defined.


(** The stream ends while the buffer is full: the decoder sleeps, the
    player takes a chunk, and the last three bytes go to the slot that is
    free. *)
Example waits_then_pushes_last_chunk :
  pc (steps 7 (sample_at full_cb Lread false false 3 [])) = Lwait /\
  calm (steps 7 (sample_at full_cb Lread false false 3 [])) takes_one /\
  pc (steps 7 (interfere takes_one
                 (steps 7 (sample_at full_cb Lread false false 3 [])))) =
    Lreturn /\
  trace (steps 7 (interfere takes_one
                    (steps 7 (sample_at full_cb Lread false false 3 [])))) =
    [EvRead 0; EvSleep; EvPush 2 3; EvClear].
Proof.
  split; [reflexivity |]. split; [| by split].
  split; [| done..]. split; simpl; done.
Qed.


(** The read fails while the buffer is full: the decoder goes to sleep (six
    steps), and the player takes a chunk before the decoder is back at its
    first test. *)
Definition after_sleep (c : config) : config :=
  step (interfere takes_one (steps 6 c)).

Lemma waits_for_the_player :
  exec calm 7 (sample_at full_cb Lread false false 3 [-3])
    (after_sleep (sample_at full_cb Lread false false 3 [-3])).
Proof.
  apply (exec_idle_then calm 6 _ takes_one calm_idle).
  split; [| done..]. split; simpl; done.
Qed.

Lemma codec_failure_witness :
  ogg_decode_enter sample_cb (mkAudioFormat 0 0 0) (unopened "missing.ogg") =
    Returned (-1) sample_cb (mkAudioFormat 0 0 0) (unopened "missing.ogg")
      ("failed to open ogg" +:+ LF) /\
  ogg_decode_enter sample_cb (mkAudioFormat 0 0 0) (unopened "noise.ogg") =
    Returned (-1) sample_cb (mkAudioFormat 0 0 0) (unopened "noise.ogg")
      ("Input does not appear to be an Ogg bit stream." +:+ LF) /\
  (state (dc (steps 10 (sample Lread false false 3 [-3]))) =
     DECODE_STATE_STOP /\
   last_chunk_stored (sample Lread false false 3 [-3])
     (steps 10 (sample Lread false false 3 [-3])) /\
   exists k,
     trace (steps 10 (sample Lread false false 3 [-3])) =
     [] ++ EvRead (-3) :: replicate k EvSleep ++ [EvPush 3 3; EvClear]) /\
  (pc (steps 10 (sample Lread false false 3 [-3])) = Lreturn /\
   state (dc (steps 10 (sample Lread false false 3 [-3]))) =
     DECODE_STATE_STOP /\
   last_chunk_stored (sample Lread false false 3 [-3])
     (steps 10 (sample Lread false false 3 [-3])) /\
   trace (steps 10 (sample Lread false false 3 [-3])) =
     [] ++ [EvRead (-3); EvPush 3 3; EvClear]) /\
  (pc (steps 8 (after_sleep (sample_at full_cb Lread false false 3 [-3]))) =
     Lreturn /\
   state (dc (steps 8 (after_sleep
                         (sample_at full_cb Lread false false 3 [-3])))) =
     DECODE_STATE_STOP /\
   last_chunk_stored (sample_at full_cb Lread false false 3 [-3])
     (steps 8 (after_sleep (sample_at full_cb Lread false false 3 [-3]))) /\
   trace (steps 8 (after_sleep
                     (sample_at full_cb Lread false false 3 [-3]))) =
     trace (after_sleep (sample_at full_cb Lread false false 3 [-3])) ++
       [EvPush 2 3; EvClear]).
Proof.
  assert ((openInputStreamFromFile (file (unopened "missing.ogg"))).1 < 0)
    as Hopen by (simpl; lia).
  assert (0 <= (openInputStreamFromFile (file (unopened "noise.ogg"))).1)
    as Hopen' by (simpl; lia).
  assert ((ov_open_callbacks
             (openInputStreamFromFile (file (unopened "noise.ogg"))).2).1 < 0)
    as Hogg by (simpl; lia).
  assert ((ov_read (vf (sample Lread false false 3 [-3]))
             (CHUNK_SIZE - chunkpos (sample Lread false false 3 [-3]))).1.1 < 0)
    as Hret by (simpl; lia).
  assert ((ov_read (vf (sample_at full_cb Lread false false 3 [-3]))
             (CHUNK_SIZE -
              chunkpos (sample_at full_cb Lread false false 3 [-3]))).1.1 < 0)
    as Hret' by (simpl; lia).
  exact (conj
    (proj1 codec_failure sample_cb (mkAudioFormat 0 0 0) _ Hopen)
    (conj
      (proj1 (proj2 codec_failure) sample_cb (mkAudioFormat 0 0 0) _
         Hopen' Hogg)
      (conj
        (proj1 (proj2 (proj2 (proj2 codec_failure))) 10%nat
           (sample Lread false false 3 [-3]) _ eq_refl Hret
           eq_refl eq_refl (exec_idle calm 10 _ calm_idle) eq_refl)
        (conj
          (proj1 (proj2 (proj2 (proj2 (proj2 codec_failure))))
             (sample Lread false false 3 [-3]) _ eq_refl Hret
             eq_refl eq_refl eq_refl (exec_idle calm 10 _ calm_idle))
          (proj2 (proj2 (proj2 (proj2 (proj2 codec_failure)))) 7%nat
             (sample_at full_cb Lread false false 3 [-3]) _ _
             eq_refl Hret' eq_refl eq_refl
             waits_for_the_player eq_refl eq_refl
             (exec_idle calm 8 _ calm_idle)))))).
Defined.

(** C6, as stated, fails: a source that cannot be opened leaves the state
    at START, and a failing [ov_read] is followed by a push and by state
    STOP; ERROR is stored in neither case. *)
Lemma codec_failure_stores_no_error :
  ogg_decode_enter sample_cb (mkAudioFormat 0 0 0) (unopened "missing.ogg") =
    Returned (-1) sample_cb (mkAudioFormat 0 0 0)
      (mkDecoderControl DECODE_STATE_START false false 0 true "missing.ogg")
      ("failed to open ogg" +:+ LF) /\
  ov_read (vf (sample Lread false false 3 [-3])) (8 - 3) =
    (-3, replicate (Z.to_nat (-3)) x2a, mkToyFile [] 1) /\
  pc (steps 9 (sample Lread false false 3 [-3])) = Lreturn /\
  trace (steps 9 (sample Lread false false 3 [-3])) =
    [EvRead (-3); EvPush 3 3; EvClear] /\
  state (dc (steps 9 (sample Lread false false 3 [-3]))) = DECODE_STATE_STOP.
Proof. repeat split. Qed.

(** ** Bounds and requests on the toy decoder *)

(** The toy stream, opened: what [ogg_decode_enter] hands to the loop for
    the file "song.ogg" and the buffer [sample_cb]. *)
Definition toy_entered : config :=
  mkConfig Lwhile sample_cb (mkAudioFormat 16 2 44100)
    (mkDecoderControl DECODE_STATE_DECODE false false 0 false "song.ogg")
    (mkToyFile [4; 4; -3] 0) false (replicate 8 x00) 0 0 [].

Lemma toy_read_fits : ov_read_fits.
Proof.
  intros v n Hn. simpl. destruct (toy_reads v) as [|r rs]; simpl.
  - split; [lia | done].
  - split; [lia |]. intros Hpos. rewrite length_replicate. lia.
Qed.

Lemma toy_chunk_size : 0 < CHUNK_SIZE.
Proof. done. Qed.

Lemma toy_allocated : allocated sample_cb.
Proof. by split. Qed.

(** At the second read four bytes are in the scratch chunk, and four are
    asked for. *)
Lemma scratch_chunk_in_bounds_witness :
  0 <= chunkpos (steps 6 toy_entered) <= CHUNK_SIZE /\
  length (chunk (steps 6 toy_entered)) = Z.to_nat CHUNK_SIZE /\
  (pc (steps 6 toy_entered) = Lread ->
   0 < CHUNK_SIZE - chunkpos (steps 6 toy_entered) <= CHUNK_SIZE).
Proof.
  exact (scratch_chunk_in_bounds sample_cb (mkAudioFormat 0 0 0)
           (unopened "song.ogg") toy_entered (steps 6 toy_entered)
           toy_read_fits toy_chunk_size eq_refl (reachable_steps 6 _)).
Defined.

(** The first push of the toy stream: eight bytes, a full chunk. *)
Lemma chunks_before_the_end_are_full_witness :
  chunkpos (steps 11 toy_entered) = CHUNK_SIZE /\
  trace (step (steps 11 toy_entered)) =
    trace (steps 11 toy_entered) ++ [EvPush 3 CHUNK_SIZE].
Proof.
  exact (chunks_before_the_end_are_full sample_cb (mkAudioFormat 0 0 0)
           (unopened "song.ogg") toy_entered (steps 11 toy_entered)
           toy_read_fits toy_chunk_size eq_refl (reachable_steps 11 _)
           eq_refl eq_refl).
Defined.

Lemma pushes_stay_in_the_ring_witness :
  0 <= end_ (cb (steps 30 toy_entered)) < buffered_chunks /\
  allocated (cb (steps 30 toy_entered)) /\
  Forall push_in_ring (trace (steps 30 toy_entered)).
Proof.
  assert (0 <= begin sample_cb < buffered_chunks) as Hb by (simpl; lia).
  assert (0 <= end_ sample_cb < buffered_chunks) as He by (simpl; lia).
  exact (pushes_stay_in_the_ring sample_cb (mkAudioFormat 0 0 0)
           (unopened "song.ogg") toy_entered 30 (steps 30 toy_entered)
           toy_read_fits toy_chunk_size toy_allocated Hb He eq_refl
           (exec_idle orderly 30 _ orderly_idle)).
Defined.

Lemma pushes_in_ring_order_witness :
  in_order None (trace (steps 30 toy_entered)) /\
  (pc (steps 30 toy_entered) = Lpush ->
   forall p, last_push None (trace (steps 30 toy_entered)) = Some p ->
     end_ (cb (steps 30 toy_entered)) = (p + 1) mod buffered_chunks).
Proof.
  assert (0 <= begin sample_cb < buffered_chunks) as Hb by (simpl; lia).
  assert (0 <= end_ sample_cb < buffered_chunks) as He by (simpl; lia).
  exact (pushes_in_ring_order sample_cb (mkAudioFormat 0 0 0)
           (unopened "song.ogg") toy_entered 30 (steps 30 toy_entered)
           toy_read_fits toy_chunk_size toy_allocated Hb He eq_refl
           (exec_idle orderly 30 _ orderly_idle)).
Defined.

(** The toy stream pushes to slot 3 and then to slot 0. *)
Example toy_pushes :
  trace (steps 30 toy_entered) =
    [EvRead 4; EvRead 4; EvPush 3 8; EvRead (-3); EvPush 0 0; EvClear] /\
  in_order None (trace (steps 30 toy_entered)).
Proof. split; [reflexivity |]. by vm_compute. Qed.

Lemma push_fills_one_slot_witness :
  take (Z.to_nat 5) (slot_bytes (cb (step (sample Lpush false false 5 []))) 3) =
    take (Z.to_nat 5) (replicate 8 x00) /\
  chunkSize (cb (step (sample Lpush false false 5 []))) !! Z.to_nat 3 = Some 5 /\
  times (cb (step (sample Lpush false false 5 []))) !! Z.to_nat 3 = Some 0 /\
  bitRate (cb (step (sample Lpush false false 5 []))) !! Z.to_nat 3 =
    Some (next_bitRate (mkToyFile [] 0) 0) /\
  (forall j, 0 <= j < buffered_chunks -> j <> 3 ->
     slot_bytes (cb (step (sample Lpush false false 5 []))) j =
       slot_bytes sample_cb j /\
     chunkSize (cb (step (sample Lpush false false 5 []))) !! Z.to_nat j =
       chunkSize sample_cb !! Z.to_nat j /\
     times (cb (step (sample Lpush false false 5 []))) !! Z.to_nat j =
       times sample_cb !! Z.to_nat j /\
     bitRate (cb (step (sample Lpush false false 5 []))) !! Z.to_nat j =
       bitRate sample_cb !! Z.to_nat j).
Proof.
  assert (0 <= end_ (cb (sample Lpush false false 5 [])) < buffered_chunks)
    as He by (simpl; lia).
  assert (0 <= chunkpos (sample Lpush false false 5 []) <= CHUNK_SIZE)
    as Hcp by (simpl; lia).
  exact (push_fills_one_slot (sample Lpush false false 5 []) eq_refl
           toy_chunk_size He toy_allocated Hcp eq_refl).
Defined.

Lemma seek_at_chunk_boundary_witness :
  pc (steps 7 (sample Lcont false true 8 [4])) = Lread /\
  chunkpos (steps 7 (sample Lcont false true 8 [4])) = 0 /\
  end_ (cb (steps 7 (sample Lcont false true 8 [4]))) = 2 /\
  wrap (cb (steps 7 (sample Lcont false true 8 [4]))) = false /\
  vf (steps 7 (sample Lcont false true 8 [4])) =
    ov_time_seek_page (mkToyFile [4] 0) 7 /\
  trace (steps 7 (sample Lcont false true 8 [4])) = [] ++ [EvSeek 7] /\
  chunks (cb (steps 7 (sample Lcont false true 8 [4]))) = replicate 32 x00 /\
  chunkSize (cb (steps 7 (sample Lcont false true 8 [4]))) = replicate 4 0 /\
  seek (dc (steps 7 (sample Lcont false true 8 [4]))) = false.
Proof.
  exact (seek_at_chunk_boundary (sample Lcont false true 8 [4]) _
           eq_refl eq_refl eq_refl (exec_idle handshake 7 _ handshake_idle)).
Defined.

Lemma seek_at_end_of_stream_witness :
  pc (steps 11 (sample Lread false true 3 [])) = Lreturn /\
  state (dc (steps 11 (sample Lread false true 3 []))) = DECODE_STATE_STOP /\
  trace (steps 11 (sample Lread false true 3 [])) =
    [] ++ [EvRead 0; EvClear] /\
  vf (steps 11 (sample Lread false true 3 [])) = ov_clear (mkToyFile [] 0) /\
  end_ (cb (steps 11 (sample Lread false true 3 []))) = 3 /\
  chunkSize (cb (steps 11 (sample Lread false true 3 []))) = replicate 4 0 /\
  chunks (cb (steps 11 (sample Lread false true 3 []))) = replicate 32 x00.
Proof.
  assert ((ov_read (vf (sample Lread false true 3 []))
             (CHUNK_SIZE - chunkpos (sample Lread false true 3 []))).1.1 <= 0)
    as Hret by (simpl; lia).
  exact (seek_at_end_of_stream (sample Lread false true 3 []) _
           eq_refl Hret eq_refl (exec_idle permitted 11 _ permitted_idle)).
Defined.

Lemma stop_waits_for_the_chunk_witness :
  (pc (steps 6 (sample Lwait true false 8 [4])) = Lreturn /\
   state (dc (steps 6 (sample Lwait true false 8 [4]))) = DECODE_STATE_STOP /\
   trace (steps 6 (sample Lwait true false 8 [4])) = [] ++ [EvClear] /\
   end_ (cb (steps 6 (sample Lwait true false 8 [4]))) = 3 /\
   chunks (cb (steps 6 (sample Lwait true false 8 [4]))) = replicate 32 x00 /\
   chunkSize (cb (steps 6 (sample Lwait true false 8 [4]))) = replicate 4 0) /\
  (pc (steps 3 (sample Lread true false 0 [4])) = Lseek /\
   stop (dc (steps 3 (sample Lread true false 0 [4]))) = true /\
   chunkpos (steps 3 (sample Lread true false 0 [4])) = 0 + 4 /\
   trace (steps 3 (sample Lread true false 0 [4])) = [] ++ [EvRead 4]).
Proof.
  assert (0 < (ov_read (vf (sample Lread true false 0 [4]))
                 (CHUNK_SIZE - chunkpos (sample Lread true false 0 [4]))).1.1)
    as Hret by (simpl; lia).
  assert (chunkpos (sample Lread true false 0 [4]) +
          (ov_read (vf (sample Lread true false 0 [4]))
             (CHUNK_SIZE - chunkpos (sample Lread true false 0 [4]))).1.1 <
          CHUNK_SIZE) as Hpart by (simpl; lia).
  exact (conj
    (proj1 stop_waits_for_the_chunk (sample Lwait true false 8 [4]) _
       eq_refl eq_refl (exec_idle permitted 6 _ permitted_idle))
    (proj2 stop_waits_for_the_chunk (sample Lread true false 0 [4]) _
       eq_refl eq_refl eq_refl Hret Hpart
       (exec_idle permitted 3 _ permitted_idle))).
Defined.

Lemma ogg_decode_result_witness :
  exists c0,
    ogg_decode_enter sample_cb (mkAudioFormat 0 0 0) (unopened "song.ogg") =
      Decoding c0 /\
    mkAudioFormat 16 2 44100 =
      mkAudioFormat 16 (ov_info (vf c0)).1 (ov_info (vf c0)).2.
Proof.
  destruct (ogg_decode_result (V:=toy_vorbis) (K:=toy_sizes) 40 sample_cb (mkAudioFormat 0 0 0)
              (unopened "song.ogg") 0
              (mkBuffer (V:=toy_vorbis) (replicate 24 x00 ++ replicate 8 x2a)
                 [0; 0; 0; 8] [128; 0; 0; 128] [3; 0; 0; 2] 2 1 true 10)
              (mkAudioFormat 16 2 44100)
              (mkDecoderControl (V:=toy_vorbis) DECODE_STATE_STOP false false 0
                 false "song.ogg")
              eq_refl)
    as [(Hr & _)|(_ & _ & _ & c0 & Henter & Haf & _)].
  - discriminate Hr.
  - exists c0. split; [exact Henter | exact Haf].
Defined.

End Runs.
End OggDecode.

(* ===================================================================== *)
(** * Tags ([tag/Tag.hxx], as far as the two C++ sources use them) *)
(* ===================================================================== *)

(** The enumeration [TagType] is declared in a header that is not among the
    sources.  [Count.cxx] names two of its members; the others are told
    apart by their number. *)
Inductive TagType :=
| TAG_ARTIST
| TAG_ALBUM_ARTIST
| TAG_OTHER (n : nat).

#[export] Instance TagType_eq_dec : EqDecision TagType.
Proof. solve_decision. Defined.

Record TagItem := mkTagItem {
  type : TagType;
  value : string;
}.

(** [duration] is a [SignedSongTime]: a signed 32 bit count of
    milliseconds, negative when the duration is unknown. *)
Record Tag := mkTag {
  duration : Z;
  items : list TagItem;
}.

(* ===================================================================== *)
(** * The recorder output ([RecorderOutputPlugin.cxx]) *)
(* ===================================================================== *)

Module Recorder.

(** The encoder plugin, as the recorder calls it.  A call returns its
    [bool] and the encoder after the call.  [encoder_read e n] returns the
    bytes it stored in the buffer of size [n]; the [size_t] it returns is
    their number.  [pending] bounds what can still be read: the encoder owns
    a finite amount of pending output, and a read that returns bytes takes
    them away. *)
Class EncoderPlugin := {
  Encoder : Type;
  encoder_open : Encoder -> AudioFormat -> bool * Encoder;
  encoder_close : Encoder -> Encoder;
  encoder_end : Encoder -> bool * Encoder;
  encoder_pre_tag : Encoder -> bool * Encoder;
  encoder_tag : Encoder -> Tag -> bool * Encoder;
  encoder_write : Encoder -> list byte -> bool * Encoder;
  encoder_read : Encoder -> Z -> list byte * Encoder;
  pending : Encoder -> nat;
  encoder_read_pending e n :
    (encoder_read e n).1 <> [] ->
    (pending (encoder_read e n).2 < pending e)%nat;
}.

(** ** The operating system *)

(** What the next [open] or [write] will do, for as long as the list
    lasts; afterwards every call succeeds in full. *)
Inductive Fault :=
| NoFault
| ShortWrite (n : positive)    (* write transfers at most n bytes *)
| ZeroWrite                    (* write returns 0 *)
| Fail (e : Z).                (* the call returns -1 and sets errno *)

Definition EINTR : Z := 4.
Definition EBADF : Z := 9.

(** Modelled from the spec: the destination collaborator, "a byte-sink
    abstraction (create/write/remove) over a file system".  [OpenFile] and
    [RemoveFile] are declared in [fs/FileSystem.hxx], which is not among
    the sources; [write] and [close] are the system calls. *)
Record OS := mkOS {
  files : gmap string (list byte);   (* the files on disk *)
  fds : gmap Z string;               (* the open descriptors *)
  errno : Z;
  faults : list Fault;
}.

(** [OpenFile(path, O_CREAT|O_WRONLY|O_TRUNC|O_BINARY, 0666)]: a
    descriptor that is not in use, on the created or truncated file. *)
Definition OpenFile (path : string) (o : OS) : Z * OS :=
  match faults o with
  | Fail e :: fs => (-1, mkOS (files o) (fds o) e fs)
  | _ =>
      let fd := fresh (dom (fds o)) in
      (fd, mkOS (<[path := []]> (files o)) (<[fd := path]> (fds o))
             (errno o) (tail (faults o)))
  end.

Definition close (fd : Z) (o : OS) : OS :=
  mkOS (files o) (delete fd (fds o)) (errno o) (faults o).

Definition RemoveFile (path : string) (o : OS) : OS :=
  mkOS (delete path (files o)) (fds o) (errno o) (faults o).

(** The bytes go to the end of the file; when the file has been removed
    in the meantime they are lost. *)
Definition append (path : string) (data : list byte)
    (fs : gmap string (list byte)) : gmap string (list byte) :=
  match fs !! path with
  | Some old => <[path := old ++ data]> fs
  | None => fs
  end.

(** [write(fd, data, length)]: the number of bytes written, or -1. *)
Definition write (fd : Z) (data : list byte) (o : OS) : Z * OS :=
  match fds o !! fd with
  | None => (-1, mkOS (files o) (fds o) EBADF (faults o))
  | Some path =>
      match faults o with
      | Fail e :: fs => (-1, mkOS (files o) (fds o) e fs)
      | ZeroWrite :: fs => (0, mkOS (files o) (fds o) (errno o) fs)
      | ShortWrite n :: fs =>
          let k := Z.min (Z.pos n) (Z.of_nat (length data)) in
          (k, mkOS (append path (take (Z.to_nat k) data) (files o)) (fds o)
                (errno o) fs)
      | NoFault :: fs =>
          (Z.of_nat (length data),
           mkOS (append path data (files o)) (fds o) (errno o) fs)
      | [] =>
          (Z.of_nat (length data),
           mkOS (append path data (files o)) (fds o) (errno o) [])
      end
  end.

Section Output.
Context {P : EncoderPlugin}.

(** ** The state *)

(** The member [buffer] only carries bytes from [encoder_read] to
    [write] and is left out. *)
Record RecorderOutput := mkRecorderOutput {
  encoder : Encoder;
  path : string;
  fd : Z;
}.

Inductive Error :=
| EncoderFailed                (* set by the encoder plugin *)
| CreateFailed (e : Z)         (* "Failed to create '%s'" with errno *)
| WriteReturnedZero            (* "write() returned 0" *)
| WriteFailed (e : Z).         (* "Failed to write to '%s'" with errno *)

(** The calls that leave the recorder, in the order they are made. *)
Inductive Event :=
| EvOpenFile (p : string) (r : Z)
| EvClose (d : Z)
| EvRemoveFile (p : string)
| EvWrite (d : Z) (nbytes : Z)
| EvEncoderOpen (ok : bool)
| EvEncoderClose
| EvEncoderEnd (ok : bool)
| EvEncoderPreTag (ok : bool)
| EvEncoderTag (ok : bool)
| EvEncoderWrite (ok : bool)
| EvEncoderRead (size : Z).

Record St := mkSt {
  rec : RecorderOutput;
  os : OS;
  trace : list Event;
  log : list Error;              (* what LogError has printed *)
}.

(** A computation on the state; [None] when a loop was cut off before it
    ended. *)
Definition M (A : Type) : Type := St -> option (A * St).

Definition ret {A} (a : A) : M A := fun s => Some (a, s).

Definition bind {A B} (m : M A) (k : A -> M B) : M B :=
  fun s => match m s with Some (a, s') => k a s' | None => None end.

Notation "x <- m ;; k" := (bind m (fun x => k))
  (at level 100, m at next level, right associativity).
Notation "m ;; k" := (bind m (fun _ => k))
  (at level 100, right associativity).

Definition get_fd : M Z := fun s => Some (fd (rec s), s).
Definition get_errno : M Z := fun s => Some (errno (os s), s).

Definition LogError (e : Error) : M unit :=
  fun s => Some (tt, mkSt (rec s) (os s) (trace s) (log s ++ [e])).

(** ** The calls to the operating system *)

Definition call_OpenFile : M unit := fun s =>
  let '(r, o) := OpenFile (path (rec s)) (os s) in
  Some (tt, mkSt (mkRecorderOutput (encoder (rec s)) (path (rec s)) r) o
              (trace s ++ [EvOpenFile (path (rec s)) r]) (log s)).

Definition call_close : M unit := fun s =>
  Some (tt, mkSt (rec s) (close (fd (rec s)) (os s))
              (trace s ++ [EvClose (fd (rec s))]) (log s)).

Definition call_RemoveFile : M unit := fun s =>
  Some (tt, mkSt (rec s) (RemoveFile (path (rec s)) (os s))
              (trace s ++ [EvRemoveFile (path (rec s))]) (log s)).

Definition call_write (data : list byte) : M Z := fun s =>
  let '(n, o) := write (fd (rec s)) data (os s) in
  Some (n, mkSt (rec s) o (trace s ++ [EvWrite (fd (rec s)) n]) (log s)).

(** ** The calls to the encoder *)

Definition with_encoder (e : Encoder) (ev : Event) (s : St) : St :=
  mkSt (mkRecorderOutput e (path (rec s)) (fd (rec s))) (os s)
    (trace s ++ [ev]) (log s).

Definition call_encoder_open (a : AudioFormat) : M bool := fun s =>
  let '(ok, e) := encoder_open (encoder (rec s)) a in
  Some (ok, with_encoder e (EvEncoderOpen ok) s).

Definition call_encoder_close : M unit := fun s =>
  Some (tt, with_encoder (encoder_close (encoder (rec s))) EvEncoderClose s).

Definition call_encoder_end : M bool := fun s =>
  let '(ok, e) := encoder_end (encoder (rec s)) in
  Some (ok, with_encoder e (EvEncoderEnd ok) s).

Definition call_encoder_pre_tag : M bool := fun s =>
  let '(ok, e) := encoder_pre_tag (encoder (rec s)) in
  Some (ok, with_encoder e (EvEncoderPreTag ok) s).

Definition call_encoder_tag (t : Tag) : M bool := fun s =>
  let '(ok, e) := encoder_tag (encoder (rec s)) t in
  Some (ok, with_encoder e (EvEncoderTag ok) s).

Definition call_encoder_write (data : list byte) : M bool := fun s =>
  let '(ok, e) := encoder_write (encoder (rec s)) data in
  Some (ok, with_encoder e (EvEncoderWrite ok) s).

Definition call_encoder_read (n : Z) : M (list byte) := fun s =>
  let '(data, e) := encoder_read (encoder (rec s)) n in
  Some (data, with_encoder e (EvEncoderRead (Z.of_nat (length data))) s).

(** ** The methods *)

(** [WriteToFile]: the loop around [write].  [data] is what is left
    between the pointers [data] and [end]; [EncoderToFile], its only
    caller, passes at least one byte, which is what the [assert] asks for. *)
Fixpoint WriteToFile_loop (fuel : nat) (data : list byte)
    : M (option Error) :=
  match fuel with
  | O => fun _ => None
  | S fuel' =>
      nbytes <- call_write data ;;
      if nbytes >? 0 then
        let data' := drop (Z.to_nat nbytes) data in
        if decide (data' = []) then ret None
        else WriteToFile_loop fuel' data'
      else if nbytes =? 0 then ret (Some WriteReturnedZero)
      else
        e <- get_errno ;;
        if e =? EINTR then WriteToFile_loop fuel' data
        else ret (Some (WriteFailed e))
  end.

(** Every turn of the loop that does not return uses up one entry of
    [faults]. *)
Definition WriteToFile (data : list byte) : M (option Error) :=
  fun s => WriteToFile_loop (S (length (faults (os s)))) data s.

(** [EncoderToFile]: read from the encoder until it has nothing left, and
    write everything into the file.  The [assert(fd >= 0)] is not part of
    the model: on a descriptor that is not open [write] fails with EBADF. *)
Fixpoint EncoderToFile_loop (fuel : nat) : M (option Error) :=
  match fuel with
  | O => fun _ => None
  | S fuel' =>
      data <- call_encoder_read 32768 ;;
      if decide (data = []) then ret None
      else
        r <- WriteToFile data ;;
        match r with
        | Some e => ret (Some e)
        | None => EncoderToFile_loop fuel'
        end
  end.

Definition EncoderToFile : M (option Error) :=
  fun s => EncoderToFile_loop (S (pending (encoder (rec s)))) s.

(** [Open]: [None] for [true], the error for [false].  The format that
    the encoder may adjust goes back to the caller and is not used here. *)
Definition Open (audio_format : AudioFormat) : M (option Error) :=
  call_OpenFile ;;
  d <- get_fd ;;
  if d <? 0 then
    e <- get_errno ;; ret (Some (CreateFailed e))
  else
    ok <- call_encoder_open audio_format ;;
    if negb ok then
      call_close ;; call_RemoveFile ;; ret (Some EncoderFailed)
    else
      r <- EncoderToFile ;;
      match r with
      | Some e =>
          call_encoder_close ;; call_close ;; call_RemoveFile ;;
          ret (Some e)
      | None => ret None
      end.

Definition Close : M unit :=
  ok <- call_encoder_end ;;
  (if ok then EncoderToFile ;; ret tt else ret tt) ;;
  call_encoder_close ;;
  call_close.

Definition SendTag (tag : Tag) : M unit :=
  ok <- call_encoder_pre_tag ;;
  if negb ok then LogError EncoderFailed
  else
    r <- EncoderToFile ;;
    match r with
    | Some e => LogError e
    | None =>
        ok' <- call_encoder_tag tag ;;
        if negb ok' then LogError EncoderFailed else ret tt
    end.

(** [Play]: the number of bytes consumed, and the error if there is
    one.  [size] is the length of [chunk]. *)
Definition Play (chunk : list byte) : M (Z * option Error) :=
  ok <- call_encoder_write chunk ;;
  if negb ok then ret (0, Some EncoderFailed)
  else
    r <- EncoderToFile ;;
    match r with
    | Some e => ret (0, Some e)
    | None => ret (Z.of_nat (length chunk), None)
    end.

(** ** What the methods are measured against *)

(** The events of a drain: reads from the encoder and writes to the file. *)
Definition transfer (ev : Event) : Prop :=
  match ev with
  | EvEncoderRead _ | EvWrite _ _ => True
  | _ => False
  end.

(** [drains s s']: [s'] comes from [s] by reading from the encoder and
    writing to the descriptor.  The recorder keeps its path and its
    descriptor, no descriptor is opened or closed, no file appears or
    disappears, only the file behind the descriptor changes, and nothing is
    logged. *)
Record drains (s s' : St) : Prop := mkDrains {
  dr_path : path (rec s') = path (rec s);
  dr_fd : fd (rec s') = fd (rec s);
  dr_fds : fds (os s') = fds (os s);
  dr_log : log s' = log s;
  dr_other : forall q,
    fds (os s) !! fd (rec s) <> Some q ->
    files (os s') !! q = files (os s) !! q;
  dr_dom : forall q,
    is_Some (files (os s') !! q) <-> is_Some (files (os s) !! q);
  dr_faults : (length (faults (os s')) <= length (faults (os s)))%nat;
  dr_trace : exists evs, trace s' = trace s ++ evs /\ Forall transfer evs;
}.

(** [undone s d s']: in [s'] the descriptor [d] that [Open] got in [s]
    is closed again, and the file it created at the path has been removed.
    The descriptor table is the one of [s]; so is the file system, but for
    the file at the path, which is gone whether or not it was there before
    the call.  Nothing is logged: the error goes back to the caller. *)
Record undone (s : St) (d : Z) (s' : St) : Prop := mkUndone {
  un_fds : fds (os s') = fds (os s);
  un_closed : fds (os s') !! d = None;
  un_files : files (os s') = delete (path (rec s)) (files (os s));
  un_removed : files (os s') !! path (rec s) = None;
  un_log : log s' = log s;
}.

(** Both steps of [Play] succeed: [encoder_write] returns true, and the
    drain that follows empties the encoder without a write error. *)
Definition Play_succeeds (chunk : list byte) (s : St) : Prop :=
  exists s1 s2,
    call_encoder_write chunk s = Some (true, s1) /\
    EncoderToFile s1 = Some (None, s2).

(** ** What reaches the file *)

(** What the encoder gives out when it is read until a read returns
    nothing, and the encoder after that. *)
Fixpoint flush_loop (fuel : nat) (e : Encoder) : list byte * Encoder :=
  match fuel with
  | O => ([], e)
  | S fuel' =>
      let '(data, e') := encoder_read e 32768 in
      if decide (data = []) then ([], e')
      else
        let '(rest, e'') := flush_loop fuel' e' in
        (data ++ rest, e'')
  end.

Definition flush (e : Encoder) : list byte * Encoder :=
  flush_loop (S (pending e)) e.

(** The sink of [s'] is that of [s]: the same path behind the same
    descriptor, the same descriptors open, the same files in place. *)
Record same_sink (s s' : St) : Prop := mkSameSink {
  ss_path : path (rec s') = path (rec s);
  ss_fd : fd (rec s') = fd (rec s);
  ss_fds : fds (os s') = fds (os s);
  ss_dom : forall q,
    is_Some (files (os s') !! q) <-> is_Some (files (os s) !! q);
}.

(** [recorder_output_send_tag], the entry of the plugin table that hands
    a tag to [SendTag]. *)
Definition recorder_output_send_tag (tag : Tag) : M unit := SendTag tag.

(** What the output thread asks of a recorder between [Open] and [Close]:
    the entries [Play] and [send_tag] of [recorder_output_plugin].  What
    [Play] returns is the caller's to look at. *)
Inductive Call :=
| CallPlay (chunk : list byte)
| CallSendTag (t : Tag).

Definition call (c : Call) : M unit :=
  match c with
  | CallPlay chunk => bind (Play chunk) (fun _ => ret tt)
  | CallSendTag t => recorder_output_send_tag t
  end.

Fixpoint calls (cs : list Call) : M unit :=
  match cs with
  | [] => ret tt
  | c :: cs' => bind (call c) (fun _ => calls cs')
  end.

End Output.

(** ** A small encoder to run the recorder on *)

(** The toy encoder passes the PCM bytes through behind a two byte header;
    its switches make a call fail. *)
Record ToyEncoder := mkToyEncoder {
  out : list byte;
  fail_open : bool;
  fail_write : bool;
  fail_tag : bool;
}.

Definition toy_set_out (bs : list byte) (e : ToyEncoder) : ToyEncoder :=
  mkToyEncoder bs (fail_open e) (fail_write e) (fail_tag e).

Lemma toy_read_pending (e : ToyEncoder) (n : Z) :
  take (Z.to_nat n) (out e) <> [] ->
  (length (out (toy_set_out (drop (Z.to_nat n) (out e)) e)) < length (out e))%nat.
Proof.
  simpl. rewrite length_drop. intros Hne.
  destruct (Z.to_nat n); [done |]. destruct (out e); [done |]. simpl. lia.
Qed.

Definition toy_encoder : EncoderPlugin := {|
  Encoder := ToyEncoder;
  encoder_open e _ :=
    if fail_open e then (false, e) else (true, toy_set_out [x4f; x67] e);
  encoder_close e := toy_set_out [] e;
  encoder_end e := (true, e);
  encoder_pre_tag e := (true, e);
  encoder_tag e _ := (negb (fail_tag e), e);
  encoder_write e data :=
    if fail_write e then (false, e) else (true, toy_set_out (out e ++ data) e);
  encoder_read e n :=
    (take (Z.to_nat n) (out e), toy_set_out (drop (Z.to_nat n) (out e)) e);
  pending e := length (out e);
  encoder_read_pending := toy_read_pending;
|}.

Section Samples.
#[local] Existing Instance toy_encoder.

(** A recorder that is not open, with one other file on disk and one other
    descriptor in use. *)
Definition closed_sink (e : ToyEncoder) (fs : list Fault) : St :=
  mkSt (mkRecorderOutput e "/tmp/out.ogg" (-1))
    (mkOS {["/etc/mpd.conf" := [x23]]} {[0 := "/etc/mpd.conf"]} 0 fs)
    [] [].

(** The recorder after a successful [Open]. *)
Definition open_sink (e : ToyEncoder) (fs : list Fault) : St :=
  mkSt (mkRecorderOutput e "/tmp/out.ogg" 1)
    (mkOS {["/etc/mpd.conf" := [x23]; "/tmp/out.ogg" := [x4f; x67]]}
       {[0 := "/etc/mpd.conf"; 1 := "/tmp/out.ogg"]} 0 fs)
    [] [].

Definition no_tag : Tag := mkTag 0 [].

(** The encoder in working order, and with one call broken. *)
Definition sound : ToyEncoder := mkToyEncoder [] false false false.
Definition no_open : ToyEncoder := mkToyEncoder [] true false false.
Definition no_write : ToyEncoder := mkToyEncoder [] false true false.
Definition no_tagging : ToyEncoder := mkToyEncoder [] false false true.

Definition cd_format : AudioFormat := mkAudioFormat 16 2 44100.

End Samples.

(** ** Facts about the operating system *)

Lemma fresh_Z_nonneg (l : list Z) : 0 <= fresh l.
Proof.
  unfold fresh, infinite_fresh. simpl.
  induction l as [|x l IH]; simpl; lia.
Qed.

Lemma fresh_fd_nonneg (t : gmap Z string) : 0 <= fresh (dom t).
Proof. apply fresh_Z_nonneg. Qed.

Lemma fresh_fd_unused (t : gmap Z string) : t !! fresh (dom t) = None.
Proof. apply not_elem_of_dom, is_fresh. Qed.

Lemma append_other p q data (fs : gmap string (list byte)) :
  p <> q -> append p data fs !! q = fs !! q.
Proof.
  intros Hne. unfold append. destruct (fs !! p); [| done].
  by rewrite lookup_insert_ne.
Qed.

Lemma append_dom p q data (fs : gmap string (list byte)) :
  is_Some (append p data fs !! q) <-> is_Some (fs !! q).
Proof.
  unfold append. destruct (fs !! p) eqn:Hp; [| done].
  destruct (decide (p = q)) as [->|Hne].
  - rewrite lookup_insert_eq, Hp. split; eauto.
  - by rewrite lookup_insert_ne.
Qed.

(** What one [write] leaves alone, and when it uses up a fault. *)
Lemma write_frame d data (o : OS) :
  fds (write d data o).2 = fds o /\
  (forall q, fds o !! d <> Some q ->
     files (write d data o).2 !! q = files o !! q) /\
  (forall q, is_Some (files (write d data o).2 !! q) <->
     is_Some (files o !! q)) /\
  (length (faults (write d data o).2) <= length (faults o))%nat.
Proof.
  unfold write. destruct (fds o !! d) as [p|] eqn:Hd; simpl; [| done].
  assert (forall q, Some p <> Some q -> p <> q) as Hpq by congruence.
  destruct (faults o) as [|[| n | | e] fs]; simpl;
    repeat split; eauto using append_other; try apply append_dom; lia.
Qed.

Lemma write_progress d data (o : OS) :
  ((write d data o).1 > 0 /\
   drop (Z.to_nat (write d data o).1) data <> [] \/
   (write d data o).1 < 0 /\ errno (write d data o).2 = EINTR) ->
  (length (faults (write d data o).2) < length (faults o))%nat.
Proof.
  unfold write. destruct (fds o !! d) as [p|] eqn:Hd; simpl.
  - destruct (faults o) as [|[| n | | e] fs]; simpl; try lia.
    intros [[_ Hdrop]|[? _]]; [| lia].
    rewrite Nat2Z.id, drop_all in Hdrop. done.
  - intros [[? _]|[_ ?]]; [lia | done].
Qed.

(** ** One write *)

Lemma write_appends d data (o : OS) p old :
  fds o !! d = Some p -> files o !! p = Some old ->
  (write d data o).1 <= Z.of_nat (length data) /\
  files (write d data o).2 !! p =
    Some (old ++ take (Z.to_nat (write d data o).1) data) /\
  ((write d data o).1 < 0 -> faults o <> []) /\
  (faults o = [] ->
   (write d data o).1 = Z.of_nat (length data) /\
   faults (write d data o).2 = []).
Proof.
  intros Hd Hp. unfold write. rewrite Hd.
  assert (forall x, append p x (files o) !! p = Some (old ++ x)) as Happ.
  { intros x. unfold append. by rewrite Hp, lookup_insert_eq. }
  destruct (faults o) as [|[| n | | e] fs]; simpl;
    rewrite ?Happ, ?Nat2Z.id, ?firstn_all, ?app_nil_r;
    repeat split; try done; try lia.
Qed.

Section OutputFacts.
Context {P : EncoderPlugin}.

(** ** Draining the encoder *)



Lemma drains_refl (s : St) : drains s s.
Proof.
  split; try done. exists []. by rewrite app_nil_r.
Qed.

Lemma drains_trans (s1 s2 s3 : St) :
  drains s1 s2 -> drains s2 s3 -> drains s1 s3.
Proof.
  intros [Hp1 Hd1 Hf1 Hl1 Ho1 Hm1 Hn1 (evs1 & Ht1 & He1)]
         [Hp2 Hd2 Hf2 Hl2 Ho2 Hm2 Hn2 (evs2 & Ht2 & He2)].
  split; try congruence.
  - intros q Hq. rewrite Ho2, Ho1; [done | done |]. by rewrite Hf1, Hd1.
  - intros q. by rewrite Hm2, Hm1.
  - lia.
  - exists (evs1 ++ evs2). rewrite Ht2, Ht1, app_assoc.
    split; [done |]. by apply Forall_app.
Qed.

Lemma call_write_drains data (s : St) :
  exists n s', call_write data s = Some (n, s') /\
    n = (write (fd (rec s)) data (os s)).1 /\
    os s' = (write (fd (rec s)) data (os s)).2 /\
    rec s' = rec s /\ drains s s'.
Proof.
  unfold call_write.
  destruct (write_frame (fd (rec s)) data (os s)) as (Hfds & Hoth & Hdom & Hlen).
  destruct (write (fd (rec s)) data (os s)) as [n o]; simpl in *.
  eexists _, _. split; [done |]. do 3 (split; [done |]).
  split; simpl; try done.
  eexists. split; [done |]. by repeat constructor.
Qed.

(** [WriteToFile] returns. *)
Lemma WriteToFile_loop_returns fuel data (s : St) :
  (length (faults (os s)) < fuel)%nat ->
  exists r s', WriteToFile_loop fuel data s = Some (r, s') /\
    rec s' = rec s /\ drains s s'.
Proof.
  revert data s. induction fuel as [|fuel IH]; intros data s Hfuel; [lia |].
  simpl. unfold bind at 1.
  destruct (call_write_drains data s) as (n & s1 & -> & Hn & Hos & Hrec & Hdr).
  pose proof (write_progress (fd (rec s)) data (os s)) as Hprog.
  rewrite <- Hn, <- Hos in Hprog.
  destruct (Z.gtb_spec n 0) as [Hpos|Hnpos].
  - destruct (decide (drop (Z.to_nat n) data = [])) as [Hend|Hmore].
    + eexists _, _. split; [done |]. done.
    + destruct (IH (drop (Z.to_nat n) data) s1) as (r & s2 & Hrun & Hrec2 & Hdr2).
      { assert (length (faults (os s1)) < length (faults (os s)))%nat; [| lia].
        apply Hprog. left. split; [lia | done]. }
      exists r, s2. split; [done |]. split; [congruence |].
      by apply (drains_trans s s1 s2).
  - destruct (Z.eqb_spec n 0) as [Hzero|Hneg].
    + eexists _, _. split; [done |]. done.
    + unfold bind, get_errno.
      destruct (Z.eqb_spec (errno (os s1)) EINTR) as [Hintr|Hother].
      * destruct (IH data s1) as (r & s2 & Hrun & Hrec2 & Hdr2).
        { assert (length (faults (os s1)) < length (faults (os s)))%nat; [| lia].
          apply Hprog. right. split; [lia | done]. }
        exists r, s2. split; [done |]. split; [congruence |].
        by apply (drains_trans s s1 s2).
      * eexists _, _. split; [done |]. done.
Qed.

Lemma WriteToFile_returns data (s : St) :
  exists r s', WriteToFile data s = Some (r, s') /\
    rec s' = rec s /\ drains s s'.
Proof. apply WriteToFile_loop_returns. lia. Qed.

Lemma call_encoder_read_drains n (s : St) :
  exists s', call_encoder_read n s = Some ((encoder_read (encoder (rec s)) n).1, s') /\
    encoder (rec s') = (encoder_read (encoder (rec s)) n).2 /\
    drains s s'.
Proof.
  unfold call_encoder_read.
  destruct (encoder_read (encoder (rec s)) n) as [data e]; simpl.
  eexists. split; [done |]. split; [done |].
  split; simpl; try done.
  eexists. split; [done |]. by repeat constructor.
Qed.

(** [EncoderToFile] returns. *)
Lemma EncoderToFile_loop_returns fuel (s : St) :
  (pending (encoder (rec s)) < fuel)%nat ->
  exists r s', EncoderToFile_loop fuel s = Some (r, s') /\ drains s s'.
Proof.
  revert s. induction fuel as [|fuel IH]; intros s Hfuel; [lia |].
  simpl. unfold bind at 1.
  destruct (call_encoder_read_drains 32768 s) as (s1 & -> & Henc & Hdr).
  pose proof (encoder_read_pending (encoder (rec s)) 32768) as Hless.
  destruct (decide ((encoder_read (encoder (rec s)) 32768).1 = [])) as [Hnil|Hdata].
  - eexists _, _. split; [done |]. done.
  - unfold bind.
    destruct (WriteToFile_returns (encoder_read (encoder (rec s)) 32768).1 s1)
      as (r & s2 & -> & Hrec & Hdr2).
    destruct r as [e|].
    + eexists _, _. split; [done |]. by apply (drains_trans s s1 s2).
    + destruct (IH s2) as (r & s3 & Hrun & Hdr3).
      { rewrite Hrec, Henc. specialize (Hless Hdata). lia. }
      exists r, s3. split; [done |].
      apply (drains_trans s s2 s3); [| done]. by apply (drains_trans s s1 s2).
Qed.

Lemma EncoderToFile_returns (s : St) :
  exists r s', EncoderToFile s = Some (r, s') /\ drains s s'.
Proof. apply EncoderToFile_loop_returns. lia. Qed.


(** ** Open *)


Lemma OpenFile_cases p (o : OS) :
  ((OpenFile p o).1 < 0 /\
   files (OpenFile p o).2 = files o /\ fds (OpenFile p o).2 = fds o) \/
  (0 <= (OpenFile p o).1 /\
   fds o !! (OpenFile p o).1 = None /\
   files (OpenFile p o).2 = <[p := []]> (files o) /\
   fds (OpenFile p o).2 = <[(OpenFile p o).1 := p]> (fds o)).
Proof.
  unfold OpenFile.
  destruct (faults o) as [|[| n | | e] fs]; simpl;
    try (right; split; [apply fresh_fd_nonneg |];
         split; [apply fresh_fd_unused | done]).
  left. split; [lia | done].
Qed.

(** C7: [Open] returns, and it fails exactly when one of its three steps
    fails, with the error of that step.  When [OpenFile] fails, nothing has
    been done and nothing is undone.  When [encoder_open] fails, or when
    the drain of the header fails, the steps before are undone: the
    encoder, if it was opened, is closed, the descriptor is closed and the
    file is removed, in this order; the descriptor table is what it was
    before the call and no file is left at the path.  When the three steps
    succeed, [Open] reports success. *)
Theorem Open_failure_rolls_back (a : AudioFormat) (s : St) :
  exists s1,
    call_OpenFile s = Some (tt, s1) /\
    fd (rec s1) = (OpenFile (path (rec s)) (os s)).1 /\
    trace s1 = trace s ++ [EvOpenFile (path (rec s)) (fd (rec s1))] /\
    (fd (rec s1) < 0 ->
       Open a s = Some (Some (CreateFailed (errno (os s1))), s1) /\
       fds (os s1) = fds (os s) /\ files (os s1) = files (os s) /\
       log s1 = log s) /\
    (0 <= fd (rec s1) ->
       exists ok s2,
         call_encoder_open a s1 = Some (ok, s2) /\
         ok = (encoder_open (encoder (rec s)) a).1 /\
         trace s2 = trace s1 ++ [EvEncoderOpen ok] /\
         (ok = false ->
            exists s',
              Open a s = Some (Some EncoderFailed, s') /\
              trace s' =
                trace s2 ++
                  [EvClose (fd (rec s1)); EvRemoveFile (path (rec s))] /\
              undone s (fd (rec s1)) s') /\
         (ok = true ->
            exists r s3 evs,
              EncoderToFile s2 = Some (r, s3) /\
              trace s3 = trace s2 ++ evs /\ Forall transfer evs /\
              match r with
              | Some e =>
                  exists s',
                    Open a s = Some (Some e, s') /\
                    trace s' =
                      trace s3 ++
                        [EvEncoderClose; EvClose (fd (rec s1));
                         EvRemoveFile (path (rec s))] /\
                    undone s (fd (rec s1)) s'
              | None => Open a s = Some (None, s3)
              end)).
Proof.
  remember (Open a s) as res eqn:HO.
  unfold Open, bind, call_OpenFile, get_fd, get_errno in HO; simpl in HO.
  unfold call_OpenFile.
  destruct (OpenFile_cases (path (rec s)) (os s))
    as [(Hr & Hfiles & Hfds)|(Hr & Hfree & Hfiles & Hfds)];
    destruct (OpenFile (path (rec s)) (os s)) as [r o]; simpl in *.
  - (* the file is not created *)
    destruct (Z.ltb_spec r 0); [| lia]. subst res.
    eexists. split; [done |]. simpl. do 2 (split; [done |]).
    split; [done | lia].
  - destruct (Z.ltb_spec r 0); [lia |].
    eexists. split; [done |]. simpl. do 2 (split; [done |]).
    split; [lia |]. intros _.
    unfold call_encoder_open in *; simpl in *.
    destruct (encoder_open (encoder (rec s)) a) as [ok enc]; simpl in *.
    eexists _, _. split; [done |]. simpl. do 2 (split; [done |]).
    destruct ok; simpl in *.
    + (* the encoder is open: drain the header *)
      split; [done |]. intros _.
      match type of HO with context [EncoderToFile ?s1] =>
        destruct (EncoderToFile_returns s1) as (r' & s2 & Hrun & Hdr)
      end.
      rewrite Hrun in HO.
      destruct Hdr as [Hp Hd Hf Hl Ho Hm Hn (evs & Ht & He)]; simpl in *.
      exists r', s2, evs.
      split; [exact Hrun |]. split; [exact Ht |]. split; [exact He |].
      destruct r' as [err|]; subst res; [| done].
      eexists. split; [reflexivity |]. simpl. rewrite Hp, Hd.
      split; [by rewrite <- !app_assoc |].
      assert (delete r (fds (os s2)) = fds (os s)) as Hclosed.
      { rewrite Hf, Hfds. by apply delete_insert_id. }
      assert (delete (path (rec s)) (files (os s2)) =
              delete (path (rec s)) (files (os s))) as Hgone.
      { apply map_eq. intros q.
        destruct (decide (path (rec s) = q)) as [<-|Hq].
        - by rewrite !lookup_delete_eq.
        - rewrite !lookup_delete_ne by done.
          rewrite Ho, Hfiles, lookup_insert_ne; [done.. |].
          rewrite Hfds, lookup_insert_eq. congruence. }
      split; simpl; try done.
      * by rewrite Hclosed.
      * by rewrite lookup_delete_eq.
    + (* the encoder does not open *)
      split; [| done]. intros _. subst res.
      eexists. split; [reflexivity |]. simpl.
      split; [by rewrite <- !app_assoc |].
      split; simpl; rewrite ?Hfds, ?Hfiles, ?lookup_delete_eq; try done.
      * by apply delete_insert_id.
      * apply delete_insert_eq.
Qed.

(** ** Play *)


(** [Play] returns: the length of the chunk and no error when both steps
    succeed, and otherwise 0 and the error.  It opens and closes
    nothing. *)
Lemma Play_returns (chunk : list byte) (s : St) :
  exists n err s', Play chunk s = Some ((n, err), s') /\
    (Play_succeeds chunk s /\ n = Z.of_nat (length chunk) /\ err = None \/
     ~ Play_succeeds chunk s /\ n = 0 /\ is_Some err) /\
    fd (rec s') = fd (rec s) /\ fds (os s') = fds (os s).
Proof.
  unfold Play, Play_succeeds, bind, call_encoder_write.
  destruct (encoder_write (encoder (rec s)) chunk) as [ok enc]; simpl.
  destruct ok; simpl.
  - match goal with |- context [EncoderToFile ?s1] =>
      destruct (EncoderToFile_returns s1) as (res & s2 & Hrun & Hdr)
    end.
    rewrite Hrun. destruct Hdr as [_ Hd Hf _ _ _ _ _]; simpl in *.
    destruct res as [e|]; eexists _, _, _; (split; [done |]);
      (split; [| done]).
    + right. split; [| by eauto].
      intros (s1 & s2' & [= <-] & Hrun'). congruence.
    + left. split; [| done]. eexists _, _. split; [done |]. apply Hrun.
  - eexists _, _, _. split; [done |]. split; [| done].
    right. split; [| by eauto]. intros (s1 & s2 & [=] & _).
Qed.

(** C8 (as amended): [Play] returns the length of the input when the
    encoder write and the full drain both succeed, and 0 when either of
    them fails.  So for an input that is not empty the value returned is
    the length of the input if and only if both succeed; for an empty input
    the value returned is 0, the length of the input, in both cases. *)
Theorem Play_return_value (chunk : list byte) (s : St) :
  exists n err s', Play chunk s = Some ((n, err), s') /\
    (Play_succeeds chunk s -> n = Z.of_nat (length chunk) /\ err = None) /\
    (~ Play_succeeds chunk s -> n = 0 /\ is_Some err) /\
    (chunk <> [] -> n = Z.of_nat (length chunk) <-> Play_succeeds chunk s).
Proof.
  destruct (Play_returns chunk s) as (n & err & s' & Hrun & Hcases & _).
  exists n, err, s'. split; [done |].
  destruct Hcases as [(Hok & -> & ->)|(Hfail & -> & Herr)].
  - repeat split; try done.
  - split; [done |]. split; [done |]. intros Hne. split; [| done].
    destruct chunk; [done |]. simpl. lia.
Qed.

(** ** What reaches the file *)

(** [WriteToFile], with the file in view. *)
Lemma WriteToFile_loop_appends fuel data (s : St) p old :
  (length (faults (os s)) < fuel)%nat ->
  data <> [] ->
  fds (os s) !! fd (rec s) = Some p -> files (os s) !! p = Some old ->
  exists r s', WriteToFile_loop fuel data s = Some (r, s') /\
    rec s' = rec s /\ fds (os s') = fds (os s) /\
    (faults (os s) = [] -> r = None /\ faults (os s') = []) /\
    match r with
    | None => files (os s') !! p = Some (old ++ data)
    | Some e =>
        e <> WriteFailed EINTR /\
        exists k, (k < length data)%nat /\
          files (os s') !! p = Some (old ++ take k data)
    end.
Proof.
  revert data s old.
  induction fuel as [|fuel IH]; intros data s old Hfuel Hdata Hd Hp; [lia |].
  simpl. unfold bind at 1.
  destruct (call_write_drains data s) as (n & s1 & -> & Hn & Hos & Hrec & Hdr).
  pose proof (write_progress (fd (rec s)) data (os s)) as Hprog.
  destruct (write_appends (fd (rec s)) data (os s) p old Hd Hp)
    as (Hle & Hfile & Hneg & Hclean).
  rewrite <- Hn in Hprog, Hle, Hfile, Hneg, Hclean.
  rewrite <- Hos in Hprog, Hfile, Hclean.
  destruct Hdr as [_ _ Hfds _ _ _ _ _].
  assert (0 < length data)%nat as Hlen by (destruct data; [done | simpl; lia]).
  destruct (Z.gtb_spec n 0) as [Hpos|Hnpos].
  - destruct (decide (drop (Z.to_nat n) data = [])) as [Hend|Hmore].
    + eexists _, _. split; [done |]. do 2 (split; [done |]).
      split; [intros Hf; split; [done | by apply Hclean] |].
      rewrite Hfile. do 2 f_equal. apply take_ge.
      by apply drop_nil_inv.
    + destruct (IH (drop (Z.to_nat n) data) s1
                  (old ++ take (Z.to_nat n) data))
        as (r & s2 & Hrun & Hrec2 & Hfds2 & Hclean2 & Hres);
        [| done | by rewrite Hfds, Hrec | done |].
      { assert (length (faults (os s1)) < length (faults (os s)))%nat; [| lia].
        apply Hprog. left. split; [lia | done]. }
      exists r, s2. split; [done |].
      split; [congruence |]. split; [congruence |].
      split.
      { intros Hf. destruct (Hclean Hf) as [Hall _].
        rewrite Hall, Nat2Z.id, drop_all in Hmore. done. }
      destruct r as [e|].
      * destruct Hres as (He & k & Hk & Hfile2). split; [done |].
        exists (Z.to_nat n + k)%nat. rewrite length_drop in Hk.
        split; [lia |]. by rewrite Hfile2, <- app_assoc, take_take_drop.
      * by rewrite Hres, <- app_assoc, take_drop.
  - destruct (Z.eqb_spec n 0) as [Hzero|Hnz].
    + eexists _, _. split; [done |]. do 2 (split; [done |]).
      split; [intros Hf; destruct (Hclean Hf); lia |].
      split; [done |]. exists 0%nat. split; [done |].
      rewrite Hfile, Hzero. done.
    + unfold bind, get_errno.
      assert (files (os s1) !! p = Some old) as Hp1.
      { rewrite Hfile. replace (Z.to_nat n) with 0%nat by lia.
        by rewrite take_0, app_nil_r. }
      destruct (Z.eqb_spec (errno (os s1)) EINTR) as [Hintr|Hother].
      * destruct (IH data s1 old)
          as (r & s2 & Hrun & Hrec2 & Hfds2 & Hclean2 & Hres);
          [| done | by rewrite Hfds, Hrec | done |].
        { assert (length (faults (os s1)) < length (faults (os s)))%nat; [| lia].
          apply Hprog. right. split; [lia | done]. }
        exists r, s2. split; [done |].
        split; [congruence |]. split; [congruence |].
        split; [| done].
        intros Hf. destruct (Hclean Hf). lia.
      * eexists _, _. split; [done |]. do 2 (split; [done |]).
        split; [intros Hf; destruct (Hclean Hf); lia |].
        split; [congruence |]. exists 0%nat. split; [done |].
        by rewrite Hp1, take_0, app_nil_r.
Qed.

(** X11: [WriteToFile] appends the bytes to the file in order.  When it
    returns true, all of them are at the end of the file; when it fails, a
    proper prefix of them is; and an interrupted write (EINTR) is tried
    again, never reported. *)
Theorem WriteToFile_appends data (s : St) p old :
  data <> [] ->
  fds (os s) !! fd (rec s) = Some p -> files (os s) !! p = Some old ->
  exists r s', WriteToFile data s = Some (r, s') /\
    match r with
    | None => files (os s') !! p = Some (old ++ data)
    | Some e =>
        e <> WriteFailed EINTR /\
        exists k, (k < length data)%nat /\
          files (os s') !! p = Some (old ++ take k data)
    end.
Proof.
  intros Hdata Hd Hp.
  destruct (WriteToFile_loop_appends (S (length (faults (os s)))) data s p old)
    as (r & s' & Hrun & _ & _ & _ & Hres); [lia | done..|].
  by exists r, s'.
Qed.

(** ** The drain *)

Lemma flush_loop_enough fuel1 fuel2 (e : Encoder) :
  (pending e < fuel1)%nat -> (pending e < fuel2)%nat ->
  flush_loop fuel1 e = flush_loop fuel2 e.
Proof.
  revert fuel2 e.
  induction fuel1 as [|fuel1 IH]; intros fuel2 e H1 H2; [lia |].
  destruct fuel2 as [|fuel2]; [lia |]. simpl.
  pose proof (encoder_read_pending e 32768) as Hless.
  destruct (encoder_read e 32768) as [data e']. simpl in Hless.
  destruct (decide (data = [])) as [|Hdata]; [done |].
  specialize (Hless Hdata). by rewrite (IH fuel2) by lia.
Qed.

Lemma flush_loop_fuel fuel (e : Encoder) :
  (pending e < fuel)%nat -> flush_loop fuel e = flush e.
Proof. intros Hfuel. apply flush_loop_enough; lia. Qed.

Lemma call_encoder_read_run n (s : St) :
  call_encoder_read n s =
  Some ((encoder_read (encoder (rec s)) n).1,
        with_encoder (encoder_read (encoder (rec s)) n).2
          (EvEncoderRead
             (Z.of_nat (length (encoder_read (encoder (rec s)) n).1))) s).
Proof.
  unfold call_encoder_read. by destruct (encoder_read (encoder (rec s)) n).
Qed.

(** [EncoderToFile], with the file in view. *)
Lemma EncoderToFile_loop_appends fuel (s : St) p old :
  (pending (encoder (rec s)) < fuel)%nat ->
  fds (os s) !! fd (rec s) = Some p -> files (os s) !! p = Some old ->
  exists r s', EncoderToFile_loop fuel s = Some (r, s') /\
    (faults (os s) = [] -> r = None /\ faults (os s') = []) /\
    match r with
    | None =>
        files (os s') !! p = Some (old ++ (flush (encoder (rec s))).1) /\
        encoder (rec s') = (flush (encoder (rec s))).2
    | Some e =>
        e <> WriteFailed EINTR /\
        exists k, (k < length (flush (encoder (rec s))).1)%nat /\
          files (os s') !! p = Some (old ++ take k (flush (encoder (rec s))).1)
    end.
Proof.
  revert s old. induction fuel as [|fuel IH]; intros s old Hfuel Hd Hp; [lia |].
  rewrite <- (flush_loop_fuel (S fuel)) by done.
  simpl. unfold bind at 1.
  rewrite call_encoder_read_run.
  pose proof (encoder_read_pending (encoder (rec s)) 32768) as Hless.
  set (s1 := with_encoder _ _ s).
  assert (os s1 = os s) as Hos1 by done.
  assert (fd (rec s1) = fd (rec s)) as Hfd1 by done.
  assert (fds (os s1) = fds (os s)) as Hfds1 by done.
  assert (encoder (rec s1) = (encoder_read (encoder (rec s)) 32768).2)
    as Henc by done.
  clearbody s1.
  destruct (encoder_read (encoder (rec s)) 32768) as [data e1] eqn:Hread.
  simpl in *.
  destruct (decide (data = [])) as [Hnil|Hdata].
  - eexists _, _. split; [done |]. rewrite Hos1.
    split; [done |]. by rewrite app_nil_r.
  - unfold bind.
    destruct (WriteToFile_loop_appends (S (length (faults (os s1)))) data s1 p old)
      as (r & s2 & Hrun & Hrec & Hfds2 & Hclean2 & Hres);
      [lia | done | by rewrite Hfds1, Hfd1 | by rewrite Hos1 |].
    unfold WriteToFile. rewrite Hrun.
    destruct r as [e|].
    + eexists _, _. split; [done |].
      split; [intros Hf; rewrite Hos1 in Hclean2; by destruct (Hclean2 Hf) |].
      destruct Hres as (He & k & Hk & Hfile). split; [done |].
      destruct (flush_loop fuel e1) as [rest e2].
      exists k. simpl. rewrite length_app. split; [lia |].
      by rewrite take_app_le by lia.
    + destruct (IH s2 (old ++ data))
        as (r & s3 & Hrun3 & Hclean3 & Hres3);
        [| by rewrite Hfds2, Hrec, Hfds1, Hfd1 | done |].
      { rewrite Hrec, Henc. specialize (Hless Hdata). lia. }
      exists r, s3. split; [done |].
      split.
      { intros Hf. rewrite Hos1 in Hclean2. destruct (Hclean2 Hf) as [_ Hf2].
        by apply Hclean3. }
      rewrite Hrec, Henc in Hres3.
      rewrite <- (flush_loop_fuel fuel) in Hres3
        by (specialize (Hless Hdata); lia).
      destruct (flush_loop fuel e1) as [rest e2]. simpl in *.
      destruct r as [e|].
      * destruct Hres3 as (He & k & Hk & Hfile). split; [done |].
        exists (length data + k)%nat. rewrite length_app. split; [lia |].
        by rewrite take_app_add, Hfile, <- app_assoc.
      * destruct Hres3 as [Hfile Henc3]. by rewrite Hfile, <- app_assoc.
Qed.

(** X12: [EncoderToFile] writes what the encoder has pending, in the
    order in which the encoder gives it out: all of it when it returns true,
    a proper prefix of it when a write fails. *)
Theorem EncoderToFile_appends (s : St) p old :
  fds (os s) !! fd (rec s) = Some p -> files (os s) !! p = Some old ->
  exists r s', EncoderToFile s = Some (r, s') /\
    match r with
    | None =>
        files (os s') !! p = Some (old ++ (flush (encoder (rec s))).1) /\
        encoder (rec s') = (flush (encoder (rec s))).2
    | Some e =>
        e <> WriteFailed EINTR /\
        exists k, (k < length (flush (encoder (rec s))).1)%nat /\
          files (os s') !! p = Some (old ++ take k (flush (encoder (rec s))).1)
    end.
Proof.
  intros Hd Hp.
  destruct (EncoderToFile_loop_appends (S (pending (encoder (rec s)))) s p old)
    as (r & s' & Hrun & _ & Hres); [lia | done..|].
  by exists r, s'.
Qed.

(** With no fault to come the drain goes through. *)
Lemma EncoderToFile_clean (s : St) p old :
  faults (os s) = [] ->
  fds (os s) !! fd (rec s) = Some p -> files (os s) !! p = Some old ->
  exists s', EncoderToFile s = Some (None, s') /\
    files (os s') !! p = Some (old ++ (flush (encoder (rec s))).1) /\
    encoder (rec s') = (flush (encoder (rec s))).2 /\
    faults (os s') = [] /\ drains s s'.
Proof.
  intros Hf Hd Hp.
  destruct (EncoderToFile_loop_appends (S (pending (encoder (rec s)))) s p old)
    as (r & s' & Hrun & Hclean & Hres); [lia | done..|].
  destruct (Hclean Hf) as [-> Hf']. destruct Hres as [Hfile Henc].
  destruct (EncoderToFile_returns s) as (r' & s'' & Hrun' & Hdr).
  unfold EncoderToFile in *. rewrite Hrun in Hrun'. injection Hrun' as <- <-.
  by exists s'.
Qed.

(** ** Keeping the sink *)

Lemma same_sink_refl (s : St) : same_sink s s.
Proof. by split. Qed.

Lemma same_sink_trans (s1 s2 s3 : St) :
  same_sink s1 s2 -> same_sink s2 s3 -> same_sink s1 s3.
Proof.
  intros [Hp1 Hd1 Hf1 Hm1] [Hp2 Hd2 Hf2 Hm2].
  split; try congruence. intros q. by rewrite Hm2.
Qed.

Lemma drains_same_sink (s s' : St) : drains s s' -> same_sink s s'.
Proof. intros [? ? ? _ _ ? _ _]. by split. Qed.

Lemma Play_same_sink chunk (s : St) :
  exists res s', Play chunk s = Some (res, s') /\ same_sink s s'.
Proof.
  unfold Play, bind, call_encoder_write.
  destruct (encoder_write (encoder (rec s)) chunk) as [ok enc]; simpl.
  destruct ok; simpl; [| by eexists _, _].
  match goal with |- context [EncoderToFile ?s1] =>
    destruct (EncoderToFile_returns s1) as (res & s2 & -> & Hdr)
  end.
  apply drains_same_sink in Hdr. destruct Hdr as [? ? ? ?]; simpl in *.
  destruct res; eexists _, _; (split; [done |]); by split.
Qed.

Lemma SendTag_same_sink t (s : St) :
  exists s', SendTag t s = Some (tt, s') /\ same_sink s s'.
Proof.
  unfold SendTag, bind, call_encoder_pre_tag, LogError.
  destruct (encoder_pre_tag (encoder (rec s))) as [ok enc]; simpl.
  destruct ok; simpl; [| by eexists].
  match goal with |- context [EncoderToFile ?s1] =>
    destruct (EncoderToFile_returns s1) as (res & s2 & -> & Hdr)
  end.
  apply drains_same_sink in Hdr. destruct Hdr as [? ? ? ?]; simpl in *.
  destruct res; [by eexists |].
  unfold call_encoder_tag.
  destruct (encoder_tag (encoder (rec s2)) t) as [ok' enc']; simpl.
  destruct ok'; simpl; by eexists.
Qed.

Lemma calls_same_sink cs (s : St) :
  exists s', calls cs s = Some (tt, s') /\ same_sink s s'.
Proof.
  revert s. induction cs as [|c cs IH]; intros s.
  - exists s. split; [done | apply same_sink_refl].
  - simpl. unfold bind at 1.
    assert (exists s1, call c s = Some (tt, s1) /\ same_sink s s1)
      as (s1 & -> & Hs1).
    { destruct c as [chunk|t]; simpl.
      - unfold bind.
        destruct (Play_same_sink chunk s) as (res & s1 & -> & Hs1).
        by exists s1.
      - apply SendTag_same_sink. }
    destruct (IH s1) as (s2 & Hrun & Hs2).
    exists s2. split; [done |]. by apply (same_sink_trans s s1 s2).
Qed.

(** ** SendTag *)

(** [EncoderToFile], with all that is known of it: it returns, it is a
    drain, and on an open sink the file shows what has been written. *)
Lemma EncoderToFile_run (s : St) :
  exists r s', EncoderToFile s = Some (r, s') /\ drains s s' /\
    forall p old,
      fds (os s) !! fd (rec s) = Some p -> files (os s) !! p = Some old ->
      (faults (os s) = [] -> r = None /\ faults (os s') = []) /\
      match r with
      | None =>
          files (os s') !! p = Some (old ++ (flush (encoder (rec s))).1) /\
          encoder (rec s') = (flush (encoder (rec s))).2
      | Some e =>
          exists k, (k < length (flush (encoder (rec s))).1)%nat /\
            files (os s') !! p = Some (old ++ take k (flush (encoder (rec s))).1)
      end.
Proof.
  destruct (EncoderToFile_returns s) as (r & s' & Hrun & Hdr).
  exists r, s'. do 2 (split; [done |]). intros p old Hd Hp.
  destruct (EncoderToFile_loop_appends (S (pending (encoder (rec s)))) s p old)
    as (r' & s'' & Hrun' & Hclean & Hres); [lia | done..|].
  unfold EncoderToFile in Hrun. rewrite Hrun' in Hrun.
  injection Hrun as -> ->. split; [done |].
  destruct r as [e|]; [| done]. by destruct Hres as (_ & Hk).
Qed.

(** C9: [SendTag] calls [PreTag], then drains the encoder, then calls
    [Tag], and stops at the first of the three that fails; [Tag] is called
    on the encoder that the drain has emptied, after all of its pending
    output has reached the file.  A failure is logged, with the error of
    the step that failed, and nothing else: [SendTag] returns no value, it
    keeps the descriptor open and the file in place, and it does not close
    the encoder.  A [Play] on the state it leaves goes through: when its
    encoder write succeeds and the operating system raises no fault, it
    returns the length of its input, and what the encoder gives out for the
    chunk is appended to the file. *)
Theorem SendTag_best_effort (tag : Tag) (s : St) :
  exists ok s1,
    call_encoder_pre_tag s = Some (ok, s1) /\
    ok = (encoder_pre_tag (encoder (rec s))).1 /\
    trace s1 = trace s ++ [EvEncoderPreTag ok] /\
    (ok = false -> SendTag tag s = LogError EncoderFailed s1) /\
    (ok = true ->
       exists r s2 evs,
         EncoderToFile s1 = Some (r, s2) /\
         trace s2 = trace s1 ++ evs /\ Forall transfer evs /\
         match r with
         | Some e => SendTag tag s = LogError e s2
         | None =>
             (forall p old,
                fds (os s) !! fd (rec s) = Some p ->
                files (os s) !! p = Some old ->
                files (os s2) !! p =
                  Some (old ++ (flush (encoder (rec s1))).1) /\
                encoder (rec s2) = (flush (encoder (rec s1))).2) /\
             exists ok' s3,
               call_encoder_tag tag s2 = Some (ok', s3) /\
               ok' = (encoder_tag (encoder (rec s2)) tag).1 /\
               trace s3 = trace s2 ++ [EvEncoderTag ok'] /\
               SendTag tag s =
                 if ok' then Some (tt, s3) else LogError EncoderFailed s3
         end) /\
    exists s',
      SendTag tag s = Some (tt, s') /\
      same_sink s s' /\
      (log s' = log s \/ exists e, log s' = log s ++ [e]) /\
      forall p old chunk,
        fds (os s) !! fd (rec s) = Some p -> files (os s) !! p = Some old ->
        faults (os s') = [] ->
        (encoder_write (encoder (rec s')) chunk).1 = true ->
        exists old' s'',
          files (os s') !! p = Some old' /\
          Play chunk s' = Some ((Z.of_nat (length chunk), None), s'') /\
          files (os s'') !! p =
            Some (old' ++
                  (flush (encoder_write (encoder (rec s')) chunk).2).1).
Proof.
  assert (forall s' : St, same_sink s s' ->
    forall p old chunk,
      fds (os s) !! fd (rec s) = Some p -> files (os s) !! p = Some old ->
      faults (os s') = [] ->
      (encoder_write (encoder (rec s')) chunk).1 = true ->
      exists old' s'',
        files (os s') !! p = Some old' /\
        Play chunk s' = Some ((Z.of_nat (length chunk), None), s'') /\
        files (os s'') !! p =
          Some (old' ++ (flush (encoder_write (encoder (rec s')) chunk).2).1))
    as Hplay.
  { intros s' [Hp' Hd' Hf' Hm'] p old chunk Hd Hp Hclean Hwrite.
    assert (is_Some (files (os s') !! p)) as [old' Hold'].
    { apply Hm'. by rewrite Hp. }
    exists old'. unfold Play, bind, call_encoder_write.
    destruct (encoder_write (encoder (rec s')) chunk) as [ok enc]; simpl in *.
    subst ok. simpl.
    match goal with |- context [EncoderToFile ?s1] =>
      destruct (EncoderToFile_clean s1 p old')
        as (s2 & -> & Hfile2 & _); [done | simpl; congruence | done |]
    end.
    by exists s2. }
  remember (SendTag tag s) as res eqn:HS.
  unfold SendTag, bind, call_encoder_pre_tag in HS.
  unfold call_encoder_pre_tag.
  destruct (encoder_pre_tag (encoder (rec s))) as [ok enc]; simpl in *.
  eexists _, _. split; [done |]. simpl. do 2 (split; [done |]).
  destruct ok; simpl in *.
  - (* PreTag succeeds: the drain *)
    split; [done |].
    match type of HS with context [EncoderToFile ?s1] =>
      destruct (EncoderToFile_run s1) as (r & s2 & Hrun & Hdr & Hfile)
    end.
    rewrite Hrun in HS.
    pose proof (drains_same_sink _ _ Hdr) as Hsame.
    destruct Hdr as [Hp Hd Hf Hl _ Hm _ (evs & Ht & He)]; simpl in *.
    destruct r as [e|].
    + (* the drain fails *)
      subst res. split.
      * intros _. exists (Some e), s2, evs. by repeat split.
      * eexists. split; [reflexivity |]. simpl.
        assert (same_sink s (mkSt (rec s2) (os s2) (trace s2) (log s2 ++ [e])))
          as Hs'.
        { destruct Hsame as [? ? ? ?]; simpl in *. by split. }
        split; [done |]. split; [right; exists e; by rewrite Hl |].
        exact (Hplay _ Hs').
    + (* the drain succeeds: Tag *)
      unfold call_encoder_tag in *.
      destruct (encoder_tag (encoder (rec s2)) tag) as [ok' enc'] eqn:Htag;
        simpl in *.
      split.
      * intros _. exists None, s2, evs. do 3 (split; [done |]).
        split.
        { intros p old Hd' Hp'.
          destruct (Hfile p old) as (_ & Hres); [done.. |]. done. }
        rewrite Htag. eexists _, _. split; [done |]. simpl.
        do 2 (split; [done |]). by destruct ok'.
      * destruct ok'; simpl in *; subst res;
          (eexists; split; [reflexivity |]; simpl).
        -- assert (same_sink s (with_encoder enc' (EvEncoderTag true) s2))
             as Hs'.
           { destruct Hsame as [? ? ? ?]; simpl in *. by split. }
           split; [done |]. split; [by left |]. exact (Hplay _ Hs').
        -- assert (same_sink s
                     (mkSt (mkRecorderOutput enc' (path (rec s2)) (fd (rec s2)))
                        (os s2) (trace s2 ++ [EvEncoderTag false])
                        (log s2 ++ [EncoderFailed]))) as Hs'.
           { destruct Hsame as [? ? ? ?]; simpl in *. by split. }
           split; [done |].
           split; [right; exists EncoderFailed; by rewrite Hl |].
           exact (Hplay _ Hs').
  - (* PreTag fails *)
    subst res. split; [done |]. split; [done |].
    eexists. split; [reflexivity |]. simpl.
    assert (same_sink s
              (mkSt (mkRecorderOutput enc (path (rec s)) (fd (rec s))) (os s)
                 (trace s ++ [EvEncoderPreTag false])
                 (log s ++ [EncoderFailed]))) as Hs' by (by split).
    split; [done |]. split; [right; by exists EncoderFailed |].
    exact (Hplay _ Hs').
Qed.

(** ** Open and Close *)

(** What a successful [Open] leaves, in full. *)
Lemma Open_succeeded a (s s' : St) :
  Open a s = Some (None, s') ->
  0 <= fd (rec s') /\ fds (os s) !! fd (rec s') = None /\
  fds (os s') = <[fd (rec s') := path (rec s)]> (fds (os s)) /\
  path (rec s') = path (rec s) /\
  (encoder_open (encoder (rec s)) a).1 = true /\
  files (os s') !! path (rec s) =
    Some (flush (encoder_open (encoder (rec s)) a).2).1 /\
  encoder (rec s') = (flush (encoder_open (encoder (rec s)) a).2).2 /\
  (forall q, q <> path (rec s) -> files (os s') !! q = files (os s) !! q) /\
  log s' = log s.
Proof.
  unfold Open, bind, call_OpenFile, get_fd, get_errno; simpl.
  destruct (OpenFile_cases (path (rec s)) (os s))
    as [(Hr & Hfiles & Hfds)|(Hr & Hfree & Hfiles & Hfds)];
    destruct (OpenFile (path (rec s)) (os s)) as [r o]; simpl in *.
  { destruct (Z.ltb_spec r 0); [done | lia]. }
  destruct (Z.ltb_spec r 0); [lia |].
  unfold call_encoder_open; simpl.
  destruct (encoder_open (encoder (rec s)) a) as [ok enc]; simpl.
  destruct ok; simpl; [| done].
  match goal with |- context [EncoderToFile ?s1] =>
    destruct (EncoderToFile_loop_appends (S (pending (encoder (rec s1)))) s1
                (path (rec s)) [])
      as (res & s2 & Hrun & _ & Hres);
    [| | | destruct (EncoderToFile_returns s1) as (res' & s2' & Hrun' & Hdr)]
  end.
  { lia. }
  { simpl. by rewrite Hfds, lookup_insert_eq. }
  { simpl. by rewrite Hfiles, lookup_insert_eq. }
  unfold EncoderToFile in *.
  rewrite Hrun in Hrun'. injection Hrun' as <- <-. rewrite Hrun.
  destruct res as [e|]; [done |]. intros [= <-].
  destruct Hres as [Hfile Henc].
  destruct Hdr as [Hp Hd Hf Hl Ho _ _ _]; simpl in *.
  rewrite Hd, Hf, Hfds. repeat split; try done.
  intros q Hq. rewrite Ho, Hfiles, lookup_insert_ne; [done.. |].
  rewrite Hfds, lookup_insert_eq. congruence.
Qed.

(** [Close], step by step. *)
Lemma Close_run (s : St) :
  exists s', Close s = Some (tt, s') /\
    fds (os s') = delete (fd (rec s)) (fds (os s)) /\
    (forall q, is_Some (files (os s') !! q) <-> is_Some (files (os s) !! q)) /\
    (forall q, fds (os s) !! fd (rec s) <> Some q ->
       files (os s') !! q = files (os s) !! q) /\
    log s' = log s /\ path (rec s') = path (rec s) /\
    exists ok evs,
      trace s' =
        trace s ++ EvEncoderEnd ok :: evs ++
          [EvEncoderClose; EvClose (fd (rec s))] /\
      Forall transfer evs /\ (ok = false -> evs = []).
Proof.
  unfold Close, bind, call_encoder_end.
  destruct (encoder_end (encoder (rec s))) as [ok enc]; simpl.
  destruct ok; simpl.
  - match goal with |- context [EncoderToFile ?s1] =>
      destruct (EncoderToFile_returns s1) as (res & s2 & -> & Hdr)
    end.
    destruct Hdr as [Hp Hd Hf Hl Ho Hm _ (evs & Ht & He)]; simpl in *.
    eexists. split; [done |]. simpl. rewrite Hd, Hf.
    do 5 (split; [done |]). exists true, evs.
    rewrite Ht, <- !app_assoc. done.
  - eexists. split; [done |]. simpl. do 5 (split; [done |]).
    exists false, []. by rewrite <- !app_assoc.
Qed.

(** X14: [Close] always returns, and it releases the descriptor whether
    or not the flush succeeds.  Its calls are [encoder_end], the drain when
    that succeeded, [encoder_close] and [close]; no file appears or
    disappears and nothing is logged. *)
Theorem Close_releases (s : St) :
  exists s', Close s = Some (tt, s') /\
    fds (os s') = delete (fd (rec s)) (fds (os s)) /\
    (forall q, is_Some (files (os s') !! q) <-> is_Some (files (os s) !! q)) /\
    log s' = log s /\
    exists ok evs,
      trace s' =
        trace s ++ EvEncoderEnd ok :: evs ++
          [EvEncoderClose; EvClose (fd (rec s))] /\
      Forall transfer evs /\ (ok = false -> evs = []).
Proof.
  destruct (Close_run s) as (s' & Hrun & Hfds & Hdom & _ & Hlog & _ & Htr).
  by exists s'.
Qed.

(** X13: a successful [Open] leaves a descriptor that was not in use
    open on the path; the file at the path holds what the encoder gave out
    on opening and nothing else, whatever it held before; every other file
    is as it was, and nothing is logged. *)
Theorem Open_success a (s s' : St) :
  Open a s = Some (None, s') ->
  0 <= fd (rec s') /\ fds (os s) !! fd (rec s') = None /\
  fds (os s') = <[fd (rec s') := path (rec s)]> (fds (os s)) /\
  files (os s') !! path (rec s) =
    Some (flush (encoder_open (encoder (rec s)) a).2).1 /\
  (forall q, q <> path (rec s) -> files (os s') !! q = files (os s) !! q) /\
  log s' = log s.
Proof.
  intros Hopen.
  destruct (Open_succeeded a s s' Hopen)
    as (? & ? & ? & ? & ? & ? & ? & ? & ?).
  done.
Qed.

(** X15: from [Open] to [Close] no descriptor is left behind.  After a
    successful [Open], any sequence of [Play] and [SendTag], failing or not,
    followed by [Close], leaves the descriptor table as it was before the
    [Open], and the file in place. *)
Theorem no_descriptor_leak a cs (s s1 : St) :
  Open a s = Some (None, s1) ->
  exists s2 s3, calls cs s1 = Some (tt, s2) /\ Close s2 = Some (tt, s3) /\
    fds (os s3) = fds (os s) /\
    is_Some (files (os s3) !! path (rec s)).
Proof.
  intros Hopen.
  destruct (Open_succeeded a s s1 Hopen)
    as (_ & Hfree & Hfds & _ & _ & Hfile & _).
  destruct (calls_same_sink cs s1) as (s2 & Hcalls & [_ Hd2 Hf2 Hm2]).
  destruct (Close_run s2) as (s3 & Hclose & Hfds3 & Hdom3 & _).
  exists s2, s3. do 2 (split; [done |]). split.
  - rewrite Hfds3, Hd2, Hf2, Hfds. by apply delete_insert_id.
  - apply Hdom3, Hm2. by rewrite Hfile.
Qed.

(** X16: with no fault of the operating system and an encoder whose
    calls succeed, [Open], [Play] and [Close] leave in the file what the
    encoder gave out on opening, for the chunk, and on ending, in this
    order; the descriptor is released and nothing is logged. *)
Theorem session_round_trip a chunk (s : St) :
  let opened := encoder_open (encoder (rec s)) a in
  let header := flush opened.2 in
  let written := encoder_write header.2 chunk in
  let body := flush written.2 in
  let ended := encoder_end body.2 in
  faults (os s) = [] ->
  opened.1 = true -> written.1 = true -> ended.1 = true ->
  exists s',
    bind (Open a) (fun _ => bind (Play chunk) (fun _ => Close)) s =
      Some (tt, s') /\
    files (os s') !! path (rec s) =
      Some (header.1 ++ body.1 ++ (flush ended.2).1) /\
    fds (os s') = fds (os s) /\ log s' = log s.
Proof.
  intros opened header written body ended Hf Hopen Hwrite Hend.
  unfold bind at 1, Open, bind, call_OpenFile, get_fd; simpl.
  pose proof (fresh_fd_nonneg (fds (os s))) as Hnn.
  pose proof (fresh_fd_unused (fds (os s))) as Hfree.
  unfold OpenFile. rewrite Hf. simpl.
  destruct (Z.ltb_spec (fresh (dom (fds (os s)))) 0); [lia |].
  unfold call_encoder_open; simpl. fold opened.
  destruct opened as [ok e1] eqn:Hopened. simpl in Hopen. subst ok. simpl.
  match goal with |- context [EncoderToFile ?s1] =>
    destruct (EncoderToFile_clean s1 (path (rec s)) [])
      as (s2 & -> & Hfile2 & Henc2 & Hf2 & Hdr2)
  end.
  { done. } { simpl. by rewrite lookup_insert_eq. }
  { simpl. by rewrite lookup_insert_eq. }
  destruct Hdr2 as [Hp2 Hd2 Hfds2 Hl2 _ _ _ _]; simpl in *.
  (* Play *)
  unfold Play, bind, call_encoder_write. rewrite Henc2. fold header.
  fold written. destruct written as [ok e2] eqn:Hwritten.
  simpl in Hwrite. subst ok. simpl.
  match goal with |- context [EncoderToFile ?s3] =>
    destruct (EncoderToFile_clean s3 (path (rec s)) header.1)
      as (s4 & -> & Hfile4 & Henc4 & Hf4 & Hdr4)
  end.
  { done. } { simpl. by rewrite Hfds2, Hd2, lookup_insert_eq. }
  { done. }
  destruct Hdr4 as [Hp4 Hd4 Hfds4 Hl4 _ _ _ _]; simpl in *.
  (* Close *)
  unfold Close, bind, call_encoder_end. rewrite Henc4. fold body.
  fold ended. destruct ended as [ok e3] eqn:Hended.
  simpl in Hend. subst ok. simpl.
  match goal with |- context [EncoderToFile ?s5] =>
    destruct (EncoderToFile_clean s5 (path (rec s)) (header.1 ++ body.1))
      as (s6 & -> & Hfile6 & Henc6 & Hf6 & Hdr6)
  end.
  { done. } { simpl. by rewrite Hfds4, Hd4, Hfds2, Hd2, lookup_insert_eq. }
  { done. }
  destruct Hdr6 as [Hp6 Hd6 Hfds6 Hl6 _ _ _ _]; simpl in *.
  eexists. split; [done |]. simpl.
  split; [by rewrite Hfile6, <- app_assoc |].
  split; [| congruence].
  rewrite Hfds6, Hd6, Hfds4, Hd4, Hfds2, Hd2. by apply delete_insert_id.
Qed.

End OutputFacts.

(** ** The recorder on the toy encoder *)

Section Runs.
#[local] Existing Instance toy_encoder.


(** [Open] succeeds: the header is in the file. *)
Example Open_succeeds :
  exists s', Open cd_format (closed_sink sound []) = Some (None, s') /\
    fd (rec s') = 1 /\
    files (os s') !! "/tmp/out.ogg" = Some [x4f; x67] /\
    fds (os s') !! 1 = Some "/tmp/out.ogg".
Proof. eexists. split; [by vm_compute |]. by vm_compute. Qed.

(** The encoder does not open: the file is created, then the descriptor is
    closed and the file removed. *)
Example Open_encoder_fails :
  exists s', Open cd_format (closed_sink no_open []) =
               Some (Some EncoderFailed, s') /\
    trace s' = [EvOpenFile "/tmp/out.ogg" 1; EvEncoderOpen false; EvClose 1;
                EvRemoveFile "/tmp/out.ogg"] /\
    files (os s') !! "/tmp/out.ogg" = None /\
    fds (os s') !! 1 = None.
Proof. eexists. split; [by vm_compute |]. by vm_compute. Qed.

(** The disk is full when the header is written. *)
Example Open_drain_fails :
  exists s', Open cd_format (closed_sink sound [NoFault; Fail 28]) =
               Some (Some (WriteFailed 28), s') /\
    trace s' = [EvOpenFile "/tmp/out.ogg" 1; EvEncoderOpen true;
                EvEncoderRead 2; EvWrite 1 (-1);
                EvEncoderClose; EvClose 1; EvRemoveFile "/tmp/out.ogg"] /\
    files (os s') !! "/tmp/out.ogg" = None /\
    fds (os s') !! 1 = None.
Proof. eexists. split; [by vm_compute |]. by vm_compute. Qed.

(** The rollback on the toy encoder that does not open, and on a disk that
    is full when the header is written: [Open] reports the error of the
    step that failed, no descriptor is left, no file at the path, and the
    other file is in place. *)
Lemma Open_failure_rolls_back_witness :
  (exists s', Open cd_format (closed_sink no_open []) =
                Some (Some EncoderFailed, s') /\
     fds (os s') = {[0 := "/etc/mpd.conf"]} /\
     files (os s') !! "/tmp/out.ogg" = None /\
     files (os s') !! "/etc/mpd.conf" = Some [x23]) /\
  (exists s', Open cd_format (closed_sink sound [NoFault; Fail 28]) =
                Some (Some (WriteFailed 28), s') /\
     fds (os s') = {[0 := "/etc/mpd.conf"]} /\
     files (os s') !! "/tmp/out.ogg" = None /\
     files (os s') !! "/etc/mpd.conf" = Some [x23]).
Proof.
  split.
  - destruct (Open_failure_rolls_back cd_format (closed_sink no_open []))
      as (s1 & _ & Hfd & _ & _ & Hrest).
    assert (0 <= fd (rec s1)) as Hnn by (rewrite Hfd; by vm_compute).
    destruct (Hrest Hnn) as (ok & s2 & _ & Hok & _ & Hfalse & _).
    destruct (Hfalse Hok) as (s' & Hopen & _ & [Hfds _ Hfiles Hgone _]).
    exists s'. split; [exact Hopen |].
    rewrite Hfds, Hfiles. repeat split.
  - destruct (Open_failure_rolls_back cd_format
                (closed_sink sound [NoFault; Fail 28]))
      as (s1 & _ & Hfd & _ & _ & Hrest).
    assert (0 <= fd (rec s1)) as Hnn by (rewrite Hfd; by vm_compute).
    destruct (Hrest Hnn) as (ok & s2 & _ & Hok & _ & _ & Htrue).
    destruct (Htrue Hok) as (r & s3 & evs & _ & _ & _ & Hres).
    assert (fst <$> Open cd_format (closed_sink sound [NoFault; Fail 28]) =
            Some (Some (WriteFailed 28))) as Hfst by reflexivity.
    destruct r as [e|].
    + destruct Hres as (s' & Hopen & _ & [Hfds _ Hfiles Hgone _]).
      rewrite Hopen in Hfst. injection Hfst as ->.
      exists s'. split; [exact Hopen |].
      rewrite Hfds, Hfiles. repeat split.
    + rewrite Hres in Hfst. discriminate Hfst.
Defined.

(** An interrupted write and a short write are retried. *)
Example Play_retries :
  exists s', Play [x01; x02; x03] (open_sink sound [Fail EINTR; ShortWrite 2]) =
               Some ((3, None), s') /\
    trace s' = [EvEncoderWrite true; EvEncoderRead 3; EvWrite 1 (-1);
                EvWrite 1 2; EvWrite 1 1; EvEncoderRead 0] /\
    files (os s') !! "/tmp/out.ogg" = Some [x4f; x67; x01; x02; x03].
Proof. eexists. split; [by vm_compute |]. by vm_compute. Qed.

(** A whole session: the header, the PCM bytes, the tag, the close. *)
Example record_session :
  exists s',
    bind (Open cd_format) (fun _ =>
    bind (Play [x01; x02]) (fun _ =>
    bind (SendTag no_tag) (fun _ =>
    bind (Play [x03]) (fun _ => Close)))) (closed_sink sound []) =
      Some (tt, s') /\
    files (os s') !! "/tmp/out.ogg" = Some [x4f; x67; x01; x02; x03] /\
    fds (os s') !! 1 = None /\
    log s' = [].
Proof. eexists. split; [by vm_compute |]. by vm_compute. Qed.

(** Three bytes go through: [Play] returns 3. *)
Lemma Play_return_value_witness :
  exists s', Play [x01; x02; x03] (open_sink sound []) = Some ((3, None), s').
Proof.
  destruct (Play_return_value [x01; x02; x03] (open_sink sound []))
    as (n & err & s' & Hrun & Hok & _ & _).
  assert (Play_succeeds [x01; x02; x03] (open_sink sound [])) as Hsucc.
  { eexists _, _. split; reflexivity. }
  destruct (Hok Hsucc) as [-> ->]. exists s'. exact Hrun.
Defined.

(** C8, as stated, fails: the encoder refuses an empty chunk; [Play]
    returns 0, which is the length of the input, although the encoder write
    has failed. *)
Lemma Play_empty_chunk_after_failure :
  fst <$> Play [] (open_sink no_write []) = Some (0, Some EncoderFailed) /\
  Z.of_nat (length (@nil byte)) = 0 /\
  fst <$> call_encoder_write [] (open_sink no_write []) = Some false /\
  ~ Play_succeeds [] (open_sink no_write []).
Proof.
  repeat split. intros (s1 & s2 & Hwrite & _). discriminate Hwrite.
Qed.

(** [Tag] fails: the error is logged, the descriptor stays open, and the
    next [Play] goes through and reaches the file. *)
Lemma SendTag_best_effort_witness :
  exists s', SendTag no_tag (open_sink no_tagging []) = Some (tt, s') /\
    log s' = [EncoderFailed] /\
    fds (os s') !! 1 = Some "/tmp/out.ogg" /\
    exists old' s'',
      files (os s') !! "/tmp/out.ogg" = Some old' /\
      Play [x01; x02] s' = Some ((2, None), s'') /\
      files (os s'') !! "/tmp/out.ogg" =
        Some (old' ++
              (flush (encoder_write (encoder (rec s')) [x01; x02]).2).1).
Proof.
  destruct (SendTag_best_effort no_tag (open_sink no_tagging []))
    as (ok & s1 & _ & _ & _ & _ & _ & s' & Hrun & Hsame & _ & Hplay).
  exists s'. split; [exact Hrun |].
  assert (log s' = [EncoderFailed] /\ faults (os s') = [] /\
          (encoder_write (encoder (rec s')) [x01; x02]).1 = true)
    as (Hlog & Hclean & Hwrite).
  { injection Hrun as <-. repeat split. }
  split; [exact Hlog |].
  split; [by rewrite (ss_fds _ _ Hsame) |].
  exact (Hplay "/tmp/out.ogg" [x4f; x67] [x01; x02] eq_refl eq_refl
           Hclean Hwrite).
Defined.

(** The same run, computed: the chunk is in the file behind the header. *)
Example SendTag_then_Play :
  exists s',
    bind (SendTag no_tag) (fun _ => Play [x01; x02])
      (open_sink no_tagging []) = Some ((2, None), s') /\
    trace s' = [EvEncoderPreTag true; EvEncoderRead 0; EvEncoderTag false;
                EvEncoderWrite true; EvEncoderRead 2; EvWrite 1 2;
                EvEncoderRead 0] /\
    log s' = [EncoderFailed] /\
    files (os s') !! "/tmp/out.ogg" = Some [x4f; x67; x01; x02].
Proof. eexists. split; [by vm_compute |]. by vm_compute. Qed.

(** ** The file on the toy encoder *)

(** An open recorder whose encoder has [bs] pending. *)
Definition loaded_sink (bs : list byte) (fs : list Fault) : St :=
  open_sink (toy_set_out bs sound) fs.

(** An interrupted write and a short write: the three bytes arrive. *)
Lemma WriteToFile_appends_witness :
  exists r s',
    WriteToFile [x01; x02; x03] (open_sink sound [Fail EINTR; ShortWrite 2]) =
      Some (r, s') /\
    match r with
    | None =>
        files (os s') !! "/tmp/out.ogg" = Some ([x4f; x67] ++ [x01; x02; x03])
    | Some e =>
        e <> WriteFailed EINTR /\
        exists k, (k < length [x01; x02; x03])%nat /\
          files (os s') !! "/tmp/out.ogg" =
            Some ([x4f; x67] ++ take k [x01; x02; x03])
    end.
Proof.
  assert ([x01; x02; x03] <> []) as Hne by discriminate.
  assert (fds (os (open_sink sound [Fail EINTR; ShortWrite 2])) !!
            fd (rec (open_sink sound [Fail EINTR; ShortWrite 2])) =
          Some "/tmp/out.ogg") as Hd by (vm_compute; reflexivity).
  assert (files (os (open_sink sound [Fail EINTR; ShortWrite 2])) !!
            "/tmp/out.ogg" = Some [x4f; x67]) as Hp
    by (vm_compute; reflexivity).
  exact (WriteToFile_appends [x01; x02; x03]
           (open_sink sound [Fail EINTR; ShortWrite 2]) "/tmp/out.ogg"
           [x4f; x67] Hne Hd Hp).
Defined.

(** The same run, computed. *)
Example WriteToFile_retries :
  exists s',
    WriteToFile [x01; x02; x03] (open_sink sound [Fail EINTR; ShortWrite 2]) =
      Some (None, s') /\
    files (os s') !! "/tmp/out.ogg" = Some [x4f; x67; x01; x02; x03].
Proof. eexists. split; [by vm_compute |]. by vm_compute. Qed.

(** The disk fills up after two bytes: a prefix is in the file. *)
Example WriteToFile_disk_full :
  exists s',
    WriteToFile [x01; x02; x03] (open_sink sound [ShortWrite 2; Fail 28]) =
      Some (Some (WriteFailed 28), s') /\
    files (os s') !! "/tmp/out.ogg" = Some [x4f; x67; x01; x02].
Proof. eexists. split; [by vm_compute |]. by vm_compute. Qed.

Lemma EncoderToFile_appends_witness :
  exists r s',
    EncoderToFile (loaded_sink [x01; x02] []) = Some (r, s') /\
    match r with
    | None =>
        files (os s') !! "/tmp/out.ogg" =
          Some ([x4f; x67] ++ (flush (toy_set_out [x01; x02] sound)).1) /\
        encoder (rec s') = (flush (toy_set_out [x01; x02] sound)).2
    | Some e =>
        e <> WriteFailed EINTR /\
        exists k,
          (k < length (flush (toy_set_out [x01; x02] sound)).1)%nat /\
          files (os s') !! "/tmp/out.ogg" =
            Some ([x4f; x67] ++
                  take k (flush (toy_set_out [x01; x02] sound)).1)
    end.
Proof.
  assert (fds (os (loaded_sink [x01; x02] [])) !!
            fd (rec (loaded_sink [x01; x02] [])) =
          Some "/tmp/out.ogg") as Hd by (vm_compute; reflexivity).
  assert (files (os (loaded_sink [x01; x02] [])) !! "/tmp/out.ogg" =
          Some [x4f; x67]) as Hp by (vm_compute; reflexivity).
  exact (EncoderToFile_appends (loaded_sink [x01; x02] []) "/tmp/out.ogg"
           [x4f; x67] Hd Hp).
Defined.

Lemma Open_success_witness :
  exists s',
    Open cd_format (closed_sink sound []) = Some (None, s') /\
    0 <= fd (rec s') /\
    fds (os (closed_sink sound [])) !! fd (rec s') = None /\
    fds (os s') =
      <[fd (rec s') := "/tmp/out.ogg"]> (fds (os (closed_sink sound []))) /\
    files (os s') !! "/tmp/out.ogg" =
      Some (flush (encoder_open sound cd_format).2).1 /\
    (forall q, q <> "/tmp/out.ogg" ->
       files (os s') !! q = files (os (closed_sink sound [])) !! q) /\
    log s' = [].
Proof.
  assert (exists s', Open cd_format (closed_sink sound []) = Some (None, s'))
    as [s' Hopen] by (eexists; vm_compute; reflexivity).
  exists s'. split; [exact Hopen |].
  exact (Open_success cd_format (closed_sink sound []) s' Hopen).
Defined.

(** The first write of the header is interrupted; then two chunks and a
    tag; after [Close] the descriptor table is what it was. *)
Lemma no_descriptor_leak_witness :
  exists s1 s2 s3,
    Open cd_format (closed_sink sound [NoFault; Fail EINTR]) = Some (None, s1) /\
    calls [CallPlay [x01]; CallSendTag no_tag; CallPlay [x02]] s1 =
      Some (tt, s2) /\
    Close s2 = Some (tt, s3) /\
    fds (os s3) = fds (os (closed_sink sound [NoFault; Fail EINTR])) /\
    is_Some (files (os s3) !! "/tmp/out.ogg").
Proof.
  assert (exists s1,
            Open cd_format (closed_sink sound [NoFault; Fail EINTR]) =
              Some (None, s1))
    as [s1 Hopen] by (eexists; vm_compute; reflexivity).
  destruct (no_descriptor_leak cd_format
              [CallPlay [x01]; CallSendTag no_tag; CallPlay [x02]]
              (closed_sink sound [NoFault; Fail EINTR]) s1 Hopen)
    as (s2 & s3 & Hcalls & Hclose & Hfds & Hfile).
  exists s1, s2, s3. exact (conj Hopen (conj Hcalls (conj Hclose (conj Hfds Hfile)))).
Defined.

(** The toy encoder passes the bytes through behind its header. *)
Lemma session_round_trip_witness :
  exists s',
    bind (Open cd_format)
      (fun _ => bind (Play [x01; x02]) (fun _ => Close))
      (closed_sink sound []) = Some (tt, s') /\
    files (os s') !! "/tmp/out.ogg" = Some ([x4f; x67] ++ [x01; x02] ++ []) /\
    fds (os s') = fds (os (closed_sink sound [])) /\ log s' = [].
Proof.
  exact (session_round_trip cd_format [x01; x02] (closed_sink sound [])
           eq_refl eq_refl eq_refl eq_refl).
Defined.

End Runs.

End Recorder.

(* ===================================================================== *)
(** * Song counts grouped by a tag ([db/Count.cxx]) *)
(* ===================================================================== *)

Module Count.

(** [n_songs] is an [unsigned], [total_duration] a count of milliseconds
    in a [std::uint64_t]; both wrap around. *)
Record SearchStats := mkSearchStats {
  n_songs : Z;
  total_duration : Z;
}.

(** [SearchStats()] *)
Definition no_stats : SearchStats := mkSearchStats 0 0.

(** [LightSong], of which the visitor reads the tag. *)
Record LightSong := mkLightSong {
  tag : Tag;
}.

(** [SignedSongTime::IsNegative] *)
Definition IsNegative (d : Z) : bool := d <? 0.

(** Lines 86-88: [++s.n_songs] and, unless the duration is negative,
    [s.total_duration += tag.duration]. *)
Definition add_song (d : Z) (s : SearchStats) : SearchStats :=
  mkSearchStats ((n_songs s + 1) mod 2 ^ 32)
    (if IsNegative d then total_duration s
     else (total_duration s + d) mod 2 ^ 64).

(** [stats_visitor_song], given the duration of the song. *)
Definition stats_visitor_song (stats : SearchStats) (d : Z)
  : bool * SearchStats :=
  (true, add_song d stats).

(** The entry that [map.insert(make_pair(value, SearchStats()))] points
    at: the one that is there, or a new one. *)
Definition entry (m : gmap string SearchStats) (v : string) : SearchStats :=
  default no_stats (m !! v).

(** The body of the loop of [CollectGroupCounts], on [found] and the map. *)
Definition collect_item (group : TagType) (d : Z)
    (acc : bool * gmap string SearchStats) (item : TagItem)
  : bool * gmap string SearchStats :=
  if decide (type item = group) then
    (true, <[value item := add_song d (entry acc.2 (value item))]> acc.2)
  else acc.

Definition CollectGroupCounts (m : gmap string SearchStats) (group : TagType)
    (t : Tag) : bool * gmap string SearchStats :=
  fold_left (collect_item group (duration t)) (items t) (false, m).

Definition GroupCountVisitor (m : gmap string SearchStats) (group : TagType)
    (song : LightSong) : bool * gmap string SearchStats :=
  let '(found, m1) := CollectGroupCounts m group (tag song) in
  if negb found && bool_decide (group = TAG_ALBUM_ARTIST) then
    (* fall back to "Artist" if no "AlbumArtist" was found *)
    (true, (CollectGroupCounts m1 TAG_ARTIST (tag song)).2)
  else (true, m1).

(** The grouped branch of [PrintSongCount]: the visitor on every selected
    song, from the empty map. *)
Definition count_groups (group : TagType) (songs : list LightSong)
  : gmap string SearchStats :=
  fold_left (fun m song => (GroupCountVisitor m group song).2) songs ∅.

(** The branch without grouping. *)
Definition count_all (durations : list Z) : SearchStats :=
  fold_left (fun s d => (stats_visitor_song s d).2) durations no_stats.

(** ** What a song adds to a group *)

(** How often the tag names [v] as a value of type [group]. *)
Definition occurrences (group : TagType) (v : string) (its : list TagItem)
  : nat :=
  length (filter (fun item => type item = group /\ value item = v) its).

(** The play time counted for [v]. *)
Definition playtime (m : gmap string SearchStats) (v : string) : Z :=
  total_duration (entry m v).

(** The entry of [v] after [k] songs of duration [d] were added to it. *)
Definition credited (m : gmap string SearchStats) (k : nat) (d : Z)
    (v : string) : option SearchStats :=
  match k with
  | O => m !! v
  | S _ =>
      Some (mkSearchStats ((n_songs (entry m v) + Z.of_nat k) mod 2 ^ 32)
              (if IsNegative d then total_duration (entry m v)
               else (total_duration (entry m v) + Z.of_nat k * d) mod 2 ^ 64))
  end.

(** Two songs: one with an album artist, one with two artists only. *)
Definition with_album_artist : LightSong :=
  mkLightSong (mkTag 1000
    [mkTagItem TAG_ARTIST "Ann"; mkTagItem TAG_ALBUM_ARTIST "Various"]).

Definition artists_only (d : Z) : LightSong :=
  mkLightSong (mkTag d
    [mkTagItem TAG_ARTIST "Ann"; mkTagItem (TAG_OTHER 0) "Blue";
     mkTagItem TAG_ARTIST "Bob"]).

(** ** What the songs of a selection add up to *)

(** The tag type under which [GroupCountVisitor] counts a song: the
    requested one, or Artist in place of an AlbumArtist that the tag does
    not have. *)
Definition counted_type (group : TagType) (t : Tag) : TagType :=
  if bool_decide (Exists (fun item => type item = group) (items t)) then group
  else if bool_decide (group = TAG_ALBUM_ARTIST) then TAG_ARTIST
  else group.

(** How often the song is counted for the value [v]. *)
Definition hits (group : TagType) (v : string) (song : LightSong) : nat :=
  occurrences (counted_type group (tag song)) v (items (tag song)).

(** What a duration adds to a play time. *)
Definition known (d : Z) : Z := if IsNegative d then 0 else d.

Definition total_hits (group : TagType) (v : string)
    (songs : list LightSong) : nat :=
  sum_list (map (hits group v) songs).

Definition total_time (group : TagType) (v : string)
    (songs : list LightSong) : Z :=
  foldr (fun song acc =>
           Z.of_nat (hits group v song) * known (duration (tag song)) + acc)
    0 songs.

Definition total_known (durations : list Z) : Z :=
  foldr (fun d acc => known d + acc) 0 durations.

(** ** The response *)

Section Printing.

(** [tag_item_names], a table of a header that is not among the sources. *)
Variable tag_item_names : TagType -> string.

(** The line feed that ends a line of the response. *)
Definition LF : string := String (Ascii.ascii_of_nat 10) EmptyString.

(** [%u] *)
Definition format_u (z : Z) : string := pretty (Z.to_N z).

(** [PrintSearchStats]: the response is the text sent so far.  The cast
    to seconds divides the milliseconds by 1000; the result goes into an
    [unsigned]. *)
Definition PrintSearchStats (r : string) (stats : SearchStats) : string :=
  let total_duration_s := (total_duration stats / 1000) mod 2 ^ 32 in
  r +:+ "songs: " +:+ format_u (n_songs stats) +:+ LF +:+
    "playtime: " +:+ format_u total_duration_s +:+ LF.

(** The order of the keys of a [std::map<std::string, ...>]. *)
Definition key_le (a b : string * SearchStats) : Prop :=
  Is_true (String.leb a.1 b.1).

#[local] Instance key_le_dec a b : Decision (key_le a b).
Proof. unfold key_le. apply _. Defined.

(** The entries of the map as [for (const auto &i : m)] visits them. *)
Definition in_key_order (m : gmap string SearchStats)
  : list (string * SearchStats) :=
  merge_sort key_le (map_to_list m).

(** [Print] *)
Definition Print (r : string) (group : TagType)
    (m : gmap string SearchStats) : string :=
  fold_left
    (fun r i =>
       PrintSearchStats (r +:+ tag_item_names group +:+ ": " +:+ i.1 +:+ LF)
         i.2)
    (in_key_order m) r.

(** [PrintSongCount].  [songs] are the songs that [db.Visit] hands to the
    visitor for the selection, one after the other; [None] when there is
    nothing to visit because [GetDatabaseOrThrow] or [Visit] throws, in
    which case nothing is sent.  [GetDuration] is the method of
    [LightSong]; the group [None] stands for [TAG_NUM_OF_ITEM_TYPES]. *)
Definition PrintSongCount (r : string) (songs : option (list LightSong))
    (GetDuration : LightSong -> Z) (group : option TagType) : option string :=
  match songs with
  | None => None
  | Some songs =>
      match group with
      | None =>
          (* no grouping *)
          Some (PrintSearchStats r (count_all (map GetDuration songs)))
      | Some g => Some (Print r g (count_groups g songs))
      end
  end.

End Printing.

Lemma add_song_iter (k : nat) (d : Z) (s : SearchStats) :
  Nat.iter (S k) (add_song d) s =
  mkSearchStats ((n_songs s + Z.of_nat (S k)) mod 2 ^ 32)
    (if IsNegative d then total_duration s
     else (total_duration s + Z.of_nat (S k) * d) mod 2 ^ 64).
Proof.
  induction k as [|k IH].
  - simpl. unfold add_song. f_equal. destruct (IsNegative d); [done |].
    f_equal. lia.
  - rewrite Nat.iter_succ, IH. unfold add_song. cbn [n_songs total_duration].
    f_equal.
    + rewrite Zplus_mod_idemp_l. f_equal. lia.
    + destruct (IsNegative d); [done |].
      rewrite Zplus_mod_idemp_l. f_equal. lia.
Qed.

Lemma credited_iter (m : gmap string SearchStats) k d v :
  credited m k d v =
  match k with
  | O => m !! v
  | S _ => Some (Nat.iter k (add_song d) (entry m v))
  end.
Proof. destruct k; [done |]. unfold credited. by rewrite add_song_iter. Qed.

(** The loop of [CollectGroupCounts], entry by entry. *)
Lemma collect_lookup group d (its : list TagItem)
    (acc : bool * gmap string SearchStats) v :
  (fold_left (collect_item group d) its acc).2 !! v =
  credited acc.2 (occurrences group v its) d v.
Proof.
  rewrite credited_iter. revert acc.
  induction its as [|item its IH]; intros acc; [done |].
  simpl. rewrite IH. unfold occurrences, collect_item.
  rewrite filter_cons.
  destruct (decide (type item = group)) as [Hty|Hty].
  - destruct (decide (value item = v)) as [Hv|Hv].
    + rewrite decide_True by done. simpl. unfold entry at 1. simpl.
      rewrite Hv, lookup_insert_eq. simpl.
      destruct (length _) as [|k]; [done |].
      unfold entry at 1. rewrite lookup_insert_eq.
      cbn [default]. f_equal. symmetry.
      apply (Nat.iter_succ_r (S k) (add_song d)).
    + rewrite decide_False by (intros [_ ?]; done). simpl.
      unfold entry at 1. simpl. rewrite lookup_insert_ne by done.
      unfold entry. by rewrite lookup_insert_ne.
  - rewrite decide_False by (intros [? _]; done). done.
Qed.

Lemma collect_found group d (its : list TagItem)
    (acc : bool * gmap string SearchStats) :
  (forall item, item ∈ its -> type item <> group) ->
  fold_left (collect_item group d) its acc = acc.
Proof.
  revert acc. induction its as [|item its IH]; intros acc Hnone; [done |].
  simpl. unfold collect_item at 2.
  rewrite decide_False by (apply Hnone; left).
  apply IH. intros it Hit. apply Hnone. by right.
Qed.

(** C10: a song whose tag has no item of the requested type is counted,
    when the request is AlbumArtist, under each value of its Artist items:
    the entry of the value gains one song, and the song's duration, for
    every Artist item that names it.  For every other requested type the
    map stays as it is.  And whatever the tag holds, a negative duration
    changes the play time of no entry. *)
Theorem GroupCountVisitor_fallback (m : gmap string SearchStats)
    (group : TagType) (song : LightSong) :
  ((forall item, item ∈ items (tag song) -> type item <> group) ->
   (group = TAG_ALBUM_ARTIST ->
    forall v,
      (GroupCountVisitor m group song).2 !! v =
      credited m (occurrences TAG_ARTIST v (items (tag song)))
        (duration (tag song)) v) /\
   (group <> TAG_ALBUM_ARTIST -> (GroupCountVisitor m group song).2 = m)) /\
  (duration (tag song) < 0 ->
   forall v, playtime (GroupCountVisitor m group song).2 v = playtime m v).
Proof.
  split.
  - intros Hnone. unfold GroupCountVisitor, CollectGroupCounts.
    rewrite (collect_found group) by done. simpl.
    split.
    + intros -> v. rewrite bool_decide_eq_true_2 by done.
      simpl. apply collect_lookup.
    + intros Hother. by rewrite bool_decide_eq_false_2.
  - intros Hneg v.
    assert (forall g (t : Tag) (m0 : gmap string SearchStats),
      duration t < 0 ->
      playtime (CollectGroupCounts m0 g t).2 v = playtime m0 v) as Hcollect.
    { intros g t m0 Ht. unfold playtime, entry at 1, CollectGroupCounts.
      rewrite collect_lookup. unfold credited, IsNegative.
      destruct (occurrences g v (items t)); [done |]. simpl.
      by destruct (Z.ltb_spec (duration t) 0); [| lia]. }
    unfold GroupCountVisitor.
    pose proof (Hcollect group (tag song) m Hneg) as H1.
    destruct (CollectGroupCounts m group (tag song)) as [found m1].
    simpl in H1.
    destruct (negb found && bool_decide (group = TAG_ALBUM_ARTIST)); simpl.
    + by rewrite Hcollect.
    + done.
Qed.

(** "Ann" and "Bob" gain the song and its four seconds; with a negative
    duration they gain the song only. *)
Lemma GroupCountVisitor_fallback_witness :
  (forall v,
     (GroupCountVisitor {["Ann" := mkSearchStats 1 1000]} TAG_ALBUM_ARTIST
        (artists_only 4000)).2 !! v =
     credited {["Ann" := mkSearchStats 1 1000]}
       (occurrences TAG_ARTIST v (items (tag (artists_only 4000)))) 4000 v) /\
  (forall v,
     playtime
       (GroupCountVisitor {["Ann" := mkSearchStats 1 1000]} TAG_ALBUM_ARTIST
          (artists_only (-1))).2 v =
     playtime {["Ann" := mkSearchStats 1 1000]} v).
Proof.
  assert (forall item, item ∈ items (tag (artists_only 4000)) ->
            type item <> TAG_ALBUM_ARTIST) as Hnone.
  { intros item Hin. simpl in Hin.
    repeat (apply elem_of_cons in Hin as [->|Hin]; [discriminate |]).
    by apply elem_of_nil in Hin. }
  assert (duration (tag (artists_only (-1))) < 0) as Hneg by (simpl; lia).
  exact (conj
    (proj1 (proj1 (GroupCountVisitor_fallback _ TAG_ALBUM_ARTIST
                     (artists_only 4000)) Hnone) eq_refl)
    (proj2 (GroupCountVisitor_fallback _ TAG_ALBUM_ARTIST
              (artists_only (-1))) Hneg)).
Defined.

Example count_groups_sample :
  size (count_groups TAG_ALBUM_ARTIST
          [with_album_artist; artists_only 4000; artists_only (-1)]) = 3%nat /\
  count_groups TAG_ALBUM_ARTIST
    [with_album_artist; artists_only 4000; artists_only (-1)] !! "Various" =
    Some (mkSearchStats 1 1000) /\
  count_groups TAG_ALBUM_ARTIST
    [with_album_artist; artists_only 4000; artists_only (-1)] !! "Ann" =
    Some (mkSearchStats 2 4000) /\
  count_groups TAG_ALBUM_ARTIST
    [with_album_artist; artists_only 4000; artists_only (-1)] !! "Bob" =
    Some (mkSearchStats 2 4000).
Proof. by vm_compute. Qed.

Example count_groups_other_type :
  map_to_list (count_groups (TAG_OTHER 7) [artists_only 4000]) = [].
Proof. by vm_compute. Qed.

(** ** What the songs of a selection add up to *)

Lemma add_song_known d (s : SearchStats) :
  0 <= total_duration s < 2 ^ 64 ->
  add_song d s =
  mkSearchStats ((n_songs s + 1) mod 2 ^ 32)
    ((total_duration s + known d) mod 2 ^ 64).
Proof.
  intros Hs. unfold add_song, known. destruct (IsNegative d); [| done].
  by rewrite Z.add_0_r, (Z.mod_small (total_duration s)).
Qed.

(** The visitor without grouping, on every song of the selection. *)
Lemma count_all_fold (durations : list Z) (s : SearchStats) :
  0 <= total_duration s < 2 ^ 64 ->
  fold_left (fun s d => (stats_visitor_song s d).2) durations s =
  match durations with
  | [] => s
  | _ =>
      mkSearchStats ((n_songs s + Z.of_nat (length durations)) mod 2 ^ 32)
        ((total_duration s + total_known durations) mod 2 ^ 64)
  end.
Proof.
  revert s. induction durations as [|d ds IH]; intros s Ht; [done |].
  cbn [fold_left]. unfold stats_visitor_song at 2. cbn [snd].
  rewrite IH by (rewrite add_song_known by done; simpl;
                 apply Z.mod_pos_bound; lia).
  rewrite add_song_known by done. cbn [n_songs total_duration].
  destruct ds as [|d' ds].
  - simpl. f_equal; f_equal; lia.
  - rewrite !Zplus_mod_idemp_l. f_equal; f_equal; simpl length; simpl; lia.
Qed.

(** X17: without grouping every song is counted, and the durations that
    are not negative are added up: [n_songs] is the number of songs modulo
    2^32, [total_duration] the sum of the known durations modulo 2^64. *)
Theorem count_all_sums (durations : list Z) :
  count_all durations =
  mkSearchStats (Z.of_nat (length durations) mod 2 ^ 32)
    (total_known durations mod 2 ^ 64).
Proof.
  unfold count_all. rewrite count_all_fold by (simpl; lia).
  by destruct durations.
Qed.

(** [found] is set when the tag has an item of the group's type. *)
Lemma collect_found_iff group d (its : list TagItem)
    (acc : bool * gmap string SearchStats) :
  (fold_left (collect_item group d) its acc).1 =
  acc.1 || bool_decide (Exists (fun item => type item = group) its).
Proof.
  revert acc. induction its as [|item its IH]; intros acc.
  - cbn [fold_left]. rewrite bool_decide_eq_false_2; [by rewrite orb_false_r |].
    by intros ?%Exists_nil.
  - cbn [fold_left]. rewrite IH. unfold collect_item.
    destruct (decide (type item = group)) as [Hty|Hty]; simpl.
    + rewrite (bool_decide_eq_true_2 (Exists _ (item :: its)));
        [by rewrite orb_true_r | by left].
    + f_equal. apply bool_decide_ext. rewrite Exists_cons. tauto.
Qed.

Lemma occurrences_none group v (its : list TagItem) :
  ~ Exists (fun item => type item = group) its -> occurrences group v its = 0%nat.
Proof.
  unfold occurrences. induction its as [|item its IH]; intros Hnone; [done |].
  rewrite filter_cons. rewrite decide_False.
  - apply IH. intros H. apply Hnone. by right.
  - intros [Hty _]. apply Hnone. by left.
Qed.

(** The visitor, entry by entry. *)
Lemma GroupCountVisitor_lookup (m : gmap string SearchStats) group song v :
  (GroupCountVisitor m group song).2 !! v =
  credited m (hits group v song) (duration (tag song)) v.
Proof.
  unfold GroupCountVisitor, hits, counted_type.
  destruct (decide (Exists (fun item => type item = group) (items (tag song))))
    as [Hex|Hnone].
  - rewrite (bool_decide_eq_true_2 (Exists _ _)) by done.
    pose proof (collect_found_iff group (duration (tag song))
                  (items (tag song)) (false, m)) as Hfound.
    pose proof (collect_lookup group (duration (tag song)) (items (tag song))
                  (false, m) v) as Hlook.
    fold (CollectGroupCounts m group (tag song)) in Hfound, Hlook.
    destruct (CollectGroupCounts m group (tag song)) as [found m1].
    simpl in Hfound, Hlook.
    rewrite bool_decide_eq_true_2 in Hfound by done. by subst found.
  - rewrite (bool_decide_eq_false_2 (Exists _ _)) by done.
    assert (CollectGroupCounts m group (tag song) = (false, m)) as ->.
    { apply collect_found. intros item Hin Hty. apply Hnone.
      apply Exists_exists. eauto. }
    simpl. destruct (decide (group = TAG_ALBUM_ARTIST)) as [->|Hother].
    + rewrite bool_decide_eq_true_2 by done. simpl. apply collect_lookup.
    + rewrite bool_decide_eq_false_2 by done. simpl.
      by rewrite occurrences_none.
Qed.

(** X18: a song whose tag has an item of the requested type is counted
    under the values of these items alone: the fall back to Artist is not
    taken, also when the request is AlbumArtist. *)
Theorem GroupCountVisitor_found (m : gmap string SearchStats) group song :
  (exists item, item ∈ items (tag song) /\ type item = group) ->
  GroupCountVisitor m group song =
    (true, (CollectGroupCounts m group (tag song)).2) /\
  forall v,
    (GroupCountVisitor m group song).2 !! v =
    credited m (occurrences group v (items (tag song))) (duration (tag song)) v.
Proof.
  intros Hex. apply Exists_exists in Hex.
  pose proof (collect_found_iff group (duration (tag song))
                (items (tag song)) (false, m)) as Hfound.
  rewrite bool_decide_eq_true_2 in Hfound by done. simpl in Hfound.
  fold (CollectGroupCounts m group (tag song)) in Hfound.
  assert (GroupCountVisitor m group song =
          (true, (CollectGroupCounts m group (tag song)).2)) as Hrun.
  { unfold GroupCountVisitor.
    destruct (CollectGroupCounts m group (tag song)) as [found m1].
    simpl in *. by subst found. }
  split; [done |]. intros v. rewrite Hrun. simpl. apply collect_lookup.
Qed.

(** A value that no song is counted for gains no time. *)
Lemma total_time_none group v songs :
  total_hits group v songs = 0%nat -> total_time group v songs = 0.
Proof.
  unfold total_hits, total_time.
  induction songs as [|song songs IH]; [done |]. simpl. intros Hsum.
  rewrite IH by lia. replace (hits group v song) with 0%nat by lia. lia.
Qed.

Lemma credited_entry (m : gmap string SearchStats) k d v :
  0 <= total_duration (entry m v) < 2 ^ 64 ->
  credited m k d v =
  match k with
  | O => m !! v
  | S _ =>
      Some (mkSearchStats ((n_songs (entry m v) + Z.of_nat k) mod 2 ^ 32)
              ((total_duration (entry m v) + Z.of_nat k * known d) mod 2 ^ 64))
  end.
Proof.
  intros Hm. unfold credited, known. destruct k; [done |].
  destruct (IsNegative d); [| done].
  by rewrite Z.mul_0_r, Z.add_0_r, (Z.mod_small (total_duration (entry m v))).
Qed.

(** The visitor on every song of the selection, entry by entry. *)
Lemma visit_lookup group songs (m : gmap string SearchStats) v :
  0 <= total_duration (entry m v) < 2 ^ 64 ->
  fold_left (fun m song => (GroupCountVisitor m group song).2) songs m !! v =
  match total_hits group v songs with
  | O => m !! v
  | S _ =>
      Some (mkSearchStats
              ((n_songs (entry m v) + Z.of_nat (total_hits group v songs))
                 mod 2 ^ 32)
              ((total_duration (entry m v) + total_time group v songs)
                 mod 2 ^ 64))
  end.
Proof.
  revert m. induction songs as [|song songs IH]; intros m Hm; [done |].
  cbn [fold_left].
  pose proof (GroupCountVisitor_lookup m group song v) as H1.
  rewrite credited_entry in H1 by done.
  set (m1 := (GroupCountVisitor m group song).2) in *.
  unfold total_hits, total_time in *. cbn [map sum_list foldr].
  fold (total_hits group v songs) in *. fold (total_time group v songs) in *.
  pose proof (total_time_none group v songs) as Hnone.
  destruct (hits group v song) as [|k] eqn:Hk.
  - assert (entry m1 v = entry m v) as He by (unfold entry; by rewrite H1).
    rewrite (IH m1) by (by rewrite He). rewrite He, H1. simpl.
    destruct (total_hits group v songs); [done |]. do 3 f_equal; lia.
  - assert (entry m1 v =
            mkSearchStats ((n_songs (entry m v) + Z.of_nat (S k)) mod 2 ^ 32)
              ((total_duration (entry m v) +
                Z.of_nat (S k) * known (duration (tag song))) mod 2 ^ 64))
      as He by (unfold entry at 1; by rewrite H1).
    rewrite (IH m1) by (rewrite He; simpl; apply Z.mod_pos_bound; lia).
    rewrite He. cbn [n_songs total_duration].
    destruct (total_hits group v songs) as [|k'] eqn:Hk'.
    + rewrite H1, Hnone by done. simpl. do 3 f_equal; lia.
    + simpl. rewrite !Zplus_mod_idemp_l. do 3 f_equal; lia.
Qed.

(** The grouped count of a selection, value by value. *)
Lemma count_groups_lookup group songs v :
  count_groups group songs !! v =
  if decide (total_hits group v songs = 0%nat) then None
  else Some (mkSearchStats (Z.of_nat (total_hits group v songs) mod 2 ^ 32)
               (total_time group v songs mod 2 ^ 64)).
Proof.
  unfold count_groups.
  rewrite visit_lookup by (unfold entry; rewrite lookup_empty; simpl; lia).
  destruct (total_hits group v songs); [done |].
  rewrite decide_False by done. unfold entry. by rewrite lookup_empty.
Qed.

(** X19: the grouped count of a selection, value by value.  A value has
    an entry exactly when some song is counted for it; the entry holds the
    number of times the songs are counted for it, modulo 2^32, and the sum
    of their known durations, each as often as the song is counted, modulo
    2^64. *)
Theorem count_groups_sums group songs v :
  (count_groups group songs !! v =
   if decide (total_hits group v songs = 0%nat) then None
   else Some (mkSearchStats (Z.of_nat (total_hits group v songs) mod 2 ^ 32)
                (total_time group v songs mod 2 ^ 64))) /\
  (v ∈ dom (count_groups group songs) <-> total_hits group v songs <> 0%nat).
Proof.
  split; [apply count_groups_lookup |].
  rewrite elem_of_dom, count_groups_lookup.
  destruct (decide (total_hits group v songs = 0%nat)).
  - split; [by intros [? ?] | done].
  - split; [done | by eauto].
Qed.

Lemma total_hits_perm group v songs songs' :
  songs ≡ₚ songs' -> total_hits group v songs = total_hits group v songs'.
Proof. intros Hp. unfold total_hits. by rewrite Hp. Qed.

Lemma total_time_perm group v songs songs' :
  songs ≡ₚ songs' -> total_time group v songs = total_time group v songs'.
Proof.
  unfold total_time. induction 1; simpl; lia.
Qed.

(** X20: the order in which the data base visits the songs does not
    matter to the grouped count. *)
Theorem count_groups_any_order group songs songs' :
  songs ≡ₚ songs' -> count_groups group songs = count_groups group songs'.
Proof.
  intros Hp. apply map_eq. intros v.
  pose proof (visit_lookup group songs ∅ v) as H1.
  pose proof (visit_lookup group songs' ∅ v) as H2.
  unfold count_groups. rewrite H1, H2
    by (unfold entry; rewrite lookup_empty; simpl; lia).
  by rewrite (total_hits_perm group v songs songs'),
    (total_time_perm group v songs songs').
Qed.

(** ** Facts about the response *)

Section PrintingFacts.
Variable tag_item_names : TagType -> string.

Lemma known_nonneg d : 0 <= known d.
Proof.
  unfold known, IsNegative. destruct (Z.ltb_spec d 0); lia.
Qed.

Lemma total_known_nonneg ds : 0 <= total_known ds.
Proof.
  induction ds as [|d ds IH]; simpl; [done |].
  pose proof (known_nonneg d). lia.
Qed.

(** X21: the response without grouping: the number of songs, and the
    play time in whole seconds, the milliseconds of the known durations
    added up before they are cut to seconds; provided neither exceeds an
    [unsigned]. *)
Theorem PrintSongCount_all r songs GetDuration :
  Z.of_nat (length songs) < 2 ^ 32 ->
  total_known (map GetDuration songs) < 1000 * 2 ^ 32 ->
  PrintSongCount tag_item_names r (Some songs) GetDuration None =
  Some (r +:+ "songs: " +:+ pretty (N.of_nat (length songs)) +:+ LF +:+
        "playtime: " +:+
        pretty (Z.to_N (total_known (map GetDuration songs) / 1000)) +:+ LF).
Proof.
  intros Hn Ht. unfold PrintSongCount, PrintSearchStats, format_u, count_all.
  rewrite count_all_fold by (simpl; lia).
  assert (forall ds : list Z,
    match ds with
    | [] => no_stats
    | _ =>
        mkSearchStats ((n_songs no_stats + Z.of_nat (length ds)) mod 2 ^ 32)
          ((total_duration no_stats + total_known ds) mod 2 ^ 64)
    end =
    mkSearchStats (Z.of_nat (length ds) mod 2 ^ 32)
      (total_known ds mod 2 ^ 64)) as -> by (by intros []).
  cbn [n_songs total_duration].
  pose proof (total_known_nonneg (map GetDuration songs)) as Hpos.
  rewrite length_map.
  rewrite (Z.mod_small (Z.of_nat _)) by lia.
  rewrite (Z.mod_small (total_known _)) by lia.
  rewrite (Z.mod_small (_ / 1000)).
  - by replace (Z.to_N (Z.of_nat (length songs)))
      with (N.of_nat (length songs)) by lia.
  - split; [apply Z.div_pos; lia |]. apply Z.div_lt_upper_bound; lia.
Qed.

End PrintingFacts.
(** ** The counts of the sample songs *)

(** The song with an album artist is counted under it, and not under its
    artist. *)
Lemma GroupCountVisitor_found_witness :
  GroupCountVisitor ∅ TAG_ALBUM_ARTIST with_album_artist =
    (true, (CollectGroupCounts ∅ TAG_ALBUM_ARTIST (tag with_album_artist)).2) /\
  forall v,
    (GroupCountVisitor ∅ TAG_ALBUM_ARTIST with_album_artist).2 !! v =
    credited ∅ (occurrences TAG_ALBUM_ARTIST v (items (tag with_album_artist)))
      (duration (tag with_album_artist)) v.
Proof.
  assert (exists item, item ∈ items (tag with_album_artist) /\
            type item = TAG_ALBUM_ARTIST) as Hex.
  { exists (mkTagItem TAG_ALBUM_ARTIST "Various"). split; [| reflexivity].
    simpl. apply elem_of_cons. right. apply elem_of_cons. by left. }
  exact (GroupCountVisitor_found ∅ TAG_ALBUM_ARTIST with_album_artist Hex).
Defined.

Example found_not_under_artist :
  (GroupCountVisitor ∅ TAG_ALBUM_ARTIST with_album_artist).2 !! "Ann" = None /\
  (GroupCountVisitor ∅ TAG_ALBUM_ARTIST with_album_artist).2 !! "Various" =
    Some (mkSearchStats 1 1000).
Proof. by vm_compute. Qed.

Lemma count_groups_any_order_witness :
  count_groups TAG_ALBUM_ARTIST [with_album_artist; artists_only 4000] =
  count_groups TAG_ALBUM_ARTIST [artists_only 4000; with_album_artist].
Proof.
  exact (count_groups_any_order TAG_ALBUM_ARTIST
           [with_album_artist; artists_only 4000]
           [artists_only 4000; with_album_artist]
           (perm_swap _ _ [])).
Defined.

(** Three songs of 1999 ms, 2001 ms and an unknown duration: three songs
    and four seconds, the 4000 ms added up before they are cut to
    seconds. *)
Lemma PrintSongCount_all_witness :
  PrintSongCount (fun _ => "Artist") "OK"
    (Some [artists_only 1999; artists_only 2001; artists_only (-1)])
    (fun song => duration (tag song)) None =
  Some ("OK" +:+ "songs: " +:+ pretty (N.of_nat 3) +:+ LF +:+
        "playtime: " +:+ pretty (Z.to_N (4000 / 1000)) +:+ LF).
Proof.
  assert (Z.of_nat (length [artists_only 1999; artists_only 2001;
                            artists_only (-1)]) < 2 ^ 32) as Hn
    by (simpl; lia).
  assert (total_known
            (map (fun song => duration (tag song))
               [artists_only 1999; artists_only 2001; artists_only (-1)]) <
          1000 * 2 ^ 32) as Ht by (vm_compute; reflexivity).
  exact (PrintSongCount_all (fun _ => "Artist") "OK"
           [artists_only 1999; artists_only 2001; artists_only (-1)]
           (fun song => duration (tag song)) Hn Ht).
Defined.

Example PrintSongCount_text :
  PrintSongCount (fun _ => "Artist") EmptyString
    (Some [artists_only 1999; artists_only 2001; artists_only (-1)])
    (fun song => duration (tag song)) None =
  Some ("songs: 3" +:+ LF +:+ "playtime: 4" +:+ LF).
Proof. by vm_compute. Qed.

Example PrintSongCount_grouped_text :
  PrintSongCount (fun _ => "Artist") EmptyString
    (Some [artists_only 1999; with_album_artist])
    (fun song => duration (tag song)) (Some TAG_ARTIST) =
  Some ("Artist: Ann" +:+ LF +:+ "songs: 2" +:+ LF +:+ "playtime: 2" +:+ LF +:+
        "Artist: Bob" +:+ LF +:+ "songs: 1" +:+ LF +:+ "playtime: 1" +:+ LF).
Proof. by vm_compute. Qed.

End Count.
